(** * Pacman: the movement, collision and round-controller engine of pacman.py

    A shallow embedding of [src/pacman.py].  Python integers are [Z]; Python
    floats (positions, speeds, [dt], the power timer) are idealised as exact
    rationals [Q], with Python's [round] (round half to even) and [int]
    (truncation) written out on them; the pellet sets are [gset (Z * Z)];
    the keyboard is a function from keys to [bool]; the [random] module is a
    section variable: a state and a [shuffle] on it.  The one exception that
    the engine can raise ([i % len(ghost_starts)] with no ghost start) is an
    [option]. *)

From Stdlib Require Import ZArith QArith Qround Qabs Bool List String Ascii Lia Lqa.
From Stdlib Require Import Sorted Permutation.
From stdpp Require Import base decidable option list gmap.

Local Open Scope Z_scope.

(** ** Numbers as the code uses them *)

Module Num.

Definition Qltb (x y : Q) : bool := negb (Qle_bool y x).
Definition Qgeb (x y : Q) : bool := Qle_bool y x.

(** Python's [round(x)]: nearest integer, ties to the even one. *)
Definition py_round (x : Q) : Z :=
  let f := Qfloor x in
  match ((x - inject_Z f) ?= (1 # 2))%Q with
  | Lt => f
  | Gt => f + 1
  | Eq => if Z.even f then f else f + 1
  end.

(** Python's [int(x)] on a float: truncation toward zero. *)
Definition py_int (x : Q) : Z := Z.quot (Qnum x) (Z.pos (Qden x)).

Definition Qmax (x y : Q) : Q := if Qle_bool x y then y else x.

(** [float(n)] for an integer [n]. *)
Definition float (n : Z) : Q := inject_Z n.

End Num.
Import Num.

(** ** Config and constants *)

Inductive GameState := STATE_PLAYING | STATE_POWER | STATE_GAMEOVER.

Definition POWER_DURATION : Q := 8 # 1.

Inductive Color := RED | PINK | CYAN | ORANGE.

Local Open Scope string_scope.

Definition MAZE_LAYOUT : list string :=
  [ "############################";
    "#............##............#";
    "#.####.#####.##.#####.####.#";
    "#o####.#####.##.#####.####o#";
    "#.####.#####.##.#####.####.#";
    "#..........................#";
    "#.####.##.########.##.####.#";
    "#.####.##.########.##.####.#";
    "#......##....##....##......#";
    "######.##### ## #####.######";
    "     #.##### ## #####.#     ";
    "     #.##          ##.#     ";
    "     #.## ###GG### ##.#     ";
    "######.## #      # ##.######";
    "      .   # PPPP #   .      ";
    "######.## #      # ##.######";
    "     #.## ######## ##.#     ";
    "     #.##          ##.#     ";
    "     #.##### ## #####.#     ";
    "######.##### ## #####.######";
    "#............##............#";
    "#.####.#####.##.#####.####.#";
    "#o..##................##..o#";
    "###.##.##.########.##.##.###";
    "#......##....##....##......#";
    "#.##########.##.##########.#";
    "#..........................#";
    "############################" ].

Local Close Scope string_scope.

Definition ROWS : Z := Z.of_nat (List.length MAZE_LAYOUT).
Definition COLS : Z := Z.of_nat (String.length (nth 0 MAZE_LAYOUT EmptyString)).

(** [MAZE_LAYOUT[row][col]], for indices already known to be in range. *)
Definition layout_at (col row : Z) : option ascii :=
  String.get (Z.to_nat col) (nth (Z.to_nat row) MAZE_LAYOUT EmptyString).

Definition is_char (c : ascii) (o : option ascii) : bool :=
  match o with
  | Some a => Ascii.eqb a c
  | None => false
  end.

Definition is_wall (col row : Z) : bool :=
  if (0 <=? row) && (row <? ROWS) && (0 <=? col) && (col <? COLS)
  then is_char "#"%char (layout_at col row)
  else true.

Definition valid_cell (col row : Z) : bool :=
  (0 <=? row) && (row <? ROWS) && (0 <=? col) && (col <? COLS)
  && negb (is_wall col row).

(** ** Maze *)

Abbreviation Cell := (Z * Z)%type.

Record Maze := mkMaze {
  pellets : gset Cell;
  power_pellets : gset Cell;
  player_start : Cell;
  ghost_starts : list Cell
}.

(** The state that [Maze.__init__] builds while it scans the layout;
    [player_start] is [None] until the first 'P'. *)
Record MazeScan := mkScan {
  sc_pellets : gset Cell;
  sc_power : gset Cell;
  sc_player : option Cell;
  sc_ghosts : list Cell
}.

Definition scan_char (c r : Z) (ch : ascii) (s : MazeScan) : MazeScan :=
  if Ascii.eqb ch "."%char then
    mkScan ({[ (c, r) ]} ∪ sc_pellets s) (sc_power s) (sc_player s) (sc_ghosts s)
  else if Ascii.eqb ch "o"%char then
    mkScan (sc_pellets s) ({[ (c, r) ]} ∪ sc_power s) (sc_player s) (sc_ghosts s)
  else if Ascii.eqb ch "P"%char && bool_decide (sc_player s = None) then
    mkScan (sc_pellets s) (sc_power s) (Some (c, r)) (sc_ghosts s)
  else if Ascii.eqb ch "G"%char then
    mkScan (sc_pellets s) (sc_power s) (sc_player s) (sc_ghosts s ++ [(c, r)])
  else s.

Fixpoint scan_line (c r : Z) (line : string) (s : MazeScan) : MazeScan :=
  match line with
  | EmptyString => s
  | String ch rest => scan_line (c + 1) r rest (scan_char c r ch s)
  end.

Fixpoint scan_rows (r : Z) (rows : list string) (s : MazeScan) : MazeScan :=
  match rows with
  | [] => s
  | line :: rest => scan_rows (r + 1) rest (scan_line 0 r line s)
  end.

Definition Maze_init : Maze :=
  let s := scan_rows 0 MAZE_LAYOUT (mkScan ∅ ∅ None []) in
  mkMaze (sc_pellets s) (sc_power s)
    (match sc_player s with
     | Some p => p
     | None => (COLS / 2, ROWS / 2)
     end)
    (match sc_ghosts s with
     | [] => [(COLS / 2 - 1, ROWS / 2); (COLS / 2 + 1, ROWS / 2)]
     | gs => gs
     end).

(** ** Entity *)

Abbreviation Dir := (Z * Z)%type.

Record Entity := mkEntity {
  col : Q;
  row : Q;
  dir : Dir;
  speed : Q
}.

Definition Entity_init (c r : Z) (sp : Q) : Entity :=
  mkEntity (float c) (float r) (0, 0) sp.

Definition cell_centered (e : Entity) : bool :=
  let cx := py_round (col e) in
  let cy := py_round (row e) in
  Qltb (Qabs (col e - inject_Z cx)) (1 # 10)
  && Qltb (Qabs (row e - inject_Z cy)) (1 # 10).

Definition set_dir_if_valid (e : Entity) (d : Dir) : Entity :=
  let ncol := py_round (col e + inject_Z (fst d)) in
  let nrow := py_round (row e + inject_Z (snd d)) in
  if valid_cell ncol nrow
  then mkEntity (inject_Z (py_round (col e))) (inject_Z (py_round (row e))) d (speed e)
  else e.

(** The tunnel wrap, used on every sampled column and on the committed one. *)
Definition wrap_col (c : Q) : Q :=
  if Qltb c 0 then inject_Z (COLS - 1)
  else if Qgeb c (inject_Z COLS) then 0%Q
  else c.

Definition next_col (e : Entity) (dt : Q) : Q :=
  (col e + inject_Z (fst (dir e)) * speed e * dt)%Q.

Definition next_row (e : Entity) (dt : Q) : Q :=
  (row e + inject_Z (snd (dir e)) * speed e * dt)%Q.

Definition move_steps (e : Entity) (dt : Q) : Z :=
  Z.max 1 (py_int (Qmax (Qabs (next_col e dt - col e))
                        (Qabs (next_row e dt - row e)) * (4 # 1))%Q).

(** The body of the sampling loop at index [i]: does the sample hit a wall? *)
Definition sample_hits_wall (e : Entity) (dt : Q) (steps i : Z) : bool :=
  let t := (inject_Z (i + 1) / inject_Z steps)%Q in
  let pcol := (col e + (next_col e dt - col e) * t)%Q in
  let prow := (row e + (next_row e dt - row e) * t)%Q in
  is_wall (py_round (wrap_col pcol)) (py_round prow).

(** [for i in range(steps): ... if is_wall(ic, ir): return]. *)
Definition move_blocked (e : Entity) (dt : Q) : bool :=
  let steps := move_steps e dt in
  existsb (sample_hits_wall e dt steps) (seqZ 0 steps).

Definition update_move (e : Entity) (dt : Q) : Entity :=
  if move_blocked e dt then e
  else mkEntity (wrap_col (next_col e dt)) (next_row e dt) (dir e) (speed e).

(** [n] calls of [update_move] with the same [dt], one per tick. *)
Fixpoint advance (n : nat) (e : Entity) (dt : Q) : Entity :=
  match n with
  | O => e
  | S k => update_move (advance k e dt) dt
  end.

(** ** Player *)

Inductive Key := K_UP | K_DOWN | K_LEFT | K_RIGHT | K_a | K_d | K_w | K_s.

Record Player := mkPlayer {
  p_ent : Entity;
  next_dir : Dir;
  lives : Z;
  score : Z
}.

Definition Player_init (c r : Z) : Player :=
  mkPlayer (Entity_init c r (8 # 1)) (0, 0) 3 0.

Definition handle_input (pressed : Key -> bool) (p : Player) : Player :=
  let nd :=
    if pressed K_LEFT || pressed K_a then (-1, 0)
    else if pressed K_RIGHT || pressed K_d then (1, 0)
    else if pressed K_UP || pressed K_w then (0, -1)
    else if pressed K_DOWN || pressed K_s then (0, 1)
    else next_dir p in
  mkPlayer (p_ent p) nd (lives p) (score p).

(** The first statement of [Player.update]: the turn request. *)
Definition Player_try_turn (p : Player) : Player :=
  if cell_centered (p_ent p) && bool_decide (next_dir p ≠ dir (p_ent p))
  then mkPlayer (set_dir_if_valid (p_ent p) (next_dir p)) (next_dir p) (lives p) (score p)
  else p.

Definition entity_cell (e : Entity) : Cell := (py_round (col e), py_round (row e)).

(** [Player.update]: the player, the maze and whether 'power' was returned. *)
Definition Player_update (p : Player) (m : Maze) (dt : Q) : Player * Maze * bool :=
  let p1 := Player_try_turn p in
  let e2 := update_move (p_ent p1) dt in
  let cr := entity_cell e2 in
  let '(pel, sc) :=
    if bool_decide (cr ∈ pellets m)
    then (pellets m ∖ {[ cr ]}, score p1 + 10)
    else (pellets m, score p1) in
  if bool_decide (cr ∈ power_pellets m)
  then (mkPlayer e2 (next_dir p1) (lives p1) (sc + 50),
        mkMaze pel (power_pellets m ∖ {[ cr ]}) (player_start m) (ghost_starts m),
        true)
  else (mkPlayer e2 (next_dir p1) (lives p1) sc,
        mkMaze pel (power_pellets m) (player_start m) (ghost_starts m),
        false).

(** ** Ghost *)

Record Ghost := mkGhost {
  g_ent : Entity;
  color : Color;
  base_speed : Q;
  frightened : bool;
  eaten : bool;
  home : Cell
}.

Definition Ghost_init (c r : Z) (k : Color) : Ghost :=
  mkGhost (Entity_init c r (6 # 1)) k (6 # 1) false false (c, r).

Definition set_flags (g : Ghost) (f e : bool) : Ghost :=
  mkGhost (g_ent g) (color g) (base_speed g) f e (home g).

Definition set_ent (g : Ghost) (e : Entity) : Ghost :=
  mkGhost e (color g) (base_speed g) (frightened g) (eaten g) (home g).

Definition available_dirs (e : Entity) : list Dir :=
  List.filter
    (fun d => valid_cell (py_round (col e + inject_Z (fst d)))
                         (py_round (row e + inject_Z (snd d))))
    [(-1, 0); (1, 0); (0, -1); (0, 1)].

(** [list.remove(x)]: drops the first occurrence. *)
Fixpoint remove_first (d : Dir) (l : list Dir) : list Dir :=
  match l with
  | [] => []
  | x :: rest => if bool_decide (x = d) then rest else x :: remove_first d rest
  end.

(** [list.sort(key=...)]: a stable sort, here by insertion. *)
Fixpoint insert_by (key : Dir -> Z) (x : Dir) (l : list Dir) : list Dir :=
  match l with
  | [] => [x]
  | y :: rest => if key x <=? key y then x :: l else y :: insert_by key x rest
  end.

Definition sort_by (key : Dir -> Z) (l : list Dir) : list Dir :=
  foldr (insert_by key) [] l.

Definition dist_sq_after_dir (e : Entity) (target : Cell) (d : Dir) : Z :=
  let nx := py_round (col e) + fst d in
  let ny := py_round (row e) + snd d in
  (nx - fst target) ^ 2 + (ny - snd target) ^ 2.

Definition ghost_speed (g : Ghost) : Q :=
  if eaten g then (base_speed g * (12 # 10))%Q
  else if frightened g then (base_speed g * (6 # 10))%Q
  else base_speed g.

(** The candidate directions at an intersection: the walkable neighbours,
    without the reverse of the current direction unless it is the only one. *)
Definition ghost_options (e : Entity) : list Dir :=
  let options := available_dirs e in
  let opposite := (- fst (dir e), - snd (dir e)) in
  if (1 <? Z.of_nat (List.length options)) && bool_decide (opposite ∈ options)
  then remove_first opposite options
  else options.

Definition with_dir (e : Entity) (d : Dir) : Entity :=
  mkEntity (col e) (row e) d (speed e).

Section Engine.

(** Python's [random] module: a generator state and [random.shuffle]. *)
Variable RNG : Type.
Variable shuffle : RNG -> list Dir -> list Dir * RNG.

Definition Ghost_update (dt : Q) (player_pos : Cell) (g : Ghost) (r : RNG)
  : Ghost * RNG :=
  let e0 := mkEntity (col (g_ent g)) (row (g_ent g)) (dir (g_ent g)) (ghost_speed g) in
  let '(e1, r1) :=
    if cell_centered e0 then
      match ghost_options e0 with
      | [] => (e0, r)
      | options =>
          if eaten g then
            (with_dir e0 (hd (dir e0) (sort_by (dist_sq_after_dir e0 (home g)) options)), r)
          else if frightened g then
            (with_dir e0
               (hd (dir e0)
                  (sort_by (fun d => - dist_sq_after_dir e0 player_pos d) options)), r)
          else
            let '(shuffled, r') := shuffle r options in
            (with_dir e0
               (hd (dir e0) (sort_by (dist_sq_after_dir e0 player_pos) shuffled)), r')
      end
    else (e0, r) in
  (set_ent g (update_move e1 dt), r1).

(** [for g in self.ghosts: g.update(dt, ppos)]. *)
Fixpoint update_ghosts (dt : Q) (ppos : Cell) (gs : list Ghost) (r : RNG)
  : list Ghost * RNG :=
  match gs with
  | [] => ([], r)
  | g :: rest =>
      let '(g', r1) := Ghost_update dt ppos g r in
      let '(rest', r2) := update_ghosts dt ppos rest r1 in
      (g' :: rest', r2)
  end.

End Engine.

(** ** Game: the round controller *)

Record Game := mkGame {
  maze : Maze;
  player : Player;
  ghosts : list Ghost;
  state : GameState;
  power_timer : Q
}.

Definition colors : list Color := [RED; PINK; CYAN; ORANGE].

(** [reset_level] overwrites every field; [full_reset] only selects a branch
    that does nothing, and the old game is not read. *)
Definition reset_level (full_reset : bool) (g : Game) : Game :=
  let m := Maze_init in
  let ps := player_start m in
  let starts := ghost_starts m in
  mkGame m (Player_init (fst ps) (snd ps))
    (imap (fun i c => Ghost_init (fst c) (snd c)
                        (nth (i mod List.length colors) colors RED))
          (take (Nat.min 4 (List.length starts)) starts))
    STATE_PLAYING 0%Q.

(** [Game.__init__], without the window: [reset_level(full_reset=True)]. *)
Definition Game_init : Game :=
  reset_level true (mkGame Maze_init (Player_init 0 0) [] STATE_PLAYING 0%Q).

Definition set_power_mode (g : Game) : Game :=
  mkGame (maze g) (player g)
    (map (fun gh => if negb (eaten gh) then set_flags gh true (eaten gh) else gh)
         (ghosts g))
    STATE_POWER POWER_DURATION.

(** The body of the loop in [update_power_timer]. *)
Definition expire_ghost (gh : Ghost) : Ghost :=
  set_flags gh false (if eaten gh then false else eaten gh).

Definition update_power_timer (dt : Q) (g : Game) : Game :=
  match state g with
  | STATE_POWER =>
      let t := (power_timer g - dt)%Q in
      if Qle_bool t 0
      then mkGame (maze g) (player g) (map expire_ghost (ghosts g)) STATE_PLAYING t
      else mkGame (maze g) (player g) (ghosts g) (state g) t
  | _ => g
  end.

(** One ghost of the loop in [lose_life_and_reset_positions];
    [i % len(ghost_starts)] raises when there is no ghost start. *)
Definition respawn_ghost (starts : list Cell) (i : nat) (gh : Ghost) : option Ghost :=
  gs ← starts !! (i mod List.length starts)%nat;
  Some (mkGhost (mkEntity (float (fst gs)) (float (snd gs)) (0, 0) (speed (g_ent gh)))
          (color gh) (base_speed gh) false false (home gh)).

Fixpoint respawn_ghosts (starts : list Cell) (i : nat) (gs : list Ghost)
  : option (list Ghost) :=
  match gs with
  | [] => Some []
  | gh :: rest =>
      gh' ← respawn_ghost starts i gh;
      rest' ← respawn_ghosts starts (S i) rest;
      Some (gh' :: rest')
  end.

Definition lose_life_and_reset_positions (g : Game) : option Game :=
  let p := player g in
  let ps := player_start (maze g) in
  let p' := mkPlayer (mkEntity (float (fst ps)) (float (snd ps)) (0, 0) (speed (p_ent p)))
              (next_dir p) (lives p - 1) (score p) in
  gs' ← respawn_ghosts (ghost_starts (maze g)) 0 (ghosts g);
  Some (mkGame (maze g) p' gs' STATE_PLAYING 0%Q).

Definition add_score (p : Player) (n : Z) : Player :=
  mkPlayer (p_ent p) (next_dir p) (lives p) (score p + n).

(** The body of the first loop of [handle_collisions] for the ghost at index
    [i]; [pc], [pr] is the player's cell read before the loop.  The [bool]
    tells whether the loop is left ([break]). *)
Definition collide (pc pr : Z) (i : nat) (g : Game) : option (Game * bool) :=
  match ghosts g !! i with
  | None => Some (g, false)
  | Some gh =>
      if (pc =? py_round (col (g_ent gh))) && (pr =? py_round (row (g_ent gh))) then
        if frightened gh && negb (eaten gh) then
          Some (mkGame (maze g) (add_score (player g) 200)
                  (<[ i := set_flags gh false true ]> (ghosts g))
                  (state g) (power_timer g), false)
        else if negb (eaten gh) then
          g' ← lose_life_and_reset_positions g;
          Some (g', true)
        else Some (g, false)
      else Some (g, false)
  end.

Fixpoint collisions_loop (pc pr : Z) (idx : list nat) (g : Game) : option Game :=
  match idx with
  | [] => Some g
  | i :: rest =>
      match collide pc pr i g with
      | None => None
      | Some (g', true) => Some g'
      | Some (g', false) => collisions_loop pc pr rest g'
      end
  end.

(** The body of the second loop: an eaten ghost on its home cell revives. *)
Definition revive_ghost (gh : Ghost) : Ghost :=
  if eaten gh
     && (py_round (col (g_ent gh)) =? fst (home gh))
     && (py_round (row (g_ent gh)) =? snd (home gh))
  then set_flags gh false false
  else gh.

Definition handle_collisions (g : Game) : option Game :=
  let pc := py_round (col (p_ent (player g))) in
  let pr := py_round (row (p_ent (player g))) in
  g1 ← collisions_loop pc pr (seq 0 (List.length (ghosts g))) g;
  Some (mkGame (maze g1) (player g1) (map revive_ghost (ghosts g1))
          (state g1) (power_timer g1)).

(** The level-clear check of [Game.update]. *)
Definition round_clear (g : Game) : Game :=
  if bool_decide (pellets (maze g) = ∅) && bool_decide (power_pellets (maze g) = ∅) then
    let old_score := score (player g) in
    let old_lives := lives (player g) in
    let g' := reset_level false g in
    mkGame (maze g')
      (mkPlayer (p_ent (player g')) (next_dir (player g')) old_lives old_score)
      (ghosts g') (state g') (power_timer g')
  else g.

(** The game-over check of [Game.update]. *)
Definition check_game_over (g : Game) : Game :=
  if lives (player g) <=? 0
  then mkGame (maze g) (player g) (ghosts g) STATE_GAMEOVER (power_timer g)
  else g.

Section Round.

Variable RNG : Type.
Variable shuffle : RNG -> list Dir -> list Dir * RNG.

(** The player's part of a tick: input, [Player.update], power mode. *)
Definition player_phase (pressed : Key -> bool) (dt : Q) (g : Game) : Game :=
  let p0 := handle_input pressed (player g) in
  let '(p1, m1, power_trigger) := Player_update p0 (maze g) dt in
  let g1 := mkGame m1 p1 (ghosts g) (state g) (power_timer g) in
  if power_trigger then set_power_mode g1 else g1.

(** The ghosts' part: the player's cell is read once, then every ghost
    is updated with it. *)
Definition ghost_phase (dt : Q) (g : Game) (r : RNG) : Game * RNG :=
  let ppos := entity_cell (p_ent (player g)) in
  let '(gs, r') := update_ghosts RNG shuffle dt ppos (ghosts g) r in
  (mkGame (maze g) (player g) gs (state g) (power_timer g), r').

(** What follows the collisions: level clear, game over, power timer. *)
Definition end_phase (dt : Q) (g : Game) : Game :=
  update_power_timer dt (check_game_over (round_clear g)).

Definition update (pressed : Key -> bool) (dt : Q) (g : Game) (r : RNG)
  : option (Game * RNG) :=
  let g1 := player_phase pressed dt g in
  let '(g2, r') := ghost_phase dt g1 r in
  g3 ← handle_collisions g2;
  Some (end_phase dt g3, r').

(** The states that [Game.run] can reach: construction, a tick while the
    game is not over, and the restart on 'r' once it is. *)
Inductive reachable : Game -> Prop :=
| reach_init : reachable Game_init
| reach_tick g pressed dt r g' r' :
    reachable g ->
    state g ≠ STATE_GAMEOVER ->
    update pressed dt g r = Some (g', r') ->
    reachable g'
| reach_restart g :
    reachable g ->
    state g = STATE_GAMEOVER ->
    reachable (reset_level true g).

End Round.

(** ** Predicates and test data of the statements *)

(** What [lose_life_and_reset_positions] makes of the ghost at index [j]. *)
Definition respawned (starts : list Cell) (j : nat) (gh gh' : Ghost) : Prop :=
  exists start,
    starts !! (j mod List.length starts)%nat = Some start
    /\ gh' = mkGhost (mkEntity (float (fst start)) (float (snd start)) (0, 0)
                        (speed (g_ent gh)))
               (color gh) (base_speed gh) false false (home gh).

(** One ghost keeps its flags: nothing but [g_ent] differs. *)
Definition same_flags (gh gh' : Ghost) : Prop :=
  frightened gh' = frightened gh /\ eaten gh' = eaten gh.

(** A ghost is not frightened and eaten at once. *)
Definition flags_ok (gh : Ghost) : Prop := frightened gh && eaten gh = false.

(** What [set_power_mode] makes of one ghost. *)
Definition frighten (gh : Ghost) : Ghost :=
  if eaten gh then gh else set_flags gh true false.

(** During POWER mode right after activation every ghost is frightened or
    eaten, so that no collision costs a life. *)
Definition armed (gh : Ghost) : Prop := frightened gh || eaten gh = true.

(** A collision step that costs no life: mode, timer, maze and lives stay
    and the score does not drop. *)
Definition keeps_round (g g' : Game) : Prop :=
  state g' = state g
  /\ power_timer g' = power_timer g
  /\ maze g' = maze g
  /\ lives (player g') = lives (player g)
  /\ score (player g) <= score (player g').

(** [m'] is [m] after some pellets were eaten. *)
Definition maze_shrunk (m m' : Maze) : Prop :=
  pellets m' ⊆ pellets m
  /\ power_pellets m' ⊆ power_pellets m
  /\ player_start m' = player_start m
  /\ ghost_starts m' = ghost_starts m.

(** A random source for the examples: [shuffle] rotates the list by the
    state, which then advances. *)
Definition rotate_shuffle (r : nat) (l : list Dir) : list Dir * nat := (rotate r l, S r).

Definition no_keys (k : Key) : bool := false.

(** ** Further relations between states, for the statements *)

(** The tests of the first loop of [handle_collisions] on one ghost, for
    the player's cell [(pc, pr)]: the ghost is on that cell; it is eaten
    there (frightened and not eaten); it costs a life there (neither
    frightened nor eaten). *)
Definition on_cell (pc pr : Z) (gh : Ghost) : bool :=
  (pc =? py_round (col (g_ent gh))) && (pr =? py_round (row (g_ent gh))).

Definition edible (pc pr : Z) (gh : Ghost) : bool :=
  on_cell pc pr gh && (frightened gh && negb (eaten gh)).

Definition deadly (pc pr : Z) (gh : Ghost) : bool :=
  on_cell pc pr gh && negb (frightened gh) && negb (eaten gh).

(** What the first loop makes of a ghost when it gets to it and no life is
    lost. *)
Definition eat_ghost (pc pr : Z) (gh : Ghost) : Ghost :=
  if edible pc pr gh then set_flags gh false true else gh.

(** How many of the ghosts are eaten on the player's cell. *)
Definition count_edible (pc pr : Z) (gs : list Ghost) : Z :=
  Z.of_nat (List.length (List.filter (edible pc pr) gs)).

(** One ghost across the first loop while no life is lost: untouched, or
    eaten while it was frightened. *)
Definition eat_step (a b : Ghost) : Prop :=
  b = a \/ (frightened a = true /\ eaten a = false /\ b = set_flags a false true).

(** A ghost put back on one of the starts, with direction (0, 0) and both
    flags cleared. *)
Definition respawned_at (starts : list Cell) (gh gh' : Ghost) : Prop :=
  exists j start,
    starts !! (j mod List.length starts)%nat = Some start
    /\ gh' = mkGhost (mkEntity (float (fst start)) (float (snd start)) (0, 0)
                        (speed (g_ent gh)))
               (color gh) (base_speed gh) false false (home gh).

(** The game across the first loop while no life is lost. *)
Definition eats (g g1 : Game) : Prop :=
  keeps_round g g1
  /\ p_ent (player g1) = p_ent (player g)
  /\ next_dir (player g1) = next_dir (player g)
  /\ Forall2 eat_step (ghosts g) (ghosts g1).

(** The game after [lose_life_and_reset_positions]. *)
Definition life_lost (g g' : Game) : Prop :=
  lives (player g') = lives (player g) - 1
  /\ score (player g') = score (player g)
  /\ state g' = STATE_PLAYING
  /\ power_timer g' = 0%Q
  /\ maze g' = maze g
  /\ col (p_ent (player g')) = float (fst (player_start (maze g)))
  /\ row (p_ent (player g')) = float (snd (player_start (maze g)))
  /\ dir (p_ent (player g')) = (0, 0)
  /\ next_dir (player g') = next_dir (player g)
  /\ Forall2 (respawned_at (ghost_starts (maze g))) (ghosts g) (ghosts g').

(** One ghost across [handle_collisions] while no life is lost: it stays
    where it is, and its frightened flag is not set anew. *)
Definition calmed (a b : Ghost) : Prop :=
  g_ent b = g_ent a /\ home b = home a /\ (frightened b = true -> b = a).

(** Frightened ghosts exist in POWER mode only. *)
Definition calm_unless_power (g : Game) : Prop :=
  state g = STATE_POWER \/ Forall (fun gh => frightened gh = false) (ghosts g).

(** The rounded cell of an entity is not a wall. *)
Definition on_free_cell (e : Entity) : Prop :=
  is_wall (py_round (col e)) (py_round (row e)) = false.

Definition all_on_free_cells (g : Game) : Prop :=
  on_free_cell (p_ent (player g))
  /\ Forall (fun gh => on_free_cell (g_ent gh)) (ghosts g).

Definition starts_free (m : Maze) : Prop :=
  is_wall (fst (player_start m)) (snd (player_start m)) = false
  /\ Forall (fun c => is_wall (fst c) (snd c) = false) (ghost_starts m).

(** One of the four axis steps, or standing still. *)
Definition unit_dir (d : Dir) : Prop :=
  d ∈ [(-1, 0); (1, 0); (0, -1); (0, 1); (0, 0)].

Definition all_unit_dirs (g : Game) : Prop :=
  unit_dir (dir (p_ent (player g)))
  /\ unit_dir (next_dir (player g))
  /\ Forall (fun gh => unit_dir (dir (g_ent gh))) (ghosts g).

(** ** Layout characters, pixels and drawing *)

(** The character of a layout at column [c] of row [r]. *)
Definition char_at (rows : list string) (c r : Z) : option ascii :=
  String.get (Z.to_nat c) (nth (Z.to_nat r) rows EmptyString).

Definition TILE_SIZE : Z := 24.

Definition grid_to_px (c r : Z) : Z * Z := (c * TILE_SIZE, r * TILE_SIZE).

Definition px_center_of_cell (c r : Z) : Z * Z :=
  let '(x, y) := grid_to_px c r in (x + TILE_SIZE / 2, y + TILE_SIZE / 2).

(** The cell on which [Player.draw] and [Ghost.draw] put the sprite:
    [int], not [round]. *)
Definition draw_cell (e : Entity) : Cell := (py_int (col e), py_int (row e)).

(** ** Events and the main loop *)

Inductive EventType := QUIT | KEYDOWN | OTHER_EVENT.

(** A pygame event, as far as [process_events] reads it. *)
Record Event := mkEvent {
  ev_type : EventType;
  ev_key : Z;
  ev_unicode : string
}.

Definition K_ESCAPE : Z := 27.

(** [str.lower] on the ASCII letters; no other character lower-cases to
    'r', the one string the result is compared with. *)
Definition lower_ascii (a : ascii) : ascii :=
  let n := nat_of_ascii a in
  if (65 <=? n)%nat && (n <=? 90)%nat then ascii_of_nat (n + 32) else a.

Fixpoint py_lower (s : string) : string :=
  match s with
  | EmptyString => EmptyString
  | String a rest => String (lower_ascii a) (py_lower rest)
  end.

Definition is_restart (g : Game) (ev : Event) : bool :=
  match state g with
  | STATE_GAMEOVER => String.eqb (py_lower (ev_unicode ev)) "r"
  | _ => false
  end.

(** [process_events]: [false] when the loop has to stop, and the game,
    restarted or not. *)
Fixpoint process_events (evs : list Event) (g : Game) : bool * Game :=
  match evs with
  | [] => (true, g)
  | ev :: rest =>
      match ev_type ev with
      | QUIT => (false, g)
      | KEYDOWN =>
          if ev_key ev =? K_ESCAPE then (false, g)
          else if is_restart g ev then process_events rest (reset_level true g)
          else process_events rest g
      | OTHER_EVENT => process_events rest g
      end
  end.

(** What one turn of the loop of [run] gets from outside: the event queue,
    the pressed keys, and the milliseconds that [clock.tick] returns. *)
Record Frame := mkFrame {
  events : list Event;
  pressed_keys : Key -> bool;
  tick_ms : Z
}.

Section RunLoop.

Variable RNG : Type.
Variable shuffle : RNG -> list Dir -> list Dir * RNG.

(** [Game.run] over the frames given: the loop ends when [process_events]
    says so, or here when the frames are used up. *)
Fixpoint run (frames : list Frame) (g : Game) (r : RNG) : option (Game * RNG) :=
  match frames with
  | [] => Some (g, r)
  | f :: rest =>
      let '(go, g1) := process_events (events f) g in
      if go then
        let dt := (inject_Z (tick_ms f) / 1000)%Q in
        match state g1 with
        | STATE_GAMEOVER => run rest g1 r
        | _ =>
            '(g2, r2) ← update RNG shuffle (pressed_keys f) dt g1 r;
            run rest g2 r2
        end
      else Some (g1, r)
  end.

End RunLoop.

(** ** [Ghost.choose_dir] *)

Section Choice.

Variable RNG : Type.

(** [random.choice]. *)
Variable choice : RNG -> list Dir -> Dir * RNG.

Definition choose_dir (g : Ghost) (r : RNG) : Dir * RNG :=
  let opposite := (- fst (dir (g_ent g)), - snd (dir (g_ent g))) in
  match ghost_options (g_ent g) with
  | [] => (opposite, r)
  | options => choice r options
  end.

End Choice.

(** A [random.choice] for the examples: the element at the state modulo the
    length. *)
Definition pick_choice (r : nat) (l : list Dir) : Dir * nat :=
  (nth (r mod List.length l) l (0, 0), S r).

(** ** Games played from the start, for the examples *)

(** The keyboard with one key held down. *)
Definition hold (k : Key) (x : Key) : bool :=
  match k, x with
  | K_UP, K_UP | K_DOWN, K_DOWN | K_LEFT, K_LEFT | K_RIGHT, K_RIGHT
  | K_a, K_a | K_d, K_d | K_w, K_w | K_s, K_s => true
  | _, _ => false
  end.

(** [n] frames of 125 ms, one cell of the player each, with one key held. *)
Definition walk (n : nat) (k : Key) : list Frame := repeat (mkFrame [] (hold k) 125) n.

(** The game that [run] leaves after the frames, from [Game()]. *)
Definition game_after (frames : list Frame) : Game :=
  match run nat rotate_shuffle frames Game_init 0%nat with
  | Some (g, _) => g
  | None => Game_init
  end.

(** A game played from the start: the player runs into a ghost and loses a
    life, walks to the power pellet at (1, 3), and comes back within the
    eight seconds to eat the ghost that is stuck next to (13, 12). *)
Definition played_frames : list Frame :=
  walk 1 K_UP ++ walk 1 K_RIGHT ++ walk 1 K_UP
  ++ walk 1 K_UP ++ walk 2 K_RIGHT ++ walk 2 K_UP ++ walk 2 K_LEFT ++ walk 3 K_UP
  ++ walk 3 K_LEFT ++ walk 3 K_UP ++ walk 8 K_LEFT ++ walk 2 K_UP
  ++ walk 2 K_DOWN ++ walk 8 K_RIGHT ++ walk 3 K_DOWN ++ walk 3 K_RIGHT
  ++ walk 3 K_DOWN ++ walk 1 K_RIGHT ++ walk 1 K_DOWN.

Definition played_game : Game := game_after played_frames.

(** A game lost: three times the player runs into the ghost that stands
    next to the ghost house. *)
Definition lost_frames : list Frame :=
  walk 1 K_UP ++ walk 1 K_RIGHT ++ walk 1 K_UP
  ++ walk 1 K_UP ++ walk 1 K_RIGHT ++ walk 1 K_UP
  ++ walk 1 K_UP ++ walk 1 K_RIGHT ++ walk 1 K_UP.

Definition lost_game : Game := game_after lost_frames.

(** What the examples look at in a game: mode, lives, score, the player's
    cell and direction, of every ghost the cell, the direction, the two
    flags and the home, and how many pellets and power pellets are left. *)
Definition game_summary (g : Game)
  : GameState * Z * Z * Cell * Dir * list (Cell * Dir * bool * bool * Cell) * nat * nat :=
  (state g, lives (player g), score (player g),
   entity_cell (p_ent (player g)), dir (p_ent (player g)),
   map (fun gh => (entity_cell (g_ent gh), dir (g_ent gh), frightened gh, eaten gh, home gh))
     (ghosts g),
   size (pellets (maze g)), size (power_pellets (maze g))).

(** * Properties *)

(** ** Rounding and comparisons on [Q] *)

Lemma Qltb_lt (x y : Q) : Qltb x y = true <-> (x < y)%Q.
Proof.
  unfold Qltb. rewrite negb_true_iff, <- not_true_iff_false, Qle_bool_iff.
  split; [apply Qnot_le_lt | apply Qlt_not_le].
Qed.

Lemma Qltb_ge (x y : Q) : Qltb x y = false <-> (y <= x)%Q.
Proof. unfold Qltb. rewrite negb_false_iff. apply Qle_bool_iff. Qed.


Lemma Qgeb_lt (x y : Q) : Qgeb x y = false <-> (x < y)%Q.
Proof.
  unfold Qgeb. rewrite <- not_true_iff_false, Qle_bool_iff.
  split; [apply Qnot_le_lt | apply Qlt_not_le].
Qed.

Lemma Qle_bool_Qeq (x x' y y' : Q) :
  (x == x')%Q -> (y == y')%Q -> Qle_bool x y = Qle_bool x' y'.
Proof.
  intros Hx Hy. apply eq_true_iff_eq. rewrite !Qle_bool_iff, Hx, Hy. reflexivity.
Qed.

Lemma py_round_Qeq (x y : Q) : (x == y)%Q -> py_round x = py_round y.
Proof.
  intros H. unfold py_round. rewrite (Qfloor_comp _ _ H).
  assert (Hc : ((x - inject_Z (Qfloor y)) ?= (1 # 2))%Q
               = ((y - inject_Z (Qfloor y)) ?= (1 # 2))%Q)
    by (apply Qcompare_comp; [rewrite H|]; reflexivity).
  rewrite Hc. reflexivity.
Qed.

Lemma inject_Z_sub (x y : Z) : inject_Z (x - y) = (inject_Z x - inject_Z y)%Q.
Proof. unfold Z.sub. rewrite inject_Z_plus, inject_Z_opp. reflexivity. Qed.

Lemma Qfloor_bounds (x : Q) : (inject_Z (Qfloor x) <= x < inject_Z (Qfloor x) + 1)%Q.
Proof.
  split; [apply Qfloor_le|].
  pose proof (Qlt_floor x) as H. rewrite inject_Z_plus in H. exact H.
Qed.

Lemma Qfloor_unique (x : Q) (n : Z) :
  (inject_Z n <= x)%Q -> (x < inject_Z n + 1)%Q -> Qfloor x = n.
Proof.
  intros Hlo Hhi. destruct (Qfloor_bounds x) as [Flo Fhi].
  assert (H1 : (inject_Z (Qfloor x) < inject_Z (n + 1))%Q)
    by (rewrite inject_Z_plus; change (inject_Z 1) with 1%Q; lra).
  assert (H2 : (inject_Z n < inject_Z (Qfloor x + 1))%Q)
    by (rewrite inject_Z_plus; change (inject_Z 1) with 1%Q; lra).
  rewrite <- Zlt_Qlt in H1, H2. lia.
Qed.

(** An integer nearer than a half is the rounded value. *)
Lemma py_round_unique (x : Q) (n : Z) :
  (Qabs (x - inject_Z n) < 1 # 2)%Q -> py_round x = n.
Proof.
  intros H. apply Qabs_Qlt_condition in H. destruct H as [Hlo Hhi].
  unfold py_round. destruct (Qlt_le_dec x (inject_Z n)) as [Hlt | Hge].
  - assert (Hf : Qfloor x = n - 1).
    { apply Qfloor_unique; rewrite inject_Z_sub; change (inject_Z 1) with 1%Q; lra. }
    rewrite Hf.
    assert (Hc : ((x - inject_Z (n - 1)) ?= (1 # 2))%Q = Gt).
    { rewrite <- Qgt_alt, inject_Z_sub. change (inject_Z 1) with 1%Q. lra. }
    rewrite Hc. lia.
  - assert (Hf : Qfloor x = n) by (apply Qfloor_unique; lra).
    rewrite Hf.
    assert (Hc : ((x - inject_Z n) ?= (1 # 2))%Q = Lt) by (rewrite <- Qlt_alt; lra).
    rewrite Hc. reflexivity.
Qed.

(** Rounding a number near an integer commutes with an integer shift. *)
Lemma py_round_shift (x : Q) (d : Z) :
  (Qabs (x - inject_Z (py_round x)) < 1 # 10)%Q ->
  py_round (x + inject_Z d) = py_round x + d.
Proof.
  intros H. apply py_round_unique.
  apply Qabs_Qlt_condition in H. apply Qabs_Qlt_condition.
  rewrite inject_Z_plus. lra.
Qed.

Lemma py_round_upper_half (x : Q) (n : Z) :
  Z.even n = true -> (inject_Z n - (1 # 2) <= x)%Q -> (x < inject_Z n)%Q ->
  py_round x = n.
Proof.
  intros Hev Hlo Hhi. unfold py_round.
  assert (Hf : Qfloor x = n - 1).
  { apply Qfloor_unique; rewrite inject_Z_sub; change (inject_Z 1) with 1%Q; lra. }
  rewrite Hf.
  assert (Hodd : Z.even (n - 1) = false).
  { rewrite Z.even_sub, Hev. reflexivity. }
  destruct ((x - inject_Z (n - 1)) ?= (1 # 2))%Q eqn:Hc.
  - rewrite Hodd. lia.
  - rewrite <- Qlt_alt, inject_Z_sub in Hc. change (inject_Z 1) with 1%Q in Hc. lra.
  - lia.
Qed.

Lemma py_round_ge (x : Q) (n : Z) :
  Z.even n = true -> (inject_Z n - (1 # 2) <= x)%Q -> n <= py_round x.
Proof.
  intros Hev Hlo. destruct (Qlt_le_dec x (inject_Z n)) as [Hlt | Hge].
  - rewrite (py_round_upper_half x n Hev Hlo Hlt). lia.
  - unfold py_round.
    assert (Hfl : n <= Qfloor x).
    { rewrite <- (Qfloor_Z n). apply Qfloor_resp_le, Hge. }
    destruct (Qcompare _ _); [destruct (Z.even (Qfloor x))| |]; lia.
Qed.

Lemma py_int_nonneg (x : Q) : (0 <= x)%Q -> py_int x = Qfloor x.
Proof.
  intros H. unfold py_int, Qfloor. destruct x as [n d]. simpl.
  apply Z.quot_div_nonneg; [|lia].
  unfold Qle in H. simpl in H. lia.
Qed.

Lemma wrap_col_Qeq (x y : Q) : (x == y)%Q -> (wrap_col x == wrap_col y)%Q.
Proof.
  intros H. unfold wrap_col, Qltb, Qgeb.
  rewrite (Qle_bool_Qeq 0 0 x y), (Qle_bool_Qeq (inject_Z COLS) (inject_Z COLS) x y)
    by (assumption || reflexivity).
  destruct (Qle_bool 0 y); simpl; [|reflexivity].
  destruct (Qle_bool (inject_Z COLS) y); [reflexivity | assumption].
Qed.

(** ** Movement *)

Lemma move_steps_pos (e : Entity) (dt : Q) : 1 <= move_steps e dt.
Proof. unfold move_steps. lia. Qed.

(** The last sample of the loop is the committed position. *)
Lemma last_sample (e : Entity) (dt : Q) :
  sample_hits_wall e dt (move_steps e dt) (move_steps e dt - 1)
  = is_wall (py_round (wrap_col (next_col e dt))) (py_round (next_row e dt)).
Proof.
  unfold sample_hits_wall. pose proof (move_steps_pos e dt) as Hs.
  set (n := move_steps e dt) in *.
  replace (n - 1 + 1) with n by lia.
  assert (Hn : ~ (inject_Z n == 0)%Q).
  { intros H0. change 0%Q with (inject_Z 0) in H0.
    apply (proj1 (inject_Z_injective n 0)) in H0. lia. }
  assert (Ht : (inject_Z n / inject_Z n == 1)%Q) by (field; exact Hn).
  f_equal; apply py_round_Qeq; [apply wrap_col_Qeq|]; rewrite Ht; ring.
Qed.

Lemma move_clear_last (e : Entity) (dt : Q) :
  move_blocked e dt = false ->
  is_wall (py_round (wrap_col (next_col e dt))) (py_round (next_row e dt)) = false.
Proof.
  unfold move_blocked. intros H. rewrite <- last_sample.
  destruct (sample_hits_wall e dt (move_steps e dt) (move_steps e dt - 1)) eqn:Hw;
    [|reflexivity].
  rewrite <- H. symmetry. apply existsb_exists.
  exists (move_steps e dt - 1). split; [|exact Hw].
  apply list_elem_of_In, elem_of_seqZ. pose proof (move_steps_pos e dt). lia.
Qed.

(** C2: an entity that starts on a cell that is not a wall ends a move on a
    cell that is not a wall, whatever its direction, speed and [dt]. *)
Theorem update_move_never_into_wall (e : Entity) (dt : Q) :
  is_wall (py_round (col e)) (py_round (row e)) = false ->
  is_wall (py_round (col (update_move e dt))) (py_round (row (update_move e dt))) = false.
Proof.
  intros Hstart. unfold update_move.
  destruct (move_blocked e dt) eqn:Hb; [exact Hstart|].
  simpl. apply move_clear_last, Hb.
Qed.

Lemma update_move_never_into_wall_witness :
  let e := mkEntity (1 # 10) 14 (-1, 0) (8 # 1) in
  is_wall (py_round (col e)) (py_round (row e)) = false
  /\ update_move e (1 # 60) = mkEntity 27 (14 + 0 * (8 # 1) * (1 # 60)) (-1, 0) (8 # 1)
  /\ is_wall (py_round (col (update_move e (1 # 60))))
             (py_round (row (update_move e (1 # 60)))) = false.
Proof.
  split; [reflexivity|]. split; [reflexivity|].
  apply update_move_never_into_wall. reflexivity.
Defined.

Lemma update_move_blocked (e : Entity) (dt : Q) :
  move_blocked e dt = true -> update_move e dt = e.
Proof. intros H. unfold update_move. rewrite H. reflexivity. Qed.

(** ** Tunnel wraparound *)




(** The right-hand branch of the wrap, on an entity placed beyond the last
    column. *)
Example update_move_wrap_right :
  let e := mkEntity (278 # 10) 14 (1, 0) 1 in
  move_blocked e (3 # 10) = false
  /\ (inject_Z COLS <= next_col e (3 # 10))%Q
  /\ col (update_move e (3 # 10)) = 0%Q.
Proof. cbv zeta. split; [reflexivity|]. split; [vm_compute; discriminate | reflexivity]. Qed.

Lemma is_wall_beyond (c r : Z) : COLS <= c -> is_wall c r = true.
Proof.
  intros H. unfold is_wall.
  assert (Hc : (c <? COLS) = false) by (apply Z.ltb_ge; exact H).
  rewrite Hc, andb_false_r. reflexivity.
Qed.

(** A walk by steps shorter than a half that gets to [lo] or beyond lands
    in [[lo, lo + 1/2)] on the way. *)
Lemma first_crossing (x0 delta lo : Q) :
  (x0 < lo)%Q -> (delta < 1 # 2)%Q ->
  forall k : nat,
    (lo <= x0 + inject_Z (Z.of_nat k) * delta)%Q ->
    exists i : nat,
      (i < k)%nat
      /\ (lo <= x0 + inject_Z (Z.of_nat (S i)) * delta)%Q
      /\ (x0 + inject_Z (Z.of_nat (S i)) * delta < lo + (1 # 2))%Q.
Proof.
  intros H0 Hd. induction k as [|k IH]; intros Hk.
  - change (inject_Z (Z.of_nat 0)) with 0%Q in Hk. exfalso. lra.
  - destruct (Qlt_le_dec (x0 + inject_Z (Z.of_nat k) * delta) lo) as [Hlt | Hge].
    + exists k. split; [lia|]. split; [exact Hk|].
      rewrite Nat2Z.inj_succ. unfold Z.succ. rewrite inject_Z_plus.
      change (inject_Z 1) with 1%Q. lra.
    + destruct (IH Hge) as (i & Hi & Hlo & Hhi). exists i. split; [lia|]. split; assumption.
Qed.

(** An entity on a cell that is not a wall never commits a column at or
    beyond [COLS]: on its way there a sample falls in [[COLS - 1/2, COLS)],
    rounds to column [COLS], which is out of bounds and so a wall, and the
    move is dropped.  The right-hand branch of the wrap is never taken from
    inside the maze. *)
Lemma tunnel_right_exit_blocked (e : Entity) (dt : Q) :
  is_wall (py_round (col e)) (py_round (row e)) = false ->
  (inject_Z COLS <= next_col e dt)%Q ->
  move_blocked e dt = true.
Proof.
  intros Hstart Hnext. change (inject_Z COLS) with (28 # 1)%Q in Hnext.
  assert (Hcol : (col e < 55 # 2)%Q).
  { apply Qnot_le_lt. intros Hge.
    assert (H28 : 28 <= py_round (col e)).
    { apply py_round_ge; [reflexivity|]. change (inject_Z 28) with (28 # 1)%Q. lra. }
    rewrite (is_wall_beyond _ _ H28) in Hstart. discriminate. }
  set (D := (next_col e dt - col e)%Q).
  assert (HD : (1 # 2 < D)%Q) by (unfold D; lra).
  pose proof (move_steps_pos e dt) as Hn1.
  assert (Hn : (2 * D < inject_Z (move_steps e dt))%Q).
  { unfold move_steps.
    set (y := (Qmax (Qabs (next_col e dt - col e)) (Qabs (next_row e dt - row e))
               * (4 # 1))%Q).
    assert (Hy : (4 * D <= y)%Q).
    { unfold y, Qmax. fold D.
      pose proof (Qle_Qabs D) as Ha.
      destruct (Qle_bool (Qabs D) (Qabs (next_row e dt - row e))) eqn:Hm.
      - apply Qle_bool_iff in Hm. lra.
      - lra. }
    assert (Hint : (y < inject_Z (py_int y) + 1)%Q).
    { rewrite py_int_nonneg by lra. apply Qfloor_bounds. }
    assert (Hmax : (inject_Z (py_int y) <= inject_Z (Z.max 1 (py_int y)))%Q)
      by (rewrite <- Zle_Qle; lia).
    lra. }
  set (n := move_steps e dt) in *.
  assert (Hnpos : (0 < inject_Z n)%Q).
  { change 0%Q with (inject_Z 0). rewrite <- Zlt_Qlt. lia. }
  set (delta := (D / inject_Z n)%Q).
  assert (Hdelta : (delta < 1 # 2)%Q).
  { unfold delta. apply Qlt_shift_div_r; [exact Hnpos | lra]. }
  assert (Hend : (55 # 2 <= col e + inject_Z (Z.of_nat (Z.to_nat n)) * delta)%Q).
  { rewrite Z2Nat.id by lia. unfold delta.
    assert (Heq : (col e + inject_Z n * (D / inject_Z n) == next_col e dt)%Q)
      by (unfold D; field; lra).
    rewrite Heq. lra. }
  destruct (first_crossing (col e) delta (55 # 2) Hcol Hdelta _ Hend)
    as (i & Hi & Hlo & Hhi).
  unfold move_blocked. fold n. apply existsb_exists.
  exists (Z.of_nat i). split.
  { apply list_elem_of_In, elem_of_seqZ. lia. }
  unfold sample_hits_wall.
  set (pcol := (col e + (next_col e dt - col e)
                        * (inject_Z (Z.of_nat i + 1) / inject_Z n))%Q).
  assert (Hp : (pcol == col e + inject_Z (Z.of_nat (S i)) * delta)%Q).
  { unfold pcol, delta. fold D. rewrite Nat2Z.inj_succ. unfold Z.succ. field. lra. }
  rewrite <- Hp in Hlo, Hhi.
  assert (Hw : wrap_col pcol = pcol).
  { unfold wrap_col.
    assert (H1 : Qltb pcol 0 = false) by (apply Qltb_ge; lra).
    assert (H2 : Qgeb pcol (inject_Z COLS) = false)
      by (apply Qgeb_lt; change (inject_Z COLS) with (28 # 1)%Q; lra).
    rewrite H1, H2. reflexivity. }
  rewrite Hw.
  rewrite (py_round_upper_half pcol 28); [apply is_wall_beyond; reflexivity | reflexivity | |];
    change (inject_Z 28) with (28 # 1)%Q; lra.
Qed.

Example tunnel_right_stuck :
  let e := mkEntity (274 # 10) 14 (1, 0) (8 # 1) in
  is_wall (py_round (col e)) (py_round (row e)) = false
  /\ update_move e (1 # 60) = e.
Proof. split; reflexivity. Qed.

Lemma advance_S (n : nat) (e : Entity) (dt : Q) :
  advance (S n) e dt = update_move (advance n e dt) dt.
Proof. reflexivity. Qed.

Lemma tunnel_walk_stuck (n : nat) :
  advance (3 + n) (mkEntity 27 14 (1, 0) (8 # 1)) (1 # 60)
  = advance 3 (mkEntity 27 14 (1, 0) (8 # 1)) (1 # 60).
Proof.
  induction n as [|n IH]; [reflexivity|].
  rewrite Nat.add_succ_r, advance_S, IH.
  apply update_move_blocked. vm_compute. reflexivity.
Qed.

(** C3: the wrap is not symmetric.  On the tunnel row, at 60 frames a
    second, an entity that walks left from column 0.1 is at the last column
    after one move.  An entity that walks right from the last column, 27,
    commits 27.133, 27.267 and 27.4; the next move would end at 27.533,
    which rounds to column [COLS], out of bounds and so a wall, and it is
    dropped, like every move after it: the entity stays at 27.4 for ever and
    never gets to column 0. *)
Theorem tunnel_right_walk_never_wraps :
  let dt := (1 # 60)%Q in
  let l := mkEntity (1 # 10) 14 (-1, 0) (8 # 1) in
  let e := mkEntity 27 14 (1, 0) (8 # 1) in
  (col (update_move l dt) == inject_Z (COLS - 1))%Q
  /\ is_wall 0 14 = false
  /\ is_wall (COLS - 1) 14 = false
  /\ (col (advance 1 e dt) == 27 + (2 # 15))%Q
  /\ (col (advance 2 e dt) == 27 + (4 # 15))%Q
  /\ (col (advance 3 e dt) == 27 + (6 # 15))%Q
  /\ py_round (next_col (advance 3 e dt) dt) = COLS
  /\ is_wall COLS 14 = true
  /\ move_blocked (advance 3 e dt) dt = true
  /\ (forall n, advance (3 + n) e dt = advance 3 e dt)
  /\ (forall n, ~ (col (advance n e dt) == 0)%Q).
Proof.
  cbv zeta.
  split; [vm_compute; reflexivity|]. split; [vm_compute; reflexivity|].
  split; [vm_compute; reflexivity|]. split; [vm_compute; reflexivity|].
  split; [vm_compute; reflexivity|]. split; [vm_compute; reflexivity|].
  split; [vm_compute; reflexivity|]. split; [vm_compute; reflexivity|].
  split; [vm_compute; reflexivity|].
  split; [exact tunnel_walk_stuck|].
  intros n. destruct (le_lt_dec 3 n) as [Hge | Hlt].
  - replace n with (3 + (n - 3))%nat by lia. rewrite tunnel_walk_stuck.
    vm_compute. discriminate.
  - destruct n as [|[|[|n]]]; [vm_compute; discriminate ..| lia].
Qed.

(** ** Turning *)

(** C4: the player's turn request changes anything only when the player is
    cell-centered and the cell one step from its rounded cell in the
    requested direction is walkable; then the direction is the requested one
    and both coordinates are the rounded ones; in every other case the
    player is unchanged. *)
Theorem turn_request_spec (p : Player) :
  let e := p_ent p in
  let d := next_dir p in
  let target_ok := valid_cell (py_round (col e) + fst d) (py_round (row e) + snd d) in
  (Player_try_turn p ≠ p -> cell_centered e = true /\ target_ok = true)
  /\ (cell_centered e = true -> d ≠ dir e -> target_ok = true ->
      dir (p_ent (Player_try_turn p)) = d
      /\ col (p_ent (Player_try_turn p)) = inject_Z (py_round (col e))
      /\ row (p_ent (Player_try_turn p)) = inject_Z (py_round (row e)))
  /\ (cell_centered e = false \/ target_ok = false \/ d = dir e ->
      Player_try_turn p = p).
Proof.
  cbv zeta. unfold Player_try_turn, set_dir_if_valid.
  destruct (cell_centered (p_ent p)) eqn:Hc; simpl.
  2:{ split; [congruence|]. split; [discriminate | reflexivity]. }
  pose proof Hc as Hc'. unfold cell_centered in Hc'.
  apply andb_prop in Hc'. destruct Hc' as [Hx Hy].
  apply Qltb_lt in Hx, Hy.
  rewrite (py_round_shift _ (fst (next_dir p)) Hx),
          (py_round_shift _ (snd (next_dir p)) Hy).
  case_bool_decide as Hd; simpl.
  2:{ split; [congruence|]. split; [intros _ Hne; contradiction | reflexivity]. }
  destruct (valid_cell _ _) eqn:Hv.
  - split; [auto|]. split; [auto|].
    intros [H | [H | H]]; [discriminate | discriminate | contradiction].
  - destruct p as [e nd lv sc]. simpl in *.
    split; [congruence|]. split; [discriminate | reflexivity].
Qed.

Lemma turn_request_spec_witness :
  let p := mkPlayer (mkEntity (1205 # 100) 14 (1, 0) (8 # 1)) (-1, 0) 3 0 in
  cell_centered (p_ent p) = true
  /\ next_dir p ≠ dir (p_ent p)
  /\ valid_cell (py_round (col (p_ent p)) + -1) (py_round (row (p_ent p)) + 0) = true
  /\ dir (p_ent (Player_try_turn p)) = (-1, 0)
  /\ col (p_ent (Player_try_turn p)) = 12%Q.
Proof.
  cbv zeta.
  pose proof (turn_request_spec
                (mkPlayer (mkEntity (1205 # 100) 14 (1, 0) (8 # 1)) (-1, 0) 3 0))
    as (_ & Hturn & _).
  cbv zeta in Hturn.
  destruct (Hturn ltac:(reflexivity) ltac:(discriminate) ltac:(reflexivity))
    as (Hd & Hcol & _).
  split; [reflexivity|]. split; [discriminate|]. split; [reflexivity|].
  split; [exact Hd | exact Hcol].
Defined.

(** ** The power timer *)

Lemma expire_ghost_clears (gh : Ghost) : expire_ghost gh = set_flags gh false false.
Proof. unfold expire_ghost. destruct (eaten gh); reflexivity. Qed.

(** C1, as the claim states it, fails: a retreating ghost (eaten flag set)
    loses the flag when the timer expires with 0.016 s left and a tick of
    0.017 s. *)
Lemma power_expiry_counterexample :
  let gh := mkGhost (mkEntity 6 5 (1, 0) (72 # 10)) RED (6 # 1) false true (13, 12) in
  let g := mkGame Maze_init (Player_init 12 14) [gh] STATE_POWER (16 # 1000) in
  let dt := (17 # 1000)%Q in
  state g = STATE_POWER
  /\ (power_timer g - dt <= 0)%Q
  /\ map eaten (ghosts g) = [true]
  /\ map eaten (ghosts (update_power_timer dt g)) = [false].
Proof.
  cbv zeta. split; [reflexivity|]. split; [vm_compute; discriminate|].
  split; reflexivity.
Qed.

(** C1 (amended): when the timer reaches 0 or less in POWER mode, the mode
    becomes PLAYING and every ghost has both its frightened and its eaten
    flag cleared, so that a retreating ghost becomes a normal one; nothing
    else of a ghost, the player or the maze changes. *)
Theorem power_expiry_clears_flags (dt : Q) (g : Game) :
  state g = STATE_POWER ->
  (power_timer g - dt <= 0)%Q ->
  state (update_power_timer dt g) = STATE_PLAYING
  /\ power_timer (update_power_timer dt g) = (power_timer g - dt)%Q
  /\ ghosts (update_power_timer dt g)
     = map (fun gh => set_flags gh false false) (ghosts g)
  /\ Forall (fun gh => frightened gh = false /\ eaten gh = false)
       (ghosts (update_power_timer dt g))
  /\ player (update_power_timer dt g) = player g
  /\ maze (update_power_timer dt g) = maze g.
Proof.
  intros Hs Ht. unfold update_power_timer. rewrite Hs.
  apply Qle_bool_iff in Ht. rewrite Ht. simpl.
  assert (Hm : map expire_ghost (ghosts g)
               = map (fun gh => set_flags gh false false) (ghosts g))
    by (apply map_ext; intros gh; apply expire_ghost_clears).
  rewrite Hm. repeat split.
  apply List.Forall_map, Forall_true. intros gh. split; reflexivity.
Qed.

Lemma power_expiry_clears_flags_witness :
  let gh := mkGhost (mkEntity 6 5 (1, 0) (72 # 10)) RED (6 # 1) false true (13, 12) in
  let g := mkGame Maze_init (Player_init 12 14) [gh] STATE_POWER (16 # 1000) in
  state (update_power_timer (17 # 1000) g) = STATE_PLAYING
  /\ ghosts (update_power_timer (17 # 1000) g) = [set_flags gh false false].
Proof.
  cbv zeta.
  pose proof (power_expiry_clears_flags (17 # 1000)
    (mkGame Maze_init (Player_init 12 14)
       [mkGhost (mkEntity 6 5 (1, 0) (72 # 10)) RED (6 # 1) false true (13, 12)]
       STATE_POWER (16 # 1000))
    ltac:(reflexivity) ltac:(vm_compute; discriminate)) as (Hs & _ & Hg & _).
  split; [exact Hs | exact Hg].
Defined.

(** While the timer has not run out, only the timer changes. *)
Lemma power_timer_running (dt : Q) (g : Game) :
  state g = STATE_POWER ->
  (0 < power_timer g - dt)%Q ->
  update_power_timer dt g
  = mkGame (maze g) (player g) (ghosts g) STATE_POWER (power_timer g - dt)%Q.
Proof.
  intros Hs Ht. unfold update_power_timer. rewrite Hs.
  destruct (Qle_bool (power_timer g - dt) 0) eqn:Hle; [|reflexivity].
  apply Qle_bool_iff in Hle. exfalso. exact (Qlt_not_le _ _ Ht Hle).
Qed.

Lemma power_timer_idle (dt : Q) (g : Game) :
  state g ≠ STATE_POWER -> update_power_timer dt g = g.
Proof. intros Hs. unfold update_power_timer. destruct (state g); congruence. Qed.

(** ** Level clear *)

Lemma Maze_init_has_pellets : pellets Maze_init ≠ ∅.
Proof.
  intros H. assert (Hin : (1, 1) ∈ pellets Maze_init) by (vm_compute; reflexivity).
  rewrite H in Hin. exact (not_elem_of_empty _ Hin).
Qed.

Lemma Maze_init_disjoint : pellets Maze_init ## power_pellets Maze_init.
Proof. apply (bool_decide_unpack _). vm_compute. exact I. Qed.

(** C8: when both sets are empty at the level-clear check, the check resets
    the level once: the maze is the fresh maze of the layout, the player
    stands on the player start (12, 14) and the two ghosts on the ghost
    starts (13, 12) and (14, 12), each on its home, all with direction
    (0, 0) and the ghosts with both flags cleared, the mode is PLAYING and
    the timer 0, with the score and the lives it found; a second check would
    not reset again, and the rest of the tick keeps maze, score and lives. *)
Theorem round_clear_soft_reset (dt : Q) (g : Game) :
  pellets (maze g) = ∅ ->
  power_pellets (maze g) = ∅ ->
  maze (round_clear g) = Maze_init
  /\ player_start Maze_init = (12, 14)
  /\ ghost_starts Maze_init = [(13, 12); (14, 12)]
  /\ p_ent (player (round_clear g))
     = Entity_init (fst (player_start Maze_init)) (snd (player_start Maze_init)) (8 # 1)
  /\ p_ent (player (round_clear g)) = mkEntity 12 14 (0, 0) (8 # 1)
  /\ Forall2 (fun gh start =>
                g_ent gh = mkEntity (float (fst start)) (float (snd start)) (0, 0) (6 # 1)
                /\ frightened gh = false
                /\ eaten gh = false
                /\ home gh = start)
       (ghosts (round_clear g)) (ghost_starts Maze_init)
  /\ ghosts (round_clear g) = ghosts Game_init
  /\ state (round_clear g) = STATE_PLAYING
  /\ power_timer (round_clear g) = 0%Q
  /\ score (player (round_clear g)) = score (player g)
  /\ lives (player (round_clear g)) = lives (player g)
  /\ round_clear (round_clear g) = round_clear g
  /\ maze (end_phase dt g) = Maze_init
  /\ score (player (end_phase dt g)) = score (player g)
  /\ lives (player (end_phase dt g)) = lives (player g)
  /\ power_timer (end_phase dt g) = 0%Q
  /\ state (end_phase dt g)
     = (if lives (player g) <=? 0 then STATE_GAMEOVER else STATE_PLAYING).
Proof.
  intros Hp Hpp.
  assert (Hrc : round_clear g
    = mkGame Maze_init
        (mkPlayer (Entity_init (fst (player_start Maze_init))
                     (snd (player_start Maze_init)) (8 # 1))
           (0, 0) (lives (player g)) (score (player g)))
        (ghosts Game_init) STATE_PLAYING 0%Q).
  { unfold round_clear. rewrite Hp, Hpp.
    rewrite !bool_decide_eq_true_2 by reflexivity. reflexivity. }
  assert (Hidem : round_clear (round_clear g) = round_clear g).
  { rewrite Hrc. unfold round_clear at 1. cbn [maze].
    rewrite (bool_decide_eq_false_2 _ Maze_init_has_pellets). reflexivity. }
  assert (Hend : end_phase dt g = check_game_over (round_clear g)).
  { unfold end_phase. apply power_timer_idle.
    rewrite Hrc. unfold check_game_over. cbn [player lives].
    destruct (lives (player g) <=? 0); cbn [state]; discriminate. }
  assert (Hstarts : ghost_starts Maze_init = [(13, 12); (14, 12)])
    by (vm_compute; reflexivity).
  assert (Hghosts : ghosts Game_init
                    = [Ghost_init 13 12 RED; Ghost_init 14 12 PINK])
    by (vm_compute; reflexivity).
  rewrite Hend. unfold check_game_over.
  rewrite Hidem. rewrite Hrc. cbn [maze player ghosts state power_timer p_ent score lives].
  split; [reflexivity|]. split; [vm_compute; reflexivity|]. split; [exact Hstarts|].
  split; [reflexivity|]. split; [vm_compute; reflexivity|]. split.
  { rewrite Hstarts, Hghosts. repeat constructor. }
  repeat split; destruct (lives (player g) <=? 0); reflexivity.
Qed.

Lemma round_clear_soft_reset_witness :
  let g := mkGame (mkMaze ∅ ∅ (12, 14) [(13, 12); (14, 12)])
             (mkPlayer (mkEntity 26 26 (1, 0) (8 # 1)) (1, 0) 2 2660)
             [mkGhost (mkEntity 20 (257 # 10) (0, 1) (72 # 10)) RED (6 # 1) false true (13, 12);
              mkGhost (mkEntity (212 # 10) 26 (1, 0) (36 # 10)) PINK (6 # 1) true false (14, 12)]
             STATE_POWER (3 # 1) in
  score (player (round_clear g)) = 2660
  /\ lives (player (round_clear g)) = 2
  /\ state (round_clear g) = STATE_PLAYING
  /\ p_ent (player (round_clear g)) = mkEntity 12 14 (0, 0) (8 # 1)
  /\ map (fun gh => (g_ent gh, frightened gh, eaten gh)) (ghosts (round_clear g))
     = [(mkEntity 13 12 (0, 0) (6 # 1), false, false);
        (mkEntity 14 12 (0, 0) (6 # 1), false, false)]
  /\ maze (end_phase (1 # 60) g) = Maze_init.
Proof.
  intros g.
  destruct (round_clear_soft_reset (1 # 60) g ltac:(reflexivity) ltac:(reflexivity))
    as (_ & _ & Hstarts & _ & Hpl & Hgs & _ & Hst & _ & Hsc & Hlv & _ & Hm & _).
  split; [exact Hsc|]. split; [exact Hlv|]. split; [exact Hst|]. split; [exact Hpl|].
  split; [|exact Hm].
  rewrite Hstarts in Hgs. revert Hgs. generalize (ghosts (round_clear g)).
  intros gs Hgs.
  destruct gs as [|a [|b [|c gs]]]; inversion Hgs as [|? ? ? ? (Ha & Hfa & Hea & _) Hrest];
    subst; inversion Hrest as [|? ? ? ? (Hb & Hfb & Heb & _) Hnil]; subst;
    inversion Hnil; subst.
  cbn [map]. rewrite Ha, Hfa, Hea, Hb, Hfb, Heb. reflexivity.
Defined.

Lemma round_clear_idle (g : Game) :
  pellets (maze g) ≠ ∅ \/ power_pellets (maze g) ≠ ∅ -> round_clear g = g.
Proof.
  intros H. unfold round_clear.
  destruct H as [H | H]; rewrite (bool_decide_eq_false_2 _ H);
    [|rewrite andb_false_r]; reflexivity.
Qed.

(** ** Collisions *)

Lemma respawn_ghosts_spec (starts : list Cell) (gs : list Ghost) :
  forall i gs', respawn_ghosts starts i gs = Some gs' ->
  List.length gs' = List.length gs
  /\ forall j gh', gs' !! j = Some gh' ->
       exists gh, gs !! j = Some gh /\ respawned starts (i + j) gh gh'.
Proof.
  induction gs as [|gh rest IH]; intros i gs' H; simpl in H.
  - inversion H; subst. split; [reflexivity|]. intros j gh' Hj. discriminate.
  - destruct (respawn_ghost starts i gh) as [gh1|] eqn:H1; [|discriminate].
    destruct (respawn_ghosts starts (S i) rest) as [rest1|] eqn:H2; [|discriminate].
    simpl in H. inversion H; subst. destruct (IH _ _ H2) as [Hlen Hrest].
    split; [simpl; congruence|].
    intros [|j] gh' Hj; simpl in Hj.
    + inversion Hj; subst. exists gh. split; [reflexivity|].
      unfold respawn_ghost in H1.
      destruct (starts !! (i mod List.length starts)%nat) as [st|] eqn:Hst;
        [|discriminate].
      simpl in H1. inversion H1; subst. exists st.
      replace (i + 0)%nat with i by lia. split; [exact Hst | reflexivity].
    + destruct (Hrest _ _ Hj) as (gh0 & Hgh0 & Hr). exists gh0.
      split; [exact Hgh0|]. replace (i + S j)%nat with (S i + j)%nat by lia. exact Hr.
Qed.

Lemma respawn_ghosts_total (starts : list Cell) (gs : list Ghost) :
  starts ≠ [] -> forall i, is_Some (respawn_ghosts starts i gs).
Proof.
  intros Hne. induction gs as [|gh rest IH]; intros i; cbn [respawn_ghosts];
    [eexists; reflexivity|].
  assert (Hlt : (i mod List.length starts < List.length starts)%nat).
  { apply Nat.mod_upper_bound. destruct starts; [congruence | simpl; lia]. }
  apply lookup_lt_is_Some_2 in Hlt. destruct Hlt as [st Hst].
  unfold respawn_ghost. rewrite Hst. cbn [mbind option_bind].
  destruct (IH (S i)) as [rest' Hrest]. rewrite Hrest. eexists; reflexivity.
Qed.

Lemma respawn_ghosts_flags (starts : list Cell) (gs : list Ghost) :
  forall i gs', respawn_ghosts starts i gs = Some gs' ->
  Forall (fun gh => frightened gh = false /\ eaten gh = false) gs'.
Proof.
  intros i gs' H. destruct (respawn_ghosts_spec _ _ _ _ H) as [_ Hspec].
  apply Forall_lookup. intros j gh' Hj.
  destruct (Hspec _ _ Hj) as (gh & _ & st & _ & ->). split; reflexivity.
Qed.





(** A frightened ghost caught on its own home cell: the first loop makes it
    retreating, and the revive loop of the same call makes it normal again. *)
Example capture_at_home_revives :
  let gh := mkGhost (mkEntity 13 12 (1, 0) (36 # 10)) RED (6 # 1) true false (13, 12) in
  let g := mkGame Maze_init (mkPlayer (mkEntity 13 (119 # 10) (0, 1) (8 # 1)) (0, 1) 3 0)
             [gh] STATE_POWER (5 # 1) in
  collide 13 12 0 g
  = Some (mkGame Maze_init (add_score (player g) 200) [set_flags gh false true]
            STATE_POWER (5 # 1), false)
  /\ handle_collisions g
     = Some (mkGame Maze_init (add_score (player g) 200) [set_flags gh false false]
               STATE_POWER (5 # 1)).
Proof. split; reflexivity. Qed.

Lemma collisions_loop_inv (P : Game -> Prop) (pc pr : Z) :
  (forall i g g' b, P g -> collide pc pr i g = Some (g', b) -> P g') ->
  forall idx g g', P g -> collisions_loop pc pr idx g = Some g' -> P g'.
Proof.
  intros Hstep idx. induction idx as [|i rest IH]; intros g g' HP H; simpl in H.
  - inversion H; subst. exact HP.
  - destruct (collide pc pr i g) as [[g1 [|]]|] eqn:Hc; [| |discriminate].
    + inversion H; subst. eapply Hstep; eassumption.
    + eapply IH; [|exact H]. eapply Hstep; eassumption.
Qed.

Lemma collide_maze (pc pr : Z) (i : nat) (g g' : Game) (b : bool) :
  collide pc pr i g = Some (g', b) -> maze g' = maze g.
Proof.
  intros H. unfold collide in H.
  destruct (ghosts g !! i) as [gh|]; [|inversion H; reflexivity].
  destruct (_ && _); [|inversion H; reflexivity].
  destruct (_ && _); [inversion H; reflexivity|].
  destruct (negb _); [|inversion H; reflexivity].
  unfold lose_life_and_reset_positions in H.
  destruct (respawn_ghosts _ _ _); [|discriminate]. inversion H. reflexivity.
Qed.

Lemma collide_total (pc pr : Z) (i : nat) (g : Game) :
  ghost_starts (maze g) ≠ [] -> is_Some (collide pc pr i g).
Proof.
  intros Hne. unfold collide.
  destruct (ghosts g !! i) as [gh|]; [|eexists; reflexivity].
  destruct (_ && _); [|eexists; reflexivity].
  destruct (_ && _); [eexists; reflexivity|].
  destruct (negb _); [|eexists; reflexivity].
  unfold lose_life_and_reset_positions.
  destruct (respawn_ghosts_total _ (ghosts g) Hne 0%nat) as [gs' Hgs].
  rewrite Hgs. eexists; reflexivity.
Qed.

Lemma collisions_loop_total (pc pr : Z) (idx : list nat) :
  forall g, ghost_starts (maze g) ≠ [] -> is_Some (collisions_loop pc pr idx g).
Proof.
  induction idx as [|i rest IH]; intros g Hne; simpl; [eexists; reflexivity|].
  destruct (collide_total pc pr i g Hne) as [[g1 b] Hc]. rewrite Hc.
  destruct b; [eexists; reflexivity|].
  apply IH. rewrite (collide_maze _ _ _ _ _ _ Hc). exact Hne.
Qed.

Lemma handle_collisions_maze (g g' : Game) :
  handle_collisions g = Some g' -> maze g' = maze g.
Proof.
  unfold handle_collisions. intros H.
  destruct (collisions_loop _ _ _ g) as [g1|] eqn:Hl; [|discriminate].
  simpl in H. inversion H; subst. cbn [maze].
  eapply (collisions_loop_inv (fun x => maze x = maze g)); [|reflexivity|exact Hl].
  intros i x x' b Hx Hc. rewrite (collide_maze _ _ _ _ _ _ Hc). exact Hx.
Qed.

Lemma handle_collisions_total (g : Game) :
  ghost_starts (maze g) ≠ [] -> is_Some (handle_collisions g).
Proof.
  intros Hne. unfold handle_collisions.
  destruct (collisions_loop_total (py_round (col (p_ent (player g))))
              (py_round (row (p_ent (player g))))
              (seq 0 (List.length (ghosts g))) g Hne) as [g1 Hl].
  rewrite Hl. eexists; reflexivity.
Qed.

(** *** The whole of [handle_collisions] *)

Lemma add_score_0 (g : Game) :
  mkGame (maze g) (add_score (player g) 0) (ghosts g) (state g) (power_timer g) = g.
Proof.
  destruct g as [m [pe nd lv sc] gs st tm]. unfold add_score. simpl.
  rewrite Z.add_0_r. reflexivity.
Qed.

Lemma collide_harmless (pc pr : Z) (i : nat) (g : Game) (gh : Ghost) :
  ghosts g !! i = Some gh ->
  deadly pc pr gh = false ->
  collide pc pr i g
  = Some (mkGame (maze g)
            (add_score (player g) (if edible pc pr gh then 200 else 0))
            (<[ i := eat_ghost pc pr gh ]> (ghosts g)) (state g) (power_timer g),
          false).
Proof.
  intros Hi Hd. unfold collide, eat_ghost. rewrite Hi.
  unfold deadly in Hd. unfold edible. fold (on_cell pc pr gh).
  destruct (on_cell pc pr gh) eqn:Hon; cbn [andb] in *.
  - destruct (frightened gh) eqn:Hf, (eaten gh) eqn:He; cbn [andb negb] in *;
      try discriminate; try reflexivity;
      rewrite (list_insert_id _ _ _ Hi), add_score_0; reflexivity.
  - rewrite (list_insert_id _ _ _ Hi), add_score_0. reflexivity.
Qed.

Lemma collide_deadly (pc pr : Z) (i : nat) (g : Game) (gh : Ghost) :
  ghosts g !! i = Some gh ->
  deadly pc pr gh = true ->
  collide pc pr i g = g' ← lose_life_and_reset_positions g; Some (g', true).
Proof.
  intros Hi Hd. unfold collide. rewrite Hi. unfold deadly in Hd.
  fold (on_cell pc pr gh).
  destruct (on_cell pc pr gh), (frightened gh), (eaten gh); try discriminate. reflexivity.
Qed.

Lemma count_edible_cons (pc pr : Z) (gh : Ghost) (gs : list Ghost) :
  count_edible pc pr (gh :: gs)
  = (if edible pc pr gh then 1 else 0) + count_edible pc pr gs.
Proof.
  unfold count_edible. simpl. destruct (edible pc pr gh); simpl List.length; lia.
Qed.

(** The first loop over a stretch of ghosts none of which costs a life: the
    edible ones are eaten, 200 points each. *)
Lemma collisions_loop_eats (pc pr : Z) (mid : list Ghost) :
  forall (done rest : list Ghost) (idx : list nat) (g : Game),
    ghosts g = done ++ mid ++ rest ->
    Forall (fun gh => deadly pc pr gh = false) mid ->
    collisions_loop pc pr (seq (List.length done) (List.length mid) ++ idx) g
    = collisions_loop pc pr idx
        (mkGame (maze g) (add_score (player g) (200 * count_edible pc pr mid))
           (done ++ map (eat_ghost pc pr) mid ++ rest) (state g) (power_timer g)).
Proof.
  induction mid as [|gh mid IH]; intros done rest idx g Hg Hmid.
  - simpl in Hg |- *. rewrite <- Hg. change (200 * count_edible pc pr []) with 0.
    rewrite add_score_0. reflexivity.
  - apply Forall_cons in Hmid. destruct Hmid as [Hgh Hmid].
    assert (Hi : ghosts g !! List.length done = Some gh).
    { rewrite Hg. apply list_lookup_middle. reflexivity. }
    cbn [List.length seq app collisions_loop].
    rewrite (collide_harmless _ _ _ _ _ Hi Hgh).
    assert (Hins : <[List.length done := eat_ghost pc pr gh]> (ghosts g)
                   = (done ++ [eat_ghost pc pr gh]) ++ mid ++ rest).
    { rewrite Hg. rewrite insert_app_r_alt by lia.
      rewrite Nat.sub_diag. simpl. rewrite <- app_assoc. reflexivity. }
    specialize (IH (done ++ [eat_ghost pc pr gh]) rest idx
                  (mkGame (maze g)
                     (add_score (player g) (if edible pc pr gh then 200 else 0))
                     (<[List.length done := eat_ghost pc pr gh]> (ghosts g))
                     (state g) (power_timer g)) Hins Hmid).
    rewrite length_app in IH. simpl List.length in IH.
    rewrite Nat.add_1_r in IH. rewrite IH.
    cbn [maze player state power_timer]. f_equal. f_equal.
    + unfold add_score. cbn [p_ent next_dir lives score]. f_equal.
      rewrite count_edible_cons. destruct (edible pc pr gh); lia.
    + rewrite <- app_assoc. reflexivity.
Qed.

Lemma first_deadly (pc pr : Z) (gs : list Ghost) :
  forall i gh,
    gs !! i = Some gh -> deadly pc pr gh = true ->
    exists pre ghk post,
      gs = pre ++ ghk :: post
      /\ Forall (fun x => deadly pc pr x = false) pre
      /\ deadly pc pr ghk = true
      /\ (List.length pre <= i)%nat.
Proof.
  induction gs as [|a gs IH]; intros i gh Hi Hd; [discriminate|].
  destruct (deadly pc pr a) eqn:Ha.
  - exists [], a, gs. repeat split; [constructor | exact Ha | simpl; lia].
  - destruct i as [|i]; [simpl in Hi; congruence|]. simpl in Hi.
    destruct (IH _ _ Hi Hd) as (pre & ghk & post & -> & Hpre & Hk & Hle).
    exists (a :: pre), ghk, post. repeat split; [constructor; assumption | exact Hk | simpl; lia].
Qed.

Lemma on_cell_spec (pc pr : Z) (gh : Ghost) :
  on_cell pc pr gh = true <-> entity_cell (g_ent gh) = (pc, pr).
Proof.
  unfold on_cell, entity_cell. rewrite andb_true_iff, !Z.eqb_eq.
  split; [intros [-> ->]; reflexivity | intros H; injection H as <- <-; auto].
Qed.

Lemma revive_eaten (gh : Ghost) :
  (entity_cell (g_ent gh) <> home gh ->
   revive_ghost (set_flags gh false true) = set_flags gh false true)
  /\ (entity_cell (g_ent gh) = home gh ->
      revive_ghost (set_flags gh false true) = set_flags gh false false).
Proof.
  unfold revive_ghost, entity_cell. cbn [set_flags eaten g_ent home andb].
  destruct (home gh) as [hc hr]. cbn [fst snd].
  destruct (Z.eqb_spec (py_round (col (g_ent gh))) hc) as [Hc | Hc],
           (Z.eqb_spec (py_round (row (g_ent gh))) hr) as [Hr | Hr]; cbn [andb];
    split; intros H; try reflexivity; try congruence.
Qed.

(** C6 (amended): when no ghost that is neither frightened nor eaten stands
    on the player's rounded cell, [handle_collisions] returns with the lives
    as they were and the score higher by exactly 200 for each ghost that is
    frightened, not eaten and on the player's cell; each of those ghosts has
    its frightened flag cleared and is retreating, unless it was caught on
    its own home cell, where the revive loop of the same call makes it normal
    again; every other ghost is at most revived, and position, mode, timer
    and maze stay. *)
Theorem handle_collisions_eats (g : Game) :
  let pc := py_round (col (p_ent (player g))) in
  let pr := py_round (row (p_ent (player g))) in
  (forall gh, gh ∈ ghosts g -> entity_cell (g_ent gh) = (pc, pr) ->
     frightened gh = true \/ eaten gh = true) ->
  exists g',
    handle_collisions g = Some g'
    /\ score (player g') = score (player g) + 200 * count_edible pc pr (ghosts g)
    /\ lives (player g') = lives (player g)
    /\ p_ent (player g') = p_ent (player g)
    /\ state g' = state g
    /\ power_timer g' = power_timer g
    /\ maze g' = maze g
    /\ List.length (ghosts g') = List.length (ghosts g)
    /\ (forall i gh,
          ghosts g !! i = Some gh ->
          frightened gh = true -> eaten gh = false ->
          entity_cell (g_ent gh) = (pc, pr) ->
          exists gh',
            ghosts g' !! i = Some gh'
            /\ frightened gh' = false
            /\ g_ent gh' = g_ent gh
            /\ (entity_cell (g_ent gh) <> home gh -> eaten gh' = true)
            /\ (entity_cell (g_ent gh) = home gh -> eaten gh' = false))
    /\ (forall i gh,
          ghosts g !! i = Some gh ->
          edible pc pr gh = false ->
          ghosts g' !! i = Some (revive_ghost gh)).
Proof.
  cbv zeta. set (pc := py_round (col (p_ent (player g)))).
  set (pr := py_round (row (p_ent (player g)))). intros Hno.
  assert (Hall : Forall (fun gh => deadly pc pr gh = false) (ghosts g)).
  { apply Forall_forall. intros gh Hin. unfold deadly.
    destruct (on_cell pc pr gh) eqn:Hon; [|reflexivity].
    apply on_cell_spec in Hon. destruct (Hno gh Hin Hon) as [-> | ->];
      [reflexivity | apply andb_false_r]. }
  pose proof (collisions_loop_eats pc pr (ghosts g) [] [] [] g) as Hloop.
  rewrite !app_nil_r in Hloop. specialize (Hloop eq_refl Hall).
  cbn [List.length app collisions_loop] in Hloop.
  unfold handle_collisions. fold pc pr. rewrite Hloop. cbn [mbind option_bind].
  eexists. split; [reflexivity|].
  cbn [player score add_score lives p_ent state power_timer maze ghosts].
  split; [reflexivity|]. do 5 (split; [reflexivity|]).
  split; [rewrite !length_map; reflexivity|]. split.
  - intros i gh Hi Hf He Hcell.
    assert (Hed : edible pc pr gh = true).
    { unfold edible. rewrite (proj2 (on_cell_spec pc pr gh) Hcell), Hf, He. reflexivity. }
    exists (revive_ghost (set_flags gh false true)). split.
    { rewrite !list_lookup_fmap, Hi. cbn [fmap option_fmap option_map].
      unfold eat_ghost. rewrite Hed. reflexivity. }
    destruct (revive_eaten gh) as [Hne Heq].
    destruct (decide (entity_cell (g_ent gh) = home gh)) as [Hh | Hh].
    + rewrite (Heq Hh). repeat split; [intros Hc; contradiction].
    + rewrite (Hne Hh). repeat split. intros Hc; contradiction.
  - intros i gh Hi Hed. rewrite !list_lookup_fmap, Hi.
    cbn [fmap option_fmap option_map]. unfold eat_ghost. rewrite Hed. reflexivity.
Qed.

(** C7: when a ghost that is neither frightened nor eaten stands on the
    player's rounded cell, [handle_collisions] takes exactly one life, puts
    the player and every ghost on their start cells with direction (0, 0)
    and both ghost flags cleared, and sets the mode to PLAYING and the timer
    to 0.  The loop stops at the first such ghost, index [k]: the score has
    grown by 200 for each ghost eaten before it, and no ghost after it is
    looked at, so that a second ghost of this kind costs nothing more. *)
Theorem handle_collisions_life_lost (i : nat) (g : Game) (gh : Ghost) :
  let pc := py_round (col (p_ent (player g))) in
  let pr := py_round (row (p_ent (player g))) in
  ghosts g !! i = Some gh ->
  frightened gh = false ->
  eaten gh = false ->
  entity_cell (g_ent gh) = (pc, pr) ->
  ghost_starts (maze g) ≠ [] ->
  exists g' k,
    handle_collisions g = Some g'
    /\ lives (player g') = lives (player g) - 1
    /\ col (p_ent (player g')) = float (fst (player_start (maze g)))
    /\ row (p_ent (player g')) = float (snd (player_start (maze g)))
    /\ dir (p_ent (player g')) = (0, 0)
    /\ List.length (ghosts g') = List.length (ghosts g)
    /\ (forall j ghj', ghosts g' !! j = Some ghj' ->
        exists start,
          ghost_starts (maze g) !! (j mod List.length (ghost_starts (maze g)))%nat
          = Some start
          /\ col (g_ent ghj') = float (fst start)
          /\ row (g_ent ghj') = float (snd start)
          /\ dir (g_ent ghj') = (0, 0)
          /\ frightened ghj' = false
          /\ eaten ghj' = false)
    /\ state g' = STATE_PLAYING
    /\ power_timer g' = 0%Q
    /\ maze g' = maze g
    /\ (k <= i)%nat
    /\ (exists ghk, ghosts g !! k = Some ghk /\ deadly pc pr ghk = true)
    /\ (forall j ghj, (j < k)%nat -> ghosts g !! j = Some ghj -> deadly pc pr ghj = false)
    /\ score (player g') = score (player g) + 200 * count_edible pc pr (take k (ghosts g)).
Proof.
  cbv zeta. set (pc := py_round (col (p_ent (player g)))).
  set (pr := py_round (row (p_ent (player g)))). intros Hi Hf He Hcell Hstarts.
  assert (Hd : deadly pc pr gh = true).
  { unfold deadly. rewrite (proj2 (on_cell_spec pc pr gh) Hcell), Hf, He. reflexivity. }
  destruct (first_deadly pc pr (ghosts g) i gh Hi Hd)
    as (pre & ghk & post & Hg & Hpre & Hk & Hle).
  set (g1 := mkGame (maze g) (add_score (player g) (200 * count_edible pc pr pre))
               ([] ++ map (eat_ghost pc pr) pre ++ ghk :: post) (state g) (power_timer g)).
  assert (Hseq : seq 0 (List.length (ghosts g))
                 = seq (List.length (@nil Ghost)) (List.length pre)
                   ++ List.length pre :: seq (S (List.length pre)) (List.length post)).
  { rewrite Hg, length_app. cbn [List.length]. rewrite seq_app. reflexivity. }
  assert (Hloop : collisions_loop pc pr (seq 0 (List.length (ghosts g))) g
                  = g' ← lose_life_and_reset_positions g1; Some g').
  { rewrite Hseq. rewrite (collisions_loop_eats pc pr pre [] (ghk :: post) _ g Hg Hpre).
    fold g1. cbn [collisions_loop].
    assert (Hk1 : ghosts g1 !! List.length pre = Some ghk).
    { unfold g1. cbn [ghosts app].
      rewrite <- (length_map (eat_ghost pc pr) pre). apply list_lookup_middle. reflexivity. }
    rewrite (collide_deadly _ _ _ _ _ Hk1 Hk).
    destruct (lose_life_and_reset_positions g1); reflexivity. }
  destruct (respawn_ghosts_total _ (ghosts g1) Hstarts 0%nat) as [gs' Hgs].
  assert (Hlose : lose_life_and_reset_positions g1
                  = Some (mkGame (maze g)
                            (mkPlayer
                               (mkEntity (float (fst (player_start (maze g))))
                                  (float (snd (player_start (maze g)))) (0, 0)
                                  (speed (p_ent (player g))))
                               (next_dir (player g)) (lives (player g) - 1)
                               (score (player g) + 200 * count_edible pc pr pre))
                            gs' STATE_PLAYING 0%Q)).
  { unfold lose_life_and_reset_positions. cbn [maze g1] in Hgs |- *. rewrite Hgs. reflexivity. }
  destruct (respawn_ghosts_spec _ _ _ _ Hgs) as [Hlen Hspec].
  assert (Hrev : map revive_ghost gs' = gs').
  { rewrite <- (map_id gs') at 2. apply map_ext_Forall, Forall_lookup.
    intros j ghj' Hj. destruct (Hspec _ _ Hj) as (ghj & _ & st & _ & ->). reflexivity. }
  unfold handle_collisions. fold pc pr. rewrite Hloop, Hlose. cbn [mbind option_bind].
  cbn [player ghosts maze state power_timer]. rewrite Hrev.
  eexists _, (List.length pre). split; [reflexivity|].
  cbn [player ghosts maze state power_timer p_ent col row dir lives score].
  do 4 (split; [reflexivity|]). split.
  { rewrite Hlen. unfold g1. cbn [ghosts app]. rewrite Hg, !length_app, length_map. reflexivity. }
  split.
  { intros j ghj' Hj. destruct (Hspec _ _ Hj) as (ghj & _ & st & Hst & ->).
    exists st. cbn. repeat split. exact Hst. }
  do 3 (split; [reflexivity|]). split; [exact Hle|]. split.
  { exists ghk. split; [rewrite Hg; apply list_lookup_middle; reflexivity | exact Hk]. }
  split.
  { intros j ghj Hj Hlook. rewrite Hg, lookup_app_l in Hlook by exact Hj.
    rewrite Forall_lookup in Hpre. exact (Hpre _ _ Hlook). }
  rewrite Hg, take_app_length. reflexivity.
Qed.

(** C6, as the claim states it, fails for [handle_collisions]: with a
    normal ghost on the player's cell too, a frightened ghost on that cell is
    never looked at when it comes later in the list (no points, a life
    lost), and when it comes first the 200 points are followed by the loss
    of a life, after which it is not retreating. *)
Lemma capture_skipped_counterexample :
  let nrm := mkGhost (mkEntity (62 # 10) 5 (-1, 0) (6 # 1)) RED (6 # 1) false false (13, 12) in
  let fri := mkGhost (mkEntity 6 (51 # 10) (0, -1) (36 # 10)) PINK (6 # 1) true false (14, 12) in
  let p := mkPlayer (mkEntity 6 5 (1, 0) (8 # 1)) (1, 0) 3 120 in
  entity_cell (g_ent fri) = entity_cell (p_ent p)
  /\ entity_cell (g_ent nrm) = entity_cell (p_ent p)
  /\ match handle_collisions (mkGame Maze_init p [nrm; fri] STATE_POWER (5 # 1)) with
     | Some g' =>
         score (player g') = 120
         /\ lives (player g') = 2
         /\ map eaten (ghosts g') = [false; false]
     | None => False
     end
  /\ match handle_collisions (mkGame Maze_init p [fri; nrm] STATE_POWER (5 # 1)) with
     | Some g' =>
         score (player g') = 320
         /\ lives (player g') = 2
         /\ map eaten (ghosts g') = [false; false]
     | None => False
     end.
Proof.
  cbv zeta. split; [vm_compute; reflexivity|]. split; [vm_compute; reflexivity|].
  split; vm_compute; repeat split.
Qed.

Lemma handle_collisions_eats_witness :
  let a := mkGhost (mkEntity (142 # 10) 12 (-1, 0) (36 # 10)) RED (6 # 1) true false (13, 12) in
  let b := mkGhost (mkEntity 14 12 (0, 0) (36 # 10)) PINK (6 # 1) true false (14, 12) in
  let c := mkGhost (mkEntity 6 5 (1, 0) (6 # 1)) CYAN (6 # 1) false false (13, 12) in
  let g := mkGame Maze_init (mkPlayer (mkEntity 14 (119 # 10) (0, 1) (8 # 1)) (0, 1) 3 120)
             [a; b; c] STATE_POWER (5 # 1) in
  exists g' a' b',
    handle_collisions g = Some g'
    /\ score (player g') = 520
    /\ lives (player g') = 3
    /\ ghosts g' !! 0%nat = Some a' /\ frightened a' = false /\ eaten a' = true
    /\ ghosts g' !! 1%nat = Some b' /\ frightened b' = false /\ eaten b' = false
    /\ ghosts g' !! 2%nat = Some c.
Proof.
  cbv zeta.
  destruct (handle_collisions_eats
    (mkGame Maze_init (mkPlayer (mkEntity 14 (119 # 10) (0, 1) (8 # 1)) (0, 1) 3 120)
       [mkGhost (mkEntity (142 # 10) 12 (-1, 0) (36 # 10)) RED (6 # 1) true false (13, 12);
        mkGhost (mkEntity 14 12 (0, 0) (36 # 10)) PINK (6 # 1) true false (14, 12);
        mkGhost (mkEntity 6 5 (1, 0) (6 # 1)) CYAN (6 # 1) false false (13, 12)]
       STATE_POWER (5 # 1)))
    as (g' & Hc & Hs & Hl & _ & _ & _ & _ & _ & Hfri & Hother).
  { intros gh Hin Hcell. cbn [ghosts] in Hin.
    repeat (apply elem_of_cons in Hin; destruct Hin as [-> | Hin]);
      [left; reflexivity | left; reflexivity | vm_compute in Hcell; discriminate |].
    apply elem_of_nil in Hin. contradiction. }
  destruct (Hfri 0%nat _ eq_refl eq_refl eq_refl eq_refl) as (a' & Ha & Hfa & _ & Hea & _).
  destruct (Hfri 1%nat _ eq_refl eq_refl eq_refl eq_refl) as (b' & Hb & Hfb & _ & _ & Heb).
  exists g', a', b'. split; [exact Hc|]. split; [rewrite Hs; reflexivity|].
  split; [exact Hl|]. split; [exact Ha|]. split; [exact Hfa|].
  split; [apply Hea; vm_compute; discriminate|].
  split; [exact Hb|]. split; [exact Hfb|]. split; [apply Heb; reflexivity|].
  exact (Hother 2%nat _ eq_refl eq_refl).
Defined.

Lemma handle_collisions_life_lost_witness :
  let fri := mkGhost (mkEntity 6 (51 # 10) (0, -1) (36 # 10)) PINK (6 # 1) true false (14, 12) in
  let nrm := mkGhost (mkEntity (62 # 10) 5 (-1, 0) (6 # 1)) RED (6 # 1) false false (13, 12) in
  let g := mkGame Maze_init (mkPlayer (mkEntity 6 5 (1, 0) (8 # 1)) (1, 0) 3 120)
             [fri; nrm; fri; nrm] STATE_POWER (5 # 1) in
  exists g',
    handle_collisions g = Some g'
    /\ lives (player g') = 2
    /\ score (player g') = 320
    /\ state g' = STATE_PLAYING
    /\ List.length (ghosts g') = 4%nat.
Proof.
  cbv zeta.
  destruct (handle_collisions_life_lost 3
    (mkGame Maze_init (mkPlayer (mkEntity 6 5 (1, 0) (8 # 1)) (1, 0) 3 120)
       [mkGhost (mkEntity 6 (51 # 10) (0, -1) (36 # 10)) PINK (6 # 1) true false (14, 12);
        mkGhost (mkEntity (62 # 10) 5 (-1, 0) (6 # 1)) RED (6 # 1) false false (13, 12);
        mkGhost (mkEntity 6 (51 # 10) (0, -1) (36 # 10)) PINK (6 # 1) true false (14, 12);
        mkGhost (mkEntity (62 # 10) 5 (-1, 0) (6 # 1)) RED (6 # 1) false false (13, 12)]
       STATE_POWER (5 # 1))
    (mkGhost (mkEntity (62 # 10) 5 (-1, 0) (6 # 1)) RED (6 # 1) false false (13, 12))
    ltac:(reflexivity) ltac:(reflexivity) ltac:(reflexivity) ltac:(reflexivity)
    ltac:(vm_compute; discriminate))
    as (g' & k & Hc & Hl & _ & _ & _ & Hlen & _ & Hst & _ & _ & Hk & (ghk & Hghk & Hd) & Hfirst & Hs).
  exists g'. split; [exact Hc|]. split; [exact Hl|]. split; [|split; [exact Hst | exact Hlen]].
  rewrite Hs.
  destruct k as [|[|k]].
  - cbn in Hghk. injection Hghk as <-. vm_compute in Hd. discriminate.
  - reflexivity.
  - exfalso. pose proof (Hfirst 1%nat _ ltac:(lia) eq_refl) as Hn.
    vm_compute in Hn. discriminate.
Defined.

(** ** The two ghost flags *)

Lemma Forall_same_flags (P : Ghost -> Prop) (gs gs' : list Ghost) :
  (forall gh gh', same_flags gh gh' -> P gh -> P gh') ->
  Forall2 same_flags gs gs' -> Forall P gs -> Forall P gs'.
Proof.
  intros HP H2. induction H2 as [|gh gh' gs gs' Hs _ IH]; intros HF; [constructor|].
  inversion HF; subst. constructor; [eapply HP; eassumption | apply IH; assumption].
Qed.

Lemma fresh_ghosts (b : bool) (g : Game) :
  ghosts (reset_level b g) = [Ghost_init 13 12 RED; Ghost_init 14 12 PINK].
Proof. vm_compute. reflexivity. Qed.

Lemma reset_level_flags_ok (b : bool) (g : Game) :
  Forall flags_ok (ghosts (reset_level b g)).
Proof. rewrite fresh_ghosts. repeat constructor. Qed.

Lemma set_power_mode_flags_ok (g : Game) :
  Forall flags_ok (ghosts g) -> Forall flags_ok (ghosts (set_power_mode g)).
Proof.
  intros H. unfold set_power_mode. cbn [ghosts].
  apply List.Forall_map. eapply Forall_impl; [exact H|].
  intros gh Hok. unfold flags_ok in *. destruct (eaten gh) eqn:He; simpl.
  - rewrite He. exact Hok.
  - reflexivity.
Qed.

Lemma collide_flags_ok (pc pr : Z) (i : nat) (g g' : Game) (b : bool) :
  Forall flags_ok (ghosts g) -> collide pc pr i g = Some (g', b) ->
  Forall flags_ok (ghosts g').
Proof.
  intros Hok H. unfold collide in H.
  destruct (ghosts g !! i) as [gh|] eqn:Hi; [|inversion H; subst; exact Hok].
  destruct ((pc =? _) && (pr =? _)); [|inversion H; subst; exact Hok].
  destruct (frightened gh && negb (eaten gh)).
  - inversion H; subst. cbn [ghosts]. apply Forall_insert; [exact Hok | reflexivity].
  - destruct (negb (eaten gh)); [|inversion H; subst; exact Hok].
    unfold lose_life_and_reset_positions in H.
    destruct (respawn_ghosts _ _ _) as [gs'|] eqn:Hgs; [|discriminate].
    simpl in H. inversion H; subst. cbn [ghosts].
    eapply Forall_impl; [eapply respawn_ghosts_flags, Hgs|].
    intros gh' [Hf He]. unfold flags_ok. rewrite Hf. reflexivity.
Qed.

Lemma handle_collisions_flags_ok (g g' : Game) :
  Forall flags_ok (ghosts g) -> handle_collisions g = Some g' ->
  Forall flags_ok (ghosts g').
Proof.
  intros Hok H. unfold handle_collisions in H.
  destruct (collisions_loop _ _ _ g) as [g1|] eqn:Hl; [|discriminate].
  simpl in H. inversion H; subst. cbn [ghosts].
  apply List.Forall_map.
  eapply Forall_impl;
    [eapply (collisions_loop_inv (fun x => Forall flags_ok (ghosts x)));
       [intros; eapply collide_flags_ok; eassumption | exact Hok | exact Hl]|].
  intros gh Hgh. unfold revive_ghost. destruct (_ && _); [reflexivity | exact Hgh].
Qed.

Lemma end_phase_flags_ok (dt : Q) (g : Game) :
  Forall flags_ok (ghosts g) -> Forall flags_ok (ghosts (end_phase dt g)).
Proof.
  intros Hok. unfold end_phase.
  assert (H1 : Forall flags_ok (ghosts (round_clear g))).
  { unfold round_clear. destruct (_ && _); [|exact Hok].
    cbn [ghosts]. apply reset_level_flags_ok. }
  assert (H2 : Forall flags_ok (ghosts (check_game_over (round_clear g)))).
  { unfold check_game_over. destruct (_ <=? _); exact H1. }
  unfold update_power_timer. destruct (state _); try exact H2.
  destruct (Qle_bool _ _); [|exact H2]. cbn [ghosts].
  apply List.Forall_map, Forall_true. intros gh. reflexivity.
Qed.

Lemma set_power_mode_ghosts (g : Game) :
  ghosts (set_power_mode g) = map frighten (ghosts g).
Proof.
  unfold set_power_mode. cbn [ghosts]. apply map_ext. intros gh.
  unfold frighten. destruct (eaten gh); reflexivity.
Qed.

Lemma frighten_armed (gs : list Ghost) : Forall armed (map frighten gs).
Proof.
  apply List.Forall_map, Forall_true. intros gh. unfold armed, frighten.
  destruct (eaten gh) eqn:He; simpl; [rewrite He; apply orb_true_r | reflexivity].
Qed.

Lemma collide_armed (pc pr : Z) (i : nat) (g : Game) :
  Forall armed (ghosts g) ->
  exists g',
    collide pc pr i g = Some (g', false)
    /\ Forall armed (ghosts g') /\ keeps_round g g'.
Proof.
  intros Harm. unfold collide, keeps_round.
  destruct (ghosts g !! i) as [gh|] eqn:Hi;
    [|eexists; repeat split; (assumption || lia)].
  destruct ((pc =? _) && (pr =? _));
    [|eexists; repeat split; (assumption || lia)].
  pose proof (proj1 (Forall_lookup _ _) Harm _ _ Hi) as Hgh. unfold armed in Hgh.
  destruct (frightened gh) eqn:Hf, (eaten gh) eqn:He; simpl in Hgh |- *;
    try discriminate; eexists; (split; [reflexivity|]);
    cbn [ghosts state power_timer maze player add_score lives score];
    repeat split; try assumption; try lia.
  apply Forall_insert; [exact Harm | reflexivity].
Qed.

Lemma collisions_loop_armed (pc pr : Z) (idx : list nat) :
  forall g,
    Forall armed (ghosts g) ->
    exists g',
      collisions_loop pc pr idx g = Some g'
      /\ Forall armed (ghosts g') /\ keeps_round g g'.
Proof.
  induction idx as [|i rest IH]; intros g Harm; simpl.
  - exists g. unfold keeps_round. repeat split; (assumption || lia).
  - destruct (collide_armed pc pr i g Harm) as (g1 & Hc & Harm1 & Hk1).
    rewrite Hc. destruct (IH g1 Harm1) as (g2 & Hl & Harm2 & Hk2).
    exists g2. split; [exact Hl|]. split; [exact Harm2|].
    unfold keeps_round in *. destruct Hk1 as (? & ? & ? & ? & ?).
    destruct Hk2 as (? & ? & ? & ? & ?). repeat split; (congruence || lia).
Qed.

(** ** The maze along a tick *)

Lemma maze_shrunk_refl (m : Maze) : maze_shrunk m m.
Proof. repeat split; reflexivity. Qed.

Lemma Player_update_maze (p : Player) (m : Maze) (dt : Q) :
  maze_shrunk m (snd (fst (Player_update p m dt))).
Proof.
  unfold Player_update.
  destruct (bool_decide (_ ∈ pellets m)), (bool_decide (_ ∈ power_pellets m));
    cbn [fst snd]; repeat split; cbn [pellets power_pellets];
    first [reflexivity | apply subseteq_difference_l; reflexivity].
Qed.

Lemma end_phase_maze (dt : Q) (g : Game) :
  maze (end_phase dt g) = maze g \/ maze (end_phase dt g) = Maze_init.
Proof.
  unfold end_phase.
  assert (H1 : maze (round_clear g) = maze g \/ maze (round_clear g) = Maze_init).
  { unfold round_clear. destruct (_ && _); [right | left]; reflexivity. }
  assert (H2 : maze (check_game_over (round_clear g)) = maze (round_clear g)).
  { unfold check_game_over. destruct (_ <=? _); reflexivity. }
  assert (H3 : forall x, maze (update_power_timer dt x) = maze x).
  { intros x. unfold update_power_timer. destruct (state x); try reflexivity.
    destruct (Qle_bool _ _); reflexivity. }
  rewrite H3, H2. exact H1.
Qed.

(** ** A whole tick *)

Section Tick.

Variable RNG : Type.
Variable shuffle : RNG -> list Dir -> list Dir * RNG.

Lemma Ghost_update_same_flags (dt : Q) (ppos : Cell) (gh : Ghost) (r : RNG) :
  same_flags gh (fst (Ghost_update RNG shuffle dt ppos gh r)).
Proof.
  unfold Ghost_update.
  match goal with |- context [let '(e1, r1) := ?x in _] => destruct x as [e1 r1] end.
  split; reflexivity.
Qed.

Lemma update_ghosts_same_flags (dt : Q) (ppos : Cell) (gs : list Ghost) :
  forall r, Forall2 same_flags gs (fst (update_ghosts RNG shuffle dt ppos gs r)).
Proof.
  induction gs as [|gh rest IH]; intros r; simpl; [constructor|].
  pose proof (Ghost_update_same_flags dt ppos gh r) as Hg.
  destruct (Ghost_update RNG shuffle dt ppos gh r) as [gh' r1].
  specialize (IH r1). destruct (update_ghosts RNG shuffle dt ppos rest r1) as [rest' r2].
  simpl in *. constructor; assumption.
Qed.

Lemma update_ghosts_each (dt : Q) (ppos : Cell) (gs : list Ghost) :
  forall r,
    Forall2 (fun gh gh' => exists ri, gh' = fst (Ghost_update RNG shuffle dt ppos gh ri))
      gs (fst (update_ghosts RNG shuffle dt ppos gs r)).
Proof.
  induction gs as [|gh rest IH]; intros r; simpl; [constructor|].
  destruct (Ghost_update RNG shuffle dt ppos gh r) as [gh' r1] eqn:Hg.
  specialize (IH r1). destruct (update_ghosts RNG shuffle dt ppos rest r1) as [rest' r2].
  simpl in *. constructor; [|exact IH]. exists r. rewrite Hg. reflexivity.
Qed.

Lemma ghost_phase_unfold (dt : Q) (g : Game) (r : RNG) :
  ghost_phase RNG shuffle dt g r
  = (mkGame (maze g) (player g)
       (fst (update_ghosts RNG shuffle dt (entity_cell (p_ent (player g))) (ghosts g) r))
       (state g) (power_timer g),
     snd (update_ghosts RNG shuffle dt (entity_cell (p_ent (player g))) (ghosts g) r)).
Proof. unfold ghost_phase. destruct (update_ghosts _ _ _ _ _ _). reflexivity. Qed.

Lemma ghost_phase_same_flags (dt : Q) (g : Game) (r : RNG) :
  Forall2 same_flags (ghosts g) (ghosts (fst (ghost_phase RNG shuffle dt g r))).
Proof.
  unfold ghost_phase.
  pose proof (update_ghosts_same_flags dt (entity_cell (p_ent (player g)))
                (ghosts g) r) as H.
  destruct (update_ghosts _ _ _ _ _ _) as [gs r']. exact H.
Qed.

Lemma player_phase_flags_ok (pressed : Key -> bool) (dt : Q) (g : Game) :
  Forall flags_ok (ghosts g) ->
  Forall flags_ok (ghosts (player_phase pressed dt g)).
Proof.
  intros Hok. unfold player_phase.
  destruct (Player_update _ _ _) as [[p1 m1] [|]]; [|exact Hok].
  apply set_power_mode_flags_ok. exact Hok.
Qed.

Lemma update_flags_ok (pressed : Key -> bool) (dt : Q) (g g' : Game) (r r' : RNG) :
  Forall flags_ok (ghosts g) ->
  update RNG shuffle pressed dt g r = Some (g', r') ->
  Forall flags_ok (ghosts g').
Proof.
  intros Hok H. unfold update in H.
  pose proof (ghost_phase_same_flags dt (player_phase pressed dt g) r) as Hgp.
  destruct (ghost_phase _ _ _ _ _) as [g2 r2]. simpl in Hgp.
  destruct (handle_collisions g2) as [g3|] eqn:Hc; [|discriminate].
  simpl in H. inversion H; subst.
  apply end_phase_flags_ok. eapply handle_collisions_flags_ok; [|exact Hc].
  eapply Forall_same_flags; [|exact Hgp|apply player_phase_flags_ok, Hok].
  intros gh gh' [Hf He] Hgh. unfold flags_ok in *. rewrite Hf, He. exact Hgh.
Qed.

Lemma player_phase_maze (pressed : Key -> bool) (dt : Q) (g : Game) :
  maze_shrunk (maze g) (maze (player_phase pressed dt g)).
Proof.
  unfold player_phase.
  pose proof (Player_update_maze (handle_input pressed (player g)) (maze g) dt) as H.
  destruct (Player_update _ _ _) as [[p1 m1] [|]]; exact H.
Qed.

Lemma update_maze (pressed : Key -> bool) (dt : Q) (g g' : Game) (r r' : RNG) :
  update RNG shuffle pressed dt g r = Some (g', r') ->
  maze_shrunk (maze g) (maze g') \/ maze g' = Maze_init.
Proof.
  unfold update. rewrite ghost_phase_unfold. intros H.
  destruct (handle_collisions _) as [g3|] eqn:Hc; [|discriminate].
  simpl in H. inversion H; subst. apply handle_collisions_maze in Hc. cbn [maze] in Hc.
  destruct (end_phase_maze dt g3) as [He | He]; [left | right; exact He].
  rewrite He, Hc. apply player_phase_maze.
Qed.

(** A tick returns whenever the maze has a ghost start. *)
Lemma update_total (pressed : Key -> bool) (dt : Q) (g : Game) (r : RNG) :
  ghost_starts (maze g) ≠ [] -> is_Some (update RNG shuffle pressed dt g r).
Proof.
  intros Hne. unfold update. rewrite ghost_phase_unfold.
  match goal with |- context [handle_collisions ?x] =>
    destruct (handle_collisions_total x) as [g3 Hc] end.
  - cbn [maze]. destruct (player_phase_maze pressed dt g) as (_ & _ & _ & Hgs).
    rewrite Hgs. exact Hne.
  - rewrite Hc. eexists; reflexivity.
Qed.

(** In every reachable state the maze is the layout's maze with some
    pellets eaten: the two sets are disjoint and the starts are the layout's. *)
Lemma reachable_maze (g : Game) :
  reachable RNG shuffle g -> maze_shrunk Maze_init (maze g).
Proof.
  induction 1 as [|g pressed dt r g' r' _ IH _ Hup|g _ _ _].
  - apply maze_shrunk_refl.
  - destruct (update_maze _ _ _ _ _ _ Hup) as [(H1 & H2 & H3 & H4) | ->];
      [|apply maze_shrunk_refl].
    destruct IH as (I1 & I2 & I3 & I4).
    repeat split; [set_solver | set_solver | congruence | congruence].
  - apply maze_shrunk_refl.
Qed.

Lemma reachable_disjoint (g : Game) :
  reachable RNG shuffle g -> pellets (maze g) ## power_pellets (maze g).
Proof.
  intros Hr. destruct (reachable_maze g Hr) as (H1 & H2 & _).
  pose proof Maze_init_disjoint. set_solver.
Qed.

Lemma reachable_update_total (pressed : Key -> bool) (dt : Q) (g : Game) (r : RNG) :
  reachable RNG shuffle g -> is_Some (update RNG shuffle pressed dt g r).
Proof.
  intros Hr. apply update_total. destruct (reachable_maze g Hr) as (_ & _ & _ & ->).
  vm_compute. discriminate.
Qed.

(** C10: in every reachable state no ghost is frightened and eaten at
    once. *)
Theorem frightened_eaten_exclusive (g : Game) :
  reachable RNG shuffle g ->
  forall gh, gh ∈ ghosts g -> ~ (frightened gh = true /\ eaten gh = true).
Proof.
  intros Hr.
  assert (Hok : Forall flags_ok (ghosts g)).
  { induction Hr as [|g pressed dt r g' r' _ IH _ Hup|g _ _ _].
    - apply reset_level_flags_ok.
    - eapply update_flags_ok; eassumption.
    - apply reset_level_flags_ok. }
  intros gh Hin [Hf He]. rewrite Forall_forall in Hok.
  specialize (Hok gh Hin). unfold flags_ok in Hok. rewrite Hf, He in Hok.
  discriminate.
Qed.

(** C5 (amended): in the tick in which [Player.update] returns 'power',
    right after the power activation the mode is POWER, the timer is
    exactly 8, the score has grown by 50 and every ghost that was not eaten
    is frightened (an eaten one is untouched); the timer update that ends
    the tick then takes [dt] off: when the level is not cleared, the player
    has a life left and [dt] is below 8, the tick returns in mode POWER
    with the timer at 8 minus [dt] and no life lost. *)
Theorem power_pellet_activation (pressed : Key -> bool) (dt : Q) (g : Game) (r : RNG) :
  snd (Player_update (handle_input pressed (player g)) (maze g) dt) = true ->
  pellets (maze g) ## power_pellets (maze g) ->
  let g1 := player_phase pressed dt g in
  state g1 = STATE_POWER
  /\ power_timer g1 = POWER_DURATION
  /\ score (player g1) = score (player g) + 50
  /\ lives (player g1) = lives (player g)
  /\ ghosts g1 = map frighten (ghosts g)
  /\ (forall gh, gh ∈ ghosts g1 -> eaten gh = false -> frightened gh = true)
  /\ (0 < lives (player g) ->
      (dt < POWER_DURATION)%Q ->
      pellets (maze g1) ≠ ∅ \/ power_pellets (maze g1) ≠ ∅ ->
      exists g' r',
        update RNG shuffle pressed dt g r = Some (g', r')
        /\ state g' = STATE_POWER
        /\ power_timer g' = (POWER_DURATION - dt)%Q
        /\ lives (player g') = lives (player g)
        /\ score (player g) + 50 <= score (player g')).
Proof.
  intros Htrig Hdisj. cbv zeta.
  assert (Hg1 : exists p1 m1,
             player_phase pressed dt g
             = set_power_mode (mkGame m1 p1 (ghosts g) (state g) (power_timer g))
             /\ score p1 = score (player g) + 50
             /\ lives p1 = lives (player g)).
  { unfold player_phase. revert Htrig. unfold Player_update.
    set (p0 := handle_input pressed (player g)).
    set (cr := entity_cell (update_move (p_ent (Player_try_turn p0)) dt)).
    assert (Hsc : score (Player_try_turn p0) = score (player g)
                  /\ lives (Player_try_turn p0) = lives (player g)).
    { unfold Player_try_turn. destruct (_ && _); split; reflexivity. }
    destruct Hsc as [Hsc Hlv].
    destruct (bool_decide (cr ∈ power_pellets (maze g))) eqn:Hpow.
    2:{ destruct (bool_decide (cr ∈ pellets (maze g))); simpl; discriminate. }
    apply bool_decide_eq_true_1 in Hpow.
    assert (Hnp : cr ∉ pellets (maze g)) by (intros Hin; exact (Hdisj _ Hin Hpow)).
    rewrite (bool_decide_eq_false_2 _ Hnp). intros _.
    eexists _, _. split; [reflexivity|]. simpl. split; [lia | exact Hlv]. }
  destruct Hg1 as (p1 & m1 & Hg1 & Hsc & Hlv). rewrite Hg1.
  rewrite set_power_mode_ghosts. cbn [ghosts].
  assert (Harm : Forall armed (map frighten (ghosts g))) by apply frighten_armed.
  split; [reflexivity|]. split; [reflexivity|]. split; [exact Hsc|].
  split; [exact Hlv|]. split; [reflexivity|]. split.
  { intros gh Hin He. rewrite Forall_forall in Harm. specialize (Harm gh Hin).
    unfold armed in Harm. rewrite He, orb_false_r in Harm. exact Harm. }
  intros Hlives Hdt Hleft. unfold update. rewrite Hg1, ghost_phase_unfold.
  set (g1 := set_power_mode _) in *.
  set (gs := fst (update_ghosts RNG shuffle dt (entity_cell (p_ent (player g1)))
                    (ghosts g1) r)).
  set (g2 := mkGame (maze g1) (player g1) gs (state g1) (power_timer g1)).
  assert (Harm2 : Forall armed (ghosts g2)).
  { eapply Forall_same_flags;
      [|apply (update_ghosts_same_flags dt
                 (entity_cell (p_ent (player g1))) (ghosts g1) r)|].
    - intros gh gh' [Hf He] Hgh. unfold armed in *. rewrite Hf, He. exact Hgh.
    - unfold g1. rewrite set_power_mode_ghosts. exact Harm. }
  unfold handle_collisions.
  destruct (collisions_loop_armed (py_round (col (p_ent (player g2))))
              (py_round (row (p_ent (player g2))))
              (seq 0 (List.length (ghosts g2))) g2 Harm2)
    as (g3 & Hloop & _ & Hs & Ht & Hm & Hl & Hle).
  rewrite Hloop. cbn [mbind option_bind].
  eexists _, _. split; [reflexivity|].
  cbn [state power_timer maze player g2] in Hs, Ht, Hm, Hl, Hle.
  unfold end_phase.
  rewrite round_clear_idle by (cbn [maze]; rewrite Hm; exact Hleft).
  unfold check_game_over. cbn [player lives].
  assert (Hpos : (lives (player g3) <=? 0) = false)
    by (apply Z.leb_gt; rewrite Hl; unfold g1; simpl; lia).
  rewrite Hpos.
  rewrite power_timer_running.
  - cbn [state power_timer player lives score]. rewrite Ht.
    unfold g1 in *; simpl in *. repeat split; lia.
  - exact Hs.
  - cbn [power_timer]. rewrite Ht. unfold g1; simpl. lra.
Qed.


End Tick.

(** ** Ticks on a concrete random source *)

(** C5, as the claim states it, fails: the tick that eats the power
    pellet ends with the timer update, so the timer is 8 minus [dt] when
    the tick is over. *)
Lemma power_pellet_tick_counterexample :
  let g := mkGame Maze_init (mkPlayer (mkEntity 1 4 (0, -1) (8 # 1)) (0, -1) 3 0)
             (ghosts Game_init) STATE_PLAYING 0%Q in
  snd (Player_update (handle_input no_keys (player g)) (maze g) (1 # 8)) = true
  /\ match update nat rotate_shuffle no_keys (1 # 8) g 0%nat with
     | Some (g', _) =>
         state g' = STATE_POWER
         /\ score (player g') = 50
         /\ (power_timer g' == 63 # 8)%Q
         /\ ~ (power_timer g' == POWER_DURATION)%Q
     | None => False
     end.
Proof.
  cbv zeta. split; [vm_compute; reflexivity|].
  vm_compute. repeat split; discriminate.
Qed.

Lemma power_pellet_activation_witness :
  let g := mkGame Maze_init (mkPlayer (mkEntity 1 4 (0, -1) (8 # 1)) (0, -1) 3 0)
             (ghosts Game_init) STATE_PLAYING 0%Q in
  state (player_phase no_keys (1 # 8) g) = STATE_POWER
  /\ power_timer (player_phase no_keys (1 # 8) g) = POWER_DURATION
  /\ score (player (player_phase no_keys (1 # 8) g)) = 50
  /\ exists g' r',
       update nat rotate_shuffle no_keys (1 # 8) g 0%nat = Some (g', r')
       /\ state g' = STATE_POWER
       /\ power_timer g' = (POWER_DURATION - (1 # 8))%Q.
Proof.
  cbv zeta.
  pose proof (power_pellet_activation nat rotate_shuffle no_keys (1 # 8)
    (mkGame Maze_init (mkPlayer (mkEntity 1 4 (0, -1) (8 # 1)) (0, -1) 3 0)
       (ghosts Game_init) STATE_PLAYING 0%Q) 0%nat
    ltac:(vm_compute; reflexivity) Maze_init_disjoint)
    as (Hs & Ht & Hsc & _ & _ & _ & Hend).
  cbv zeta in Hend.
  split; [exact Hs|]. split; [exact Ht|]. split; [exact Hsc|].
  destruct (Hend ltac:(simpl; lia) ltac:(reflexivity)
              ltac:(left; apply (bool_decide_unpack _); vm_compute; exact I))
    as (g' & r' & Hup & Hs' & Ht' & _).
  exists g', r'. repeat split; assumption.
Defined.

(** Two players on different spots of one cell: the ghosts move alike. *)
Example snapshot_only :
  let gs := [mkGhost (mkEntity 6 8 (0, -1) (6 # 1)) RED (6 # 1) false false (13, 12)] in
  let g := mkGame Maze_init (mkPlayer (mkEntity 6 5 (1, 0) (8 # 1)) (1, 0) 3 0)
             gs STATE_PLAYING 0%Q in
  let h := mkGame Maze_init (mkPlayer (mkEntity (62 # 10) (49 # 10) (0, 1) (8 # 1)) (0, 1) 1 70)
             gs STATE_PLAYING 0%Q in
  ghosts (fst (ghost_phase nat rotate_shuffle (1 # 60) g 0%nat))
  = ghosts (fst (ghost_phase nat rotate_shuffle (1 # 60) h 0%nat)).
Proof. vm_compute. reflexivity. Qed.

(** * Further properties of the engine *)

(** ** Cells and snapping *)

(** X1: a cell is valid exactly when it is not a wall; the bounds tests of
    [valid_cell] add nothing, since [is_wall] is true out of bounds. *)
Theorem valid_cell_not_wall (c r : Z) : valid_cell c r = negb (is_wall c r).
Proof.
  unfold valid_cell, is_wall.
  destruct ((0 <=? r) && (r <? ROWS) && (0 <=? c) && (c <? COLS)); reflexivity.
Qed.

Lemma py_round_inject (n : Z) : py_round (inject_Z n) = n.
Proof.
  apply py_round_unique. apply Qabs_Qlt_condition. split; lra.
Qed.

Lemma py_round_near (x : Q) : (Qabs (x - inject_Z (py_round x)) <= 1 # 2)%Q.
Proof.
  apply Qabs_Qle_condition. unfold py_round.
  destruct (Qfloor_bounds x) as [Hlo Hhi].
  destruct ((x - inject_Z (Qfloor x)) ?= (1 # 2))%Q eqn:Hc.
  - apply Qeq_alt in Hc. destruct (Z.even (Qfloor x));
      [|rewrite inject_Z_plus; change (inject_Z 1) with 1%Q]; split; lra.
  - apply Qlt_alt in Hc. split; lra.
  - apply Qgt_alt in Hc. rewrite inject_Z_plus. change (inject_Z 1) with 1%Q.
    split; lra.
Qed.

(** X2: [set_dir_if_valid] never leaves the rounded cell and never moves
    the entity by more than half a cell on an axis; when the target cell is
    valid, the entity takes the direction and stands cell-centered. *)
Theorem set_dir_if_valid_snap (e : Entity) (d : Dir) :
  entity_cell (set_dir_if_valid e d) = entity_cell e
  /\ (Qabs (col (set_dir_if_valid e d) - col e) <= 1 # 2)%Q
  /\ (Qabs (row (set_dir_if_valid e d) - row e) <= 1 # 2)%Q
  /\ speed (set_dir_if_valid e d) = speed e
  /\ (valid_cell (py_round (col e + inject_Z (fst d)))
                 (py_round (row e + inject_Z (snd d))) = true ->
      dir (set_dir_if_valid e d) = d
      /\ cell_centered (set_dir_if_valid e d) = true).
Proof.
  unfold set_dir_if_valid, entity_cell.
  destruct (valid_cell _ _); cbn [col row dir speed].
  - rewrite !py_round_inject. split; [reflexivity|].
    pose proof (py_round_near (col e)) as Hc. pose proof (py_round_near (row e)) as Hr.
    apply Qabs_Qle_condition in Hc, Hr.
    split; [apply Qabs_Qle_condition; split; lra|].
    split; [apply Qabs_Qle_condition; split; lra|].
    split; [reflexivity|]. intros _. split; [reflexivity|].
    unfold cell_centered. cbn [col row]. rewrite !py_round_inject.
    apply andb_true_intro. split; apply Qltb_lt, Qabs_Qlt_condition; split; lra.
  - split; [reflexivity|].
    split; [apply Qabs_Qle_condition; split; lra|].
    split; [apply Qabs_Qle_condition; split; lra|].
    split; [reflexivity | discriminate].
Qed.

(** ** Eating *)

(** X3: after [Player.update] the cell the player stands on holds neither
    a pellet nor a power pellet, so no cell is paid twice. *)
Theorem Player_update_clears_cell (p : Player) (m : Maze) (dt : Q) :
  let p' := fst (fst (Player_update p m dt)) in
  let m' := snd (fst (Player_update p m dt)) in
  (entity_cell (p_ent p') ∉ pellets m') /\ (entity_cell (p_ent p') ∉ power_pellets m').
Proof.
  cbv zeta. unfold Player_update.
  set (cr := entity_cell (update_move (p_ent (Player_try_turn p)) dt)).
  destruct (bool_decide (cr ∈ pellets m)) eqn:H1;
    destruct (bool_decide (cr ∈ power_pellets m)) eqn:H2;
    cbn [fst snd p_ent pellets power_pellets]; fold cr;
    try apply bool_decide_eq_true_1 in H1; try apply bool_decide_eq_false_1 in H1;
    try apply bool_decide_eq_true_1 in H2; try apply bool_decide_eq_false_1 in H2;
    split; set_solver.
Qed.

(** X4: [Player.update] pays 10 for a pellet and 50 for a power pellet on
    the cell the player ends on, takes exactly that cell out of both sets,
    returns 'power' exactly when the cell held a power pellet, and leaves
    the lives and the starts alone. *)
Theorem Player_update_accounting (p : Player) (m : Maze) (dt : Q) :
  let p' := fst (fst (Player_update p m dt)) in
  let m' := snd (fst (Player_update p m dt)) in
  let cr := entity_cell (p_ent p') in
  score p' = score p + (if bool_decide (cr ∈ pellets m) then 10 else 0)
                     + (if bool_decide (cr ∈ power_pellets m) then 50 else 0)
  /\ snd (Player_update p m dt) = bool_decide (cr ∈ power_pellets m)
  /\ pellets m' = pellets m ∖ {[ cr ]}
  /\ power_pellets m' = power_pellets m ∖ {[ cr ]}
  /\ lives p' = lives p
  /\ player_start m' = player_start m
  /\ ghost_starts m' = ghost_starts m.
Proof.
  cbv zeta. unfold Player_update.
  set (cr := entity_cell (update_move (p_ent (Player_try_turn p)) dt)).
  assert (Hsc : score (Player_try_turn p) = score p /\ lives (Player_try_turn p) = lives p).
  { unfold Player_try_turn. destruct (_ && _); split; reflexivity. }
  destruct Hsc as [Hsc Hlv].
  destruct (bool_decide (cr ∈ pellets m)) eqn:H1;
    destruct (bool_decide (cr ∈ power_pellets m)) eqn:H2;
    cbn [fst snd p_ent pellets power_pellets score lives player_start ghost_starts];
    fold cr; rewrite ?H1, ?H2;
    try apply bool_decide_eq_true_1 in H1; try apply bool_decide_eq_false_1 in H1;
    try apply bool_decide_eq_true_1 in H2; try apply bool_decide_eq_false_1 in H2;
    repeat split; try lia; try assumption; try reflexivity;
    apply set_eq; intros x; set_solver.
Qed.

(** ** The right-hand end of the tunnel, on an example *)

Lemma tunnel_right_exit_blocked_witness :
  let e := mkEntity (274 # 10) 14 (1, 0) (8 # 1) in
  let dt := (1 # 10)%Q in
  is_wall (py_round (col e)) (py_round (row e)) = false
  /\ (inject_Z COLS <= next_col e dt)%Q
  /\ move_blocked e dt = true.
Proof.
  cbv zeta. split; [reflexivity|]. split; [vm_compute; discriminate|].
  apply tunnel_right_exit_blocked; [reflexivity | vm_compute; discriminate].
Defined.

(** ** Sorting by key *)

Lemma insert_by_perm (key : Dir -> Z) (x : Dir) (l : list Dir) :
  insert_by key x l ≡ₚ x :: l.
Proof.
  induction l as [|y rest IH]; simpl; [reflexivity|].
  destruct (key x <=? key y); [reflexivity|].
  rewrite IH. apply perm_swap.
Qed.

Lemma sort_by_perm (key : Dir -> Z) (l : list Dir) : sort_by key l ≡ₚ l.
Proof.
  induction l as [|x rest IH]; simpl; [reflexivity|].
  unfold sort_by in *. simpl. rewrite insert_by_perm, IH. reflexivity.
Qed.

Lemma insert_by_sorted (key : Dir -> Z) (x : Dir) (l : list Dir) :
  StronglySorted (fun a b => key a <= key b) l ->
  StronglySorted (fun a b => key a <= key b) (insert_by key x l).
Proof.
  induction 1 as [|y rest Hs IH Hall]; simpl; [repeat constructor|].
  destruct (key x <=? key y) eqn:Hle.
  - apply Z.leb_le in Hle. constructor; [constructor; assumption|].
    constructor; [exact Hle|].
    eapply Forall_impl; [exact Hall|]. intros z Hz. simpl in Hz. lia.
  - apply Z.leb_gt in Hle. constructor; [exact IH|].
    rewrite insert_by_perm. constructor; [lia | exact Hall].
Qed.

Lemma insert_by_filter (key : Dir -> Z) (k : Z) (x : Dir) (l : list Dir) :
  List.filter (fun d => key d =? k) (insert_by key x l)
  = List.filter (fun d => key d =? k) (x :: l).
Proof.
  induction l as [|y rest IH]; [reflexivity|].
  cbn [insert_by]. destruct (key x <=? key y) eqn:Hle; [reflexivity|].
  apply Z.leb_gt in Hle. cbn [List.filter] in *. rewrite IH.
  destruct (key x =? k) eqn:Hx, (key y =? k) eqn:Hy; try reflexivity.
  apply Z.eqb_eq in Hx, Hy. lia.
Qed.

Lemma sort_by_sorted (key : Dir -> Z) (l : list Dir) :
  StronglySorted (fun a b => key a <= key b) (sort_by key l).
Proof. induction l as [|x rest IH]; [constructor|]. apply insert_by_sorted, IH. Qed.

Lemma sort_by_filter (key : Dir -> Z) (l : list Dir) (k : Z) :
  List.filter (fun d => key d =? k) (sort_by key l)
  = List.filter (fun d => key d =? k) l.
Proof.
  induction l as [|x rest IH]; [reflexivity|].
  unfold sort_by in *. cbn [foldr]. rewrite insert_by_filter.
  cbn [List.filter]. rewrite IH. reflexivity.
Qed.

(** X6: [sort_by], the model of [list.sort(key=...)], returns a permutation
    of its argument in ascending key order, and is stable: the elements of any
    one key keep the order they had. *)
Theorem sort_by_stable (key : Dir -> Z) (l : list Dir) :
  sort_by key l ≡ₚ l
  /\ StronglySorted (fun a b => key a <= key b) (sort_by key l)
  /\ forall k, List.filter (fun d => key d =? k) (sort_by key l)
               = List.filter (fun d => key d =? k) l.
Proof.
  split; [apply sort_by_perm|]. split; [apply sort_by_sorted|].
  intros k. apply sort_by_filter.
Qed.

(** The head of the sorted list: a member of the list with the least key,
    and the first such member in the order of the list. *)
Lemma sort_by_head (key : Dir -> Z) (l : list Dir) (d0 : Dir) :
  l ≠ [] ->
  let d := hd d0 (sort_by key l) in
  d ∈ l
  /\ (forall x, x ∈ l -> key d <= key x)
  /\ head (List.filter (fun x => key x =? key d) l) = Some d.
Proof.
  intros Hne. cbv zeta.
  pose proof (sort_by_perm key l) as Hperm.
  pose proof (sort_by_sorted key l) as Hsorted.
  pose proof (sort_by_filter key l) as Hstable.
  destruct (sort_by key l) as [|d rest] eqn:Hs.
  { apply Permutation_nil in Hperm. congruence. }
  cbn [hd]. split; [rewrite <- Hperm; left|]. split.
  - intros x Hx. rewrite <- Hperm in Hx. apply elem_of_cons in Hx.
    destruct Hx as [-> | Hx]; [lia|].
    apply StronglySorted_inv in Hsorted. destruct Hsorted as [_ Hall].
    rewrite Forall_forall in Hall. apply Hall, Hx.
  - rewrite <- Hstable. cbn [List.filter]. rewrite Z.eqb_refl. reflexivity.
Qed.

(** ** Ghost decisions *)

Lemma update_move_dir (e : Entity) (dt : Q) :
  dir (update_move e dt) = dir e /\ speed (update_move e dt) = speed e.
Proof. unfold update_move. destruct (move_blocked e dt); split; reflexivity. Qed.

Lemma available_dirs_valid (e : Entity) (d : Dir) :
  d ∈ available_dirs e ->
  d ∈ [(-1, 0); (1, 0); (0, -1); (0, 1)]
  /\ valid_cell (py_round (col e + inject_Z (fst d)))
                (py_round (row e + inject_Z (snd d))) = true.
Proof.
  unfold available_dirs. intros H. apply list_elem_of_In, filter_In in H.
  destruct H as [H1 H2]. split; [apply list_elem_of_In, H1 | exact H2].
Qed.

Lemma available_dirs_NoDup (e : Entity) : NoDup (available_dirs e).
Proof.
  unfold available_dirs. apply NoDup_ListNoDup, List.NoDup_filter, NoDup_ListNoDup.
  apply (bool_decide_unpack _). vm_compute. exact I.
Qed.

Lemma remove_first_subset (d x : Dir) (l : list Dir) :
  x ∈ remove_first d l -> x ∈ l.
Proof.
  induction l as [|y rest IH]; simpl; [auto|].
  case_bool_decide as Heq; intros Hx; [right; exact Hx|].
  apply elem_of_cons in Hx. destruct Hx as [-> | Hx]; [left | right; auto].
Qed.

Lemma remove_first_gone (d : Dir) (l : list Dir) :
  NoDup l -> d ∉ remove_first d l.
Proof.
  induction 1 as [|y rest Hy Hnd IH]; simpl; [apply not_elem_of_nil|].
  case_bool_decide as Heq; [subst; exact Hy|].
  intros H. apply elem_of_cons in H. destruct H as [-> | H]; [congruence | auto].
Qed.

Lemma remove_first_length (d : Dir) (l : list Dir) :
  d ∈ l -> S (List.length (remove_first d l)) = List.length l.
Proof.
  induction l as [|y rest IH]; simpl; intros H; [inversion H|].
  case_bool_decide as Heq; [reflexivity|].
  apply elem_of_cons in H. destruct H as [-> | H]; [congruence|].
  simpl. rewrite IH by exact H. reflexivity.
Qed.

(** The candidates are walkable neighbours; they are none only when there
    is no walkable neighbour; with more than one neighbour the reverse of the
    current direction is not among them. *)
Lemma ghost_options_spec (e : Entity) :
  (forall d, d ∈ ghost_options e -> d ∈ available_dirs e)
  /\ (ghost_options e = [] <-> available_dirs e = [])
  /\ ((1 < List.length (available_dirs e))%nat ->
      (- fst (dir e), - snd (dir e)) ∉ ghost_options e).
Proof.
  unfold ghost_options.
  set (opp := (- fst (dir e), - snd (dir e))).
  destruct (1 <? Z.of_nat (List.length (available_dirs e))) eqn:Hlen; simpl.
  - apply Z.ltb_lt in Hlen. case_bool_decide as Hin.
    + split; [intros d; apply remove_first_subset|]. split.
      * pose proof (remove_first_length _ _ Hin) as Hl.
        split; intros H0; rewrite H0 in *; simpl in *; lia.
      * intros _. apply remove_first_gone, available_dirs_NoDup.
    + split; [auto|]. split; [reflexivity | intros _; exact Hin].
  - apply Z.ltb_ge in Hlen. split; [auto|]. split; [reflexivity | lia].
Qed.

Section GhostPolicy.

Variable RNG : Type.
Variable shuffle : RNG -> list Dir -> list Dir * RNG.

(** [random.shuffle] permutes the list. *)
Hypothesis shuffle_perm : forall r l, fst (shuffle r l) ≡ₚ l.

(** The direction a ghost has after [Ghost.update]. *)
Lemma Ghost_update_dir (dt : Q) (ppos : Cell) (g : Ghost) (r : RNG) :
  dir (g_ent (fst (Ghost_update RNG shuffle dt ppos g r)))
  = if cell_centered (g_ent g) then
      match ghost_options (g_ent g) with
      | [] => dir (g_ent g)
      | _ :: _ =>
          if eaten g then
            hd (dir (g_ent g))
               (sort_by (dist_sq_after_dir (g_ent g) (home g)) (ghost_options (g_ent g)))
          else if frightened g then
            hd (dir (g_ent g))
               (sort_by (fun d => - dist_sq_after_dir (g_ent g) ppos d)
                        (ghost_options (g_ent g)))
          else
            hd (dir (g_ent g))
               (sort_by (dist_sq_after_dir (g_ent g) ppos)
                        (fst (shuffle r (ghost_options (g_ent g)))))
      end
    else dir (g_ent g).
Proof.
  destruct g as [[c rw d sp] k bs f ea hm]. unfold Ghost_update.
  cbn [g_ent col row dir eaten frightened home].
  change (cell_centered (mkEntity c rw d (ghost_speed (mkGhost (mkEntity c rw d sp) k bs f ea hm))))
    with (cell_centered (mkEntity c rw d sp)).
  change (ghost_options (mkEntity c rw d (ghost_speed (mkGhost (mkEntity c rw d sp) k bs f ea hm))))
    with (ghost_options (mkEntity c rw d sp)).
  destruct (cell_centered (mkEntity c rw d sp));
    [|cbn; apply update_move_dir].
  destruct (ghost_options (mkEntity c rw d sp)) as [|o os];
    [cbn; apply update_move_dir|].
  destruct ea; [cbn; apply update_move_dir|].
  destruct f; [cbn; apply update_move_dir|].
  destruct (shuffle r (o :: os)) as [sh r1]. cbn. apply update_move_dir.
Qed.

(** X7: at an intersection with a walkable neighbour a ghost always turns
    into a walkable neighbour cell, and with more than one neighbour it
    never reverses; off-centre or boxed in, it keeps its direction. *)
Theorem ghost_turns_to_walkable (dt : Q) (ppos : Cell) (g : Ghost) (r : RNG) :
  let e := g_ent g in
  let d := dir (g_ent (fst (Ghost_update RNG shuffle dt ppos g r))) in
  (cell_centered e = true -> available_dirs e ≠ [] ->
     d ∈ available_dirs e
     /\ valid_cell (py_round (col e + inject_Z (fst d)))
                   (py_round (row e + inject_Z (snd d))) = true
     /\ ((1 < List.length (available_dirs e))%nat ->
         d ≠ (- fst (dir e), - snd (dir e))))
  /\ (cell_centered e = false \/ available_dirs e = [] -> d = dir e).
Proof.
  cbv zeta. rewrite Ghost_update_dir.
  destruct (ghost_options_spec (g_ent g)) as (Hsub & Hnil & Hopp).
  destruct (cell_centered (g_ent g)).
  2:{ split; [discriminate | reflexivity]. }
  destruct (ghost_options (g_ent g)) as [|o os] eqn:Hopt.
  { split; [|reflexivity]. intros _ Hne. exfalso. apply Hne, Hnil. reflexivity. }
  assert (Hin : forall key l, l ≡ₚ o :: os ->
                  hd (dir (g_ent g)) (sort_by key l) ∈ o :: os).
  { intros key l Hl.
    assert (Hne : l ≠ []) by (intros ->; apply Permutation_nil in Hl; discriminate).
    destruct (sort_by_head key l (dir (g_ent g)) Hne) as (Hd & _).
    rewrite <- Hl. exact Hd. }
  set (d := if eaten g then _ else _).
  assert (Hd : d ∈ o :: os).
  { unfold d. destruct (eaten g); [apply Hin; reflexivity|].
    destruct (frightened g); apply Hin; [reflexivity | apply shuffle_perm]. }
  split.
  - intros _ _. pose proof (Hsub _ Hd) as Hav.
    split; [exact Hav|]. split; [apply available_dirs_valid, Hav|].
    intros Hlen Heq. apply (Hopp Hlen). rewrite <- Heq. exact Hd.
  - intros [H | H]; [discriminate|]. apply Hnil in H. discriminate.
Qed.

(** X8: what a ghost at an intersection heads for: a retreating ghost takes
    the candidate nearest to its home, a frightened one the candidate
    farthest from the player's cell, a normal one a candidate nearest to the
    player's cell; for the first two, ties go to the first candidate in the
    order left, right, up, down. *)
Theorem ghost_greedy (dt : Q) (ppos : Cell) (g : Ghost) (r : RNG) :
  let e := g_ent g in
  let d := dir (g_ent (fst (Ghost_update RNG shuffle dt ppos g r))) in
  cell_centered e = true ->
  ghost_options e ≠ [] ->
  (eaten g = true ->
     (forall x, x ∈ ghost_options e ->
        dist_sq_after_dir e (home g) d <= dist_sq_after_dir e (home g) x)
     /\ head (List.filter (fun x => dist_sq_after_dir e (home g) x
                                    =? dist_sq_after_dir e (home g) d)
                (ghost_options e)) = Some d)
  /\ (eaten g = false -> frightened g = true ->
     (forall x, x ∈ ghost_options e ->
        dist_sq_after_dir e ppos x <= dist_sq_after_dir e ppos d)
     /\ head (List.filter (fun x => - dist_sq_after_dir e ppos x
                                    =? - dist_sq_after_dir e ppos d)
                (ghost_options e)) = Some d)
  /\ (eaten g = false -> frightened g = false ->
     forall x, x ∈ ghost_options e ->
       dist_sq_after_dir e ppos d <= dist_sq_after_dir e ppos x).
Proof.
  cbv zeta. intros Hc Hne. rewrite Ghost_update_dir, Hc.
  destruct (ghost_options (g_ent g)) as [|o os] eqn:Hopt; [congruence|].
  split; [|split].
  - intros ->.
    destruct (sort_by_head (dist_sq_after_dir (g_ent g) (home g)) (o :: os)
                (dir (g_ent g)) Hne) as (_ & Hmin & Hfirst).
    split; assumption.
  - intros -> ->.
    destruct (sort_by_head (fun d => - dist_sq_after_dir (g_ent g) ppos d) (o :: os)
                (dir (g_ent g)) Hne) as (_ & Hmin & Hfirst).
    split; [|exact Hfirst]. intros x Hx. specialize (Hmin x Hx). cbv beta in Hmin. lia.
  - intros -> -> x Hx.
    assert (Hne' : fst (shuffle r (o :: os)) ≠ []).
    { intros H0. pose proof (shuffle_perm r (o :: os)) as Hp. rewrite H0 in Hp.
      apply Permutation_nil in Hp. discriminate. }
    destruct (sort_by_head (dist_sq_after_dir (g_ent g) ppos)
                (fst (shuffle r (o :: os))) (dir (g_ent g)) Hne') as (_ & Hmin & _).
    apply Hmin. rewrite shuffle_perm. exact Hx.
Qed.

End GhostPolicy.

(** ** What a round of collisions can do *)

Lemma eats_refl (g : Game) : eats g g.
Proof.
  unfold eats, keeps_round. repeat split; try lia.
  apply Forall2_same_length_lookup_2; [reflexivity|].
  intros i a b Ha Hb. left. congruence.
Qed.

Lemma eat_step_trans (a b c : Ghost) : eat_step a b -> eat_step b c -> eat_step a c.
Proof.
  intros [-> | (Hf & He & ->)] [-> | (Hf' & He' & ->)]; unfold eat_step; auto.
Qed.

Lemma eats_trans (g g1 g2 : Game) : eats g g1 -> eats g1 g2 -> eats g g2.
Proof.
  unfold eats, keeps_round.
  intros ((? & ? & ? & ? & ?) & ? & ? & Hgs1) ((? & ? & ? & ? & ?) & ? & ? & Hgs2).
  repeat split; try congruence; try lia.
  eapply Forall2_trans; [|exact Hgs1|exact Hgs2].
  intros a b c. apply eat_step_trans.
Qed.

Lemma lose_life_spec (g g' : Game) :
  lose_life_and_reset_positions g = Some g' -> life_lost g g'.
Proof.
  unfold lose_life_and_reset_positions. intros H.
  destruct (respawn_ghosts _ _ _) as [gs'|] eqn:Hgs; [|discriminate].
  simpl in H. inversion H; subst. clear H.
  destruct (respawn_ghosts_spec _ _ _ _ Hgs) as [Hlen Hspec].
  unfold life_lost.
  cbn [player lives score state power_timer maze p_ent col row dir next_dir ghosts].
  repeat split.
  apply Forall2_same_length_lookup_2; [symmetry; exact Hlen|].
  intros j a b Ha Hb. destruct (Hspec _ _ Hb) as (a' & Ha' & st & Hst & ->).
  assert (a' = a) by congruence. subst a'.
  exists j, st. split; [exact Hst | reflexivity].
Qed.

Lemma collide_cases (pc pr : Z) (i : nat) (g g' : Game) (b : bool) :
  collide pc pr i g = Some (g', b) ->
  (b = false /\ eats g g')
  \/ (b = true /\ lose_life_and_reset_positions g = Some g').
Proof.
  unfold collide. intros H.
  destruct (ghosts g !! i) as [gh|] eqn:Hi;
    [|inversion H; subst; left; split; [reflexivity | apply eats_refl]].
  destruct ((pc =? _) && (pr =? _));
    [|inversion H; subst; left; split; [reflexivity | apply eats_refl]].
  destruct (frightened gh) eqn:Hf, (eaten gh) eqn:He; simpl in H.
  - inversion H; subst. left. split; [reflexivity | apply eats_refl].
  - inversion H; subst. left. split; [reflexivity|].
    unfold eats, keeps_round. cbn [state power_timer maze player ghosts lives score
                                   p_ent next_dir add_score].
    repeat split; try lia.
    rewrite <- (list_insert_id (ghosts g) i gh Hi) at 1.
    apply Forall2_insert.
    + apply Forall2_same_length_lookup_2; [reflexivity|].
      intros j a c Ha Hc. left. congruence.
    + right. auto.
  - inversion H; subst. left. split; [reflexivity | apply eats_refl].
  - destruct (lose_life_and_reset_positions g) as [g1|] eqn:Hl; [|discriminate].
    simpl in H. inversion H; subst. right. split; reflexivity.
Qed.

Lemma collisions_loop_cases (pc pr : Z) (idx : list nat) :
  forall g g',
    collisions_loop pc pr idx g = Some g' ->
    eats g g'
    \/ exists g1, eats g g1 /\ lose_life_and_reset_positions g1 = Some g'.
Proof.
  induction idx as [|i rest IH]; intros g g' H; simpl in H.
  - inversion H; subst. left. apply eats_refl.
  - destruct (collide pc pr i g) as [[g1 b]|] eqn:Hc; [|discriminate].
    destruct (collide_cases _ _ _ _ _ _ Hc) as [[-> He] | [-> Hl]].
    + destruct (IH _ _ H) as [He' | (g2 & He' & Hl)].
      * left. eapply eats_trans; eassumption.
      * right. exists g2. split; [eapply eats_trans; eassumption | exact Hl].
    + inversion H; subst. right. exists g. split; [apply eats_refl | exact Hl].
Qed.

Lemma eat_step_calmed (a b : Ghost) : eat_step a b -> calmed a b.
Proof.
  intros [-> | (_ & _ & ->)]; unfold calmed; [auto|].
  repeat split. discriminate.
Qed.

Lemma revive_calmed (a : Ghost) : calmed a (revive_ghost a).
Proof.
  unfold revive_ghost, calmed. destruct (_ && _); [|auto].
  repeat split. discriminate.
Qed.

Lemma calmed_trans (a b c : Ghost) : calmed a b -> calmed b c -> calmed a c.
Proof.
  unfold calmed. intros (? & ? & Hab) (? & ? & Hbc).
  repeat split; try congruence.
  intros Hf. pose proof (Hbc Hf) as ->. auto.
Qed.

Lemma respawned_at_revive (starts : list Cell) (a b : Ghost) :
  respawned_at starts a b -> revive_ghost b = b.
Proof. intros (j & st & _ & ->). reflexivity. Qed.

Lemma respawned_at_eat (starts : list Cell) (a b c : Ghost) :
  eat_step a b -> respawned_at starts b c -> respawned_at starts a c.
Proof.
  intros [-> | (_ & _ & ->)]; [auto|]. intros (j & st & Hst & ->).
  exists j, st. split; [exact Hst | reflexivity].
Qed.

(** [handle_collisions] either costs no life, and then keeps mode, timer,
    maze, lives and every position, or costs exactly one and puts everybody
    back on the starts in mode PLAYING. *)
Lemma handle_collisions_cases (g g' : Game) :
  handle_collisions g = Some g' ->
  (keeps_round g g'
   /\ p_ent (player g') = p_ent (player g)
   /\ next_dir (player g') = next_dir (player g)
   /\ Forall2 calmed (ghosts g) (ghosts g'))
  \/ (lives (player g') = lives (player g) - 1
      /\ score (player g) <= score (player g')
      /\ state g' = STATE_PLAYING
      /\ power_timer g' = 0%Q
      /\ maze g' = maze g
      /\ col (p_ent (player g')) = float (fst (player_start (maze g)))
      /\ row (p_ent (player g')) = float (snd (player_start (maze g)))
      /\ dir (p_ent (player g')) = (0, 0)
      /\ next_dir (player g') = next_dir (player g)
      /\ Forall2 (respawned_at (ghost_starts (maze g))) (ghosts g) (ghosts g')).
Proof.
  unfold handle_collisions. intros H.
  destruct (collisions_loop _ _ _ g) as [g1|] eqn:Hl; [|discriminate].
  simpl in H. inversion H; subst. clear H.
  cbn [player ghosts state power_timer maze].
  destruct (collisions_loop_cases _ _ _ _ _ Hl)
    as [(Hk & Hp & Hnd & Hgs) | (g0 & (Hk & Hp & Hnd & Hgs) & Hlose)].
  - left. split; [exact Hk|]. split; [exact Hp|]. split; [exact Hnd|].
    apply Forall2_fmap_r. eapply Forall2_impl; [exact Hgs|].
    intros a b Hab. eapply calmed_trans; [apply eat_step_calmed, Hab | apply revive_calmed].
  - right. apply lose_life_spec in Hlose.
    destruct Hlose as (Hlv & Hsc & Hst & Ht & Hm & Hc & Hr & Hd & Hnd' & Hres).
    destruct Hk as (_ & _ & Hm0 & Hlv0 & Hsc0).
    rewrite Hm0 in *.
    repeat split; try congruence; try lia.
    assert (Hrev : map revive_ghost (ghosts g1) = ghosts g1).
    { rewrite <- (map_id (ghosts g1)) at 2. apply map_ext_Forall.
      eapply Forall2_Forall_r; [exact Hres|]. apply Forall_true.
      intros a b Hab. eapply respawned_at_revive, Hab. }
    rewrite Hrev. eapply Forall2_trans; [|exact Hgs|exact Hres].
    intros a b c. apply respawned_at_eat.
Qed.

Lemma end_phase_player (dt : Q) (g : Game) :
  lives (player (end_phase dt g)) = lives (player g)
  /\ score (player (end_phase dt g)) = score (player g).
Proof.
  unfold end_phase, update_power_timer, check_game_over, round_clear.
  destruct (_ && _); cbn [player lives score];
    destruct (lives (player g) <=? 0); cbn [state player];
    try (destruct (state g); try destruct (Qle_bool _ _)); split; reflexivity.
Qed.

Lemma update_power_timer_state (dt : Q) (g : Game) :
  (state (update_power_timer dt g) = STATE_POWER ->
     (0 < power_timer (update_power_timer dt g))%Q)
  /\ (state g = STATE_GAMEOVER -> update_power_timer dt g = g)
  /\ (state (update_power_timer dt g) = STATE_GAMEOVER -> state g = STATE_GAMEOVER).
Proof.
  unfold update_power_timer. destruct (state g) eqn:Hs.
  - rewrite Hs. repeat split; congruence.
  - destruct (Qle_bool (power_timer g - dt) 0) eqn:Hle; cbn [state power_timer].
    + repeat split; discriminate.
    + split; [|split; [discriminate | auto]].
      intros _. apply Qnot_le_lt. intros Hc. apply Qle_bool_iff in Hc. congruence.
  - rewrite Hs. repeat split; congruence.
Qed.

Lemma end_phase_state (dt : Q) (g : Game) :
  (lives (player g) <= 0 -> state (end_phase dt g) = STATE_GAMEOVER)
  /\ (state (end_phase dt g) = STATE_POWER -> (0 < power_timer (end_phase dt g))%Q)
  /\ (state (end_phase dt g) = STATE_GAMEOVER ->
      lives (player g) <= 0 \/ state g = STATE_GAMEOVER).
Proof.
  unfold end_phase.
  destruct (update_power_timer_state dt (check_game_over (round_clear g)))
    as (Hpow & Hkeep & Hover).
  split; [|split; [exact Hpow|]].
  - intros Hl.
    assert (Hs : state (check_game_over (round_clear g)) = STATE_GAMEOVER).
    { unfold check_game_over.
      assert (Hl' : lives (player (round_clear g)) = lives (player g))
        by (unfold round_clear; destruct (_ && _); reflexivity).
      rewrite Hl'. apply Z.leb_le in Hl. rewrite Hl. reflexivity. }
    rewrite (Hkeep Hs). exact Hs.
  - intros Hs. apply Hover in Hs. unfold check_game_over in Hs.
    assert (Hl' : lives (player (round_clear g)) = lives (player g))
      by (unfold round_clear; destruct (_ && _); reflexivity).
    rewrite Hl' in Hs.
    destruct (lives (player g) <=? 0) eqn:Hle; [left; apply Z.leb_le, Hle|].
    right. unfold round_clear in Hs. destruct (_ && _); [discriminate | exact Hs].
Qed.

Lemma Player_update_player (p : Player) (m : Maze) (dt : Q) :
  lives (fst (fst (Player_update p m dt))) = lives p
  /\ score p <= score (fst (fst (Player_update p m dt))) <= score p + 60.
Proof.
  unfold Player_update.
  assert (Hsc : score (Player_try_turn p) = score p /\ lives (Player_try_turn p) = lives p).
  { unfold Player_try_turn. destruct (_ && _); split; reflexivity. }
  destruct Hsc as [Hsc Hlv].
  destruct (bool_decide (_ ∈ pellets m)), (bool_decide (_ ∈ power_pellets m));
    cbn [fst snd lives score]; lia.
Qed.

Lemma end_phase_calm (dt : Q) (g : Game) :
  calm_unless_power g ->
  (lives (player g) <= 0 -> Forall (fun gh => frightened gh = false) (ghosts g)) ->
  calm_unless_power (end_phase dt g).
Proof.
  intros Hcalm Hdead. unfold end_phase.
  assert (H1 : calm_unless_power (round_clear g)
               /\ (lives (player g) <= 0 ->
                   Forall (fun gh => frightened gh = false) (ghosts (round_clear g)))).
  { unfold round_clear. destruct (_ && _); [|auto].
    assert (Hfresh : Forall (fun gh => frightened gh = false)
                       (ghosts (reset_level false g)))
      by (rewrite fresh_ghosts; repeat constructor).
    split; [right|intros _]; exact Hfresh. }
  destruct H1 as [H1 H1d].
  assert (Hl : lives (player (round_clear g)) = lives (player g))
    by (unfold round_clear; destruct (_ && _); reflexivity).
  assert (H2 : calm_unless_power (check_game_over (round_clear g))).
  { unfold check_game_over. rewrite Hl.
    destruct (lives (player g) <=? 0) eqn:Hle; [|exact H1].
    right. cbn [ghosts]. apply H1d, Z.leb_le, Hle. }
  set (g2 := check_game_over (round_clear g)) in *.
  unfold update_power_timer. destruct (state g2) eqn:Hs.
  - exact H2.
  - destruct (Qle_bool _ _).
    + right. cbn [ghosts]. apply List.Forall_map, Forall_true. reflexivity.
    + left. reflexivity.
  - exact H2.
Qed.

Section TickFacts.

Variable RNG : Type.
Variable shuffle : RNG -> list Dir -> list Dir * RNG.

Lemma player_phase_facts (pressed : Key -> bool) (dt : Q) (g : Game) :
  lives (player (player_phase pressed dt g)) = lives (player g)
  /\ score (player g) <= score (player (player_phase pressed dt g))
  /\ (state (player_phase pressed dt g) = STATE_GAMEOVER -> state g = STATE_GAMEOVER)
  /\ (calm_unless_power g -> calm_unless_power (player_phase pressed dt g)).
Proof.
  unfold player_phase.
  pose proof (Player_update_player (handle_input pressed (player g)) (maze g) dt)
    as [Hl Hs].
  destruct (Player_update _ _ _) as [[p1 m1] [|]]; cbn [fst snd] in *;
    cbn [set_power_mode player state ghosts lives score].
  - repeat split; [exact Hl | simpl in Hs; lia | discriminate | left; reflexivity].
  - repeat split; [exact Hl | simpl in Hs; lia | auto | auto].
Qed.

(** How a tick of [Game.update] relates the game before and after the
    collisions: lives, score, mode and frightened ghosts. *)
Lemma update_facts (pressed : Key -> bool) (dt : Q) (g g' : Game) (r r' : RNG) :
  update RNG shuffle pressed dt g r = Some (g', r') ->
  score (player g) <= score (player g')
  /\ lives (player g) - 1 <= lives (player g') <= lives (player g)
  /\ (lives (player g') <= 0 -> state g' = STATE_GAMEOVER)
  /\ (state g' = STATE_POWER -> (0 < power_timer g')%Q)
  /\ (state g' = STATE_GAMEOVER -> lives (player g') <= 0 \/ state g = STATE_GAMEOVER)
  /\ (0 < lives (player g) -> calm_unless_power g -> calm_unless_power g').
Proof.
  unfold update. rewrite ghost_phase_unfold. intros H.
  destruct (player_phase_facts pressed dt g) as (Hl1 & Hs1 & Hst1 & Hcalm1).
  set (g1 := player_phase pressed dt g) in *.
  set (gs := fst (update_ghosts RNG shuffle dt (entity_cell (p_ent (player g1)))
                    (ghosts g1) r)) in *.
  assert (Hflags : Forall2 same_flags (ghosts g1) gs)
    by apply update_ghosts_same_flags.
  set (g2 := mkGame (maze g1) (player g1) gs (state g1) (power_timer g1)) in *.
  destruct (handle_collisions g2) as [g3|] eqn:Hc; [|discriminate].
  simpl in H. inversion H; subst g' r'. clear H.
  destruct (end_phase_player dt g3) as [Hl4 Hs4].
  destruct (end_phase_state dt g3) as (Hover & Hpow & Hwhy).
  rewrite Hl4, Hs4.
  assert (Hcalm2 : calm_unless_power g1 -> calm_unless_power g2).
  { intros [Hp | Hf]; [left; exact Hp | right]. cbn [ghosts].
    eapply Forall_same_flags; [|exact Hflags|exact Hf].
    intros a b [Hab _] Ha. congruence. }
  destruct (handle_collisions_cases _ _ Hc)
    as [((Hst & Ht & Hm & Hl & Hs) & Hp & _ & Hgs)
       | (Hl & Hs & Hst & Ht & Hm & _ & _ & _ & _ & Hgs)];
    unfold g2 in Hst, Hl, Hs, Hgs; cbn [player state ghosts] in Hst, Hl, Hs, Hgs.
  - split; [lia|]. split; [lia|]. split; [exact Hover|]. split; [exact Hpow|]. split.
    + intros Hg. destruct (Hwhy Hg) as [Hd | Hd]; [left; exact Hd | right].
      apply Hst1. congruence.
    + intros Hpos Hcalm. apply end_phase_calm; [|lia].
      destruct (Hcalm2 (Hcalm1 Hcalm)) as [Hp2 | Hf2]; [left; rewrite Hst; exact Hp2 | right].
      eapply Forall2_Forall_r; [exact Hgs|].
      eapply Forall_impl; [exact Hf2|]. intros a Ha b (_ & _ & Hb).
      destruct (frightened b) eqn:Hfb; [|reflexivity].
      pose proof (Hb eq_refl) as Heq. congruence.
  - assert (Hnf : Forall (fun gh => frightened gh = false) (ghosts g3)).
    { eapply Forall2_Forall_r; [exact Hgs|]. apply Forall_true.
      intros a b (j & st & _ & ->). reflexivity. }
    split; [lia|]. split; [lia|]. split; [exact Hover|]. split; [exact Hpow|]. split.
    + intros Hg. destruct (Hwhy Hg) as [Hd | Hd]; [left; exact Hd | congruence].
    + intros _ _. apply end_phase_calm; [right; exact Hnf | intros _; exact Hnf].
Qed.

(** X9: a tick never takes points away and costs at most one life. *)
Theorem tick_score_lives (pressed : Key -> bool) (dt : Q) (g g' : Game) (r r' : RNG) :
  update RNG shuffle pressed dt g r = Some (g', r') ->
  score (player g) <= score (player g')
  /\ lives (player g) - 1 <= lives (player g') <= lives (player g).
Proof.
  intros H. destruct (update_facts _ _ _ _ _ _ H) as (Hs & Hl & _). split; assumption.
Qed.

(** X10: after a tick, no life left means GAME_OVER, GAME_OVER means no life
    left unless the game was over before, and POWER means time left on the
    timer. *)
Theorem tick_modes (pressed : Key -> bool) (dt : Q) (g g' : Game) (r r' : RNG) :
  update RNG shuffle pressed dt g r = Some (g', r') ->
  (lives (player g') <= 0 -> state g' = STATE_GAMEOVER)
  /\ (state g' = STATE_GAMEOVER -> lives (player g') <= 0 \/ state g = STATE_GAMEOVER)
  /\ (state g' = STATE_POWER -> (0 < power_timer g')%Q).
Proof.
  intros H. destruct (update_facts _ _ _ _ _ _ H) as (_ & _ & H1 & H2 & H3 & _).
  repeat split; assumption.
Qed.

(** X11: in every state that [Game.run] reaches the lives are between 0
    and 3, the score is not negative, the mode is GAME_OVER exactly when no
    life is left, POWER mode has time left, and a ghost is frightened in
    POWER mode only. *)
Theorem reachable_round_state (g : Game) :
  reachable RNG shuffle g ->
  0 <= lives (player g) <= 3
  /\ 0 <= score (player g)
  /\ (state g = STATE_GAMEOVER <-> lives (player g) = 0)
  /\ (state g = STATE_POWER -> (0 < power_timer g)%Q)
  /\ (forall gh, gh ∈ ghosts g -> frightened gh = true -> state g = STATE_POWER).
Proof.
  intros Hr.
  assert (Hinv : 0 <= lives (player g) <= 3
                 /\ 0 <= score (player g)
                 /\ (state g = STATE_GAMEOVER <-> lives (player g) = 0)
                 /\ (state g = STATE_POWER -> (0 < power_timer g)%Q)
                 /\ calm_unless_power g).
  { induction Hr as [|g pressed dt r g' r' _ IH Hnot Hup|g _ _ _].
    - split; [simpl; lia|]. split; [simpl; lia|]. split; [split; discriminate|].
      split; [discriminate|]. right. unfold Game_init. rewrite fresh_ghosts.
      repeat constructor.
    - destruct IH as (Hl & Hs & Hiff & _ & Hcalm).
      destruct (update_facts _ _ _ _ _ _ Hup) as (Hs' & Hl' & Hover & Hpow & Hwhy & Hc').
      assert (Hpos : 0 < lives (player g)).
      { destruct (Z.eq_dec (lives (player g)) 0) as [H0 | H0]; [|lia].
        apply Hiff in H0. contradiction. }
      split; [lia|]. split; [lia|]. split; [|split; [exact Hpow | auto]].
      split.
      + intros Hg. destruct (Hwhy Hg) as [Hd | Hd]; [lia | contradiction].
      + intros H0. apply Hover. lia.
    - split; [simpl; lia|]. split; [simpl; lia|]. split; [split; discriminate|].
      split; [discriminate|]. right. rewrite fresh_ghosts. repeat constructor. }
  destruct Hinv as (H1 & H2 & H3 & H4 & Hcalm).
  split; [exact H1|]. split; [exact H2|]. split; [exact H3|]. split; [exact H4|].
  intros gh Hin Hf. destruct Hcalm as [Hp | Hnf]; [exact Hp|].
  rewrite Forall_forall in Hnf. rewrite (Hnf gh Hin) in Hf. discriminate.
Qed.

End TickFacts.

(** ** Nobody stands in a wall *)

Lemma update_move_free (e : Entity) (dt : Q) :
  on_free_cell e -> on_free_cell (update_move e dt).
Proof.
  unfold on_free_cell, update_move. intros H.
  destruct (move_blocked e dt) eqn:Hb; [exact H|].
  cbn [col row]. apply move_clear_last, Hb.
Qed.

Lemma set_dir_if_valid_cell (e : Entity) (d : Dir) :
  entity_cell (set_dir_if_valid e d) = entity_cell e.
Proof.
  unfold set_dir_if_valid, entity_cell. destruct (valid_cell _ _); [|reflexivity].
  cbn [col row]. rewrite !py_round_inject. reflexivity.
Qed.

Lemma Player_update_free (p : Player) (m : Maze) (dt : Q) :
  on_free_cell (p_ent p) -> on_free_cell (p_ent (fst (fst (Player_update p m dt)))).
Proof.
  intros H.
  assert (H1 : on_free_cell (p_ent (Player_try_turn p))).
  { unfold Player_try_turn. destruct (_ && _); [|exact H]. cbn [p_ent].
    unfold on_free_cell in *.
    pose proof (set_dir_if_valid_cell (p_ent p) (next_dir p)) as Hc.
    unfold entity_cell in Hc. injection Hc as -> ->. exact H. }
  unfold Player_update.
  destruct (bool_decide (_ ∈ pellets m)), (bool_decide (_ ∈ power_pellets m));
    cbn [fst snd p_ent]; apply update_move_free, H1.
Qed.

Section FreeCells.

Variable RNG : Type.
Variable shuffle : RNG -> list Dir -> list Dir * RNG.

Lemma Ghost_update_free (dt : Q) (ppos : Cell) (gh : Ghost) (r : RNG) :
  on_free_cell (g_ent gh) ->
  on_free_cell (g_ent (fst (Ghost_update RNG shuffle dt ppos gh r))).
Proof.
  intros H. unfold Ghost_update.
  set (e0 := mkEntity (col (g_ent gh)) (row (g_ent gh)) (dir (g_ent gh)) (ghost_speed gh)).
  match goal with |- context [let '(e1, r1) := ?x in _] =>
    assert (Hpos : col (fst x) = col (g_ent gh) /\ row (fst x) = row (g_ent gh));
      [|destruct x as [e1 r1]] end.
  { destruct (cell_centered e0); [|split; reflexivity].
    destruct (ghost_options e0); [split; reflexivity|].
    destruct (eaten gh); [split; reflexivity|].
    destruct (frightened gh); [split; reflexivity|].
    destruct (shuffle r _). split; reflexivity. }
  cbn [fst g_ent set_ent] in *. apply update_move_free.
  unfold on_free_cell in *. destruct Hpos as [-> ->]. exact H.
Qed.

Lemma update_ghosts_free (dt : Q) (ppos : Cell) (gs : list Ghost) :
  forall r,
    Forall (fun gh => on_free_cell (g_ent gh)) gs ->
    Forall (fun gh => on_free_cell (g_ent gh))
      (fst (update_ghosts RNG shuffle dt ppos gs r)).
Proof.
  induction gs as [|gh rest IH]; intros r H; simpl; [constructor|].
  inversion H; subst.
  pose proof (Ghost_update_free dt ppos gh r) as Hg.
  destruct (Ghost_update RNG shuffle dt ppos gh r) as [gh' r1].
  specialize (IH r1). destruct (update_ghosts RNG shuffle dt ppos rest r1) as [rest' r2].
  simpl in *. constructor; auto.
Qed.

Lemma update_free (pressed : Key -> bool) (dt : Q) (g g' : Game) (r r' : RNG) :
  update RNG shuffle pressed dt g r = Some (g', r') ->
  starts_free (maze g) ->
  all_on_free_cells g -> all_on_free_cells g'.
Proof.
  unfold update. rewrite ghost_phase_unfold. intros H [Hps Hgs] [Hp Hg].
  assert (H1 : all_on_free_cells (player_phase pressed dt g)
               /\ player_start (maze (player_phase pressed dt g)) = player_start (maze g)
               /\ ghost_starts (maze (player_phase pressed dt g)) = ghost_starts (maze g)).
  { destruct (player_phase_maze pressed dt g) as (_ & _ & Hs1 & Hs2).
    split; [|split; assumption]. unfold player_phase.
    pose proof (Player_update_free (handle_input pressed (player g)) (maze g) dt Hp) as Hf.
    destruct (Player_update _ _ _) as [[p1 m1] [|]]; cbn [fst] in Hf; split; try exact Hf.
    - rewrite set_power_mode_ghosts. cbn [ghosts]. apply List.Forall_map.
      eapply Forall_impl; [exact Hg|]. intros gh Hgh. unfold frighten.
      destruct (eaten gh); exact Hgh.
    - exact Hg. }
  destruct H1 as ([Hp1 Hg1] & Hs1 & Hs2).
  set (g1 := player_phase pressed dt g) in *.
  pose proof (update_ghosts_free dt (entity_cell (p_ent (player g1))) (ghosts g1) r Hg1)
    as Hg2.
  destruct (handle_collisions _) as [g3|] eqn:Hc; [|discriminate].
  simpl in H. inversion H; subst g' r'. clear H.
  assert (H3 : all_on_free_cells g3).
  { destruct (handle_collisions_cases _ _ Hc)
      as [(_ & Hpe & _ & Hcal) | (_ & _ & _ & _ & _ & Hcol & Hrow & _ & _ & Hres)];
      cbn [player ghosts maze] in *.
    - split; [rewrite Hpe; exact Hp1|].
      eapply Forall2_Forall_r; [exact Hcal|].
      eapply Forall_impl; [exact Hg2|]. intros a Ha b (Hb & _). rewrite Hb. exact Ha.
    - split.
      + unfold on_free_cell. rewrite Hcol, Hrow, Hs1. unfold float.
        rewrite !py_round_inject. exact Hps.
      + eapply Forall2_Forall_r; [exact Hres|]. apply Forall_true.
        intros a b (j & st & Hst & ->). unfold on_free_cell. cbn [g_ent col row].
        unfold float. rewrite !py_round_inject. rewrite Hs2 in Hst.
        rewrite Forall_forall in Hgs. apply Hgs. eapply list_elem_of_lookup_2, Hst. }
  unfold end_phase.
  assert (H4 : all_on_free_cells (round_clear g3)).
  { unfold round_clear. destruct (_ && _); [|exact H3].
    split; cbn [player ghosts p_ent]; [reflexivity|].
    rewrite fresh_ghosts. repeat constructor. }
  assert (H5 : all_on_free_cells (check_game_over (round_clear g3))).
  { unfold check_game_over. destruct (_ <=? _); exact H4. }
  set (g5 := check_game_over (round_clear g3)) in *.
  unfold update_power_timer. destruct (state g5); try exact H5.
  destruct (Qle_bool _ _); [|exact H5].
  destruct H5 as [H5p H5g]. split; [exact H5p|]. cbn [ghosts].
  apply List.Forall_map. eapply Forall_impl; [exact H5g|]. intros gh Hgh. exact Hgh.
Qed.

(** X12: in every state that [Game.run] reaches, the player and every
    ghost stand on a cell that is not a wall. *)
Theorem reachable_on_free_cells (g : Game) :
  reachable RNG shuffle g ->
  is_wall (py_round (col (p_ent (player g)))) (py_round (row (p_ent (player g)))) = false
  /\ forall gh, gh ∈ ghosts g ->
       is_wall (py_round (col (g_ent gh))) (py_round (row (g_ent gh))) = false.
Proof.
  intros Hr.
  assert (Hinv : all_on_free_cells g).
  { induction Hr as [|g pressed dt r g' r' Hr IH _ Hup|g _ _ _].
    - split; [reflexivity|]. unfold Game_init. rewrite fresh_ghosts. repeat constructor.
    - eapply update_free; [exact Hup| |exact IH]. unfold starts_free.
      destruct (reachable_maze RNG shuffle g Hr) as (_ & _ & -> & ->).
      split; [reflexivity | repeat constructor].
    - split; [reflexivity|]. rewrite fresh_ghosts. repeat constructor. }
  destruct Hinv as [Hp Hg]. split; [exact Hp|].
  intros gh Hin. rewrite Forall_forall in Hg. apply Hg, Hin.
Qed.

End FreeCells.

(** ** What [Maze.__init__] collects *)

Section Scan.

(** A set-valued field of the scan and the character it collects. *)
Variable field : MazeScan -> gset Cell.
Variable mark : ascii.
Hypothesis field_char : forall c r a s x,
  x ∈ field (scan_char c r a s) <-> x ∈ field s \/ (x = (c, r) /\ a = mark).

Lemma scan_line_field (line : string) :
  forall c0 r s x,
    x ∈ field (scan_line c0 r line s)
    <-> x ∈ field s
        \/ (snd x = r /\ c0 <= fst x
            /\ String.get (Z.to_nat (fst x - c0)) line = Some mark).
Proof.
  induction line as [|a rest IH]; intros c0 r s [c r']; cbn [scan_line fst snd].
  - split; [auto|]. intros [H | (_ & _ & H)]; [exact H | discriminate].
  - rewrite IH, field_char. cbn [fst snd]. split.
    + intros [[H | [Heq ->]] | (-> & Hc & Hget)].
      * left. exact H.
      * injection Heq as -> ->. right. split; [reflexivity|]. split; [lia|].
        replace (c0 - c0) with 0 by lia. reflexivity.
      * right. split; [reflexivity|]. split; [lia|].
        replace (Z.to_nat (c - c0)) with (S (Z.to_nat (c - (c0 + 1)))) by lia.
        exact Hget.
    + intros [H | (-> & Hc & Hget)]; [left; left; exact H|].
      destruct (Z.eq_dec c c0) as [-> | Hne].
      * left. right. replace (c0 - c0) with 0 in Hget by lia. simpl in Hget.
        injection Hget as ->. split; reflexivity.
      * right. split; [reflexivity|]. split; [lia|].
        replace (Z.to_nat (c - c0)) with (S (Z.to_nat (c - (c0 + 1)))) in Hget by lia.
        exact Hget.
Qed.

Lemma scan_rows_field (rows : list string) :
  forall r0 s x,
    x ∈ field (scan_rows r0 rows s)
    <-> x ∈ field s
        \/ (r0 <= snd x /\ 0 <= fst x
            /\ String.get (Z.to_nat (fst x))
                 (nth (Z.to_nat (snd x - r0)) rows EmptyString) = Some mark).
Proof.
  induction rows as [|line rest IH]; intros r0 s [c r]; cbn [scan_rows fst snd].
  - split; [auto|]. intros [H | (_ & _ & H)]; [exact H|].
    destruct (Z.to_nat (r - r0)), (Z.to_nat c); discriminate.
  - rewrite IH, scan_line_field. cbn [fst snd]. split.
    + intros [[H | (-> & Hc & Hget)] | (Hr & Hc & Hget)].
      * left. exact H.
      * right. split; [lia|]. split; [exact Hc|].
        replace (r0 - r0) with 0 by lia. replace (c - 0) with c in Hget by lia.
        exact Hget.
      * right. split; [lia|]. split; [exact Hc|].
        replace (Z.to_nat (r - r0)) with (S (Z.to_nat (r - (r0 + 1)))) by lia.
        exact Hget.
    + intros [H | (Hr & Hc & Hget)]; [left; left; exact H|].
      destruct (Z.eq_dec r r0) as [-> | Hne].
      * left. right. split; [reflexivity|]. split; [exact Hc|].
        replace (r0 - r0) with 0 in Hget by lia. replace (c - 0) with c by lia.
        exact Hget.
      * right. split; [lia|]. split; [exact Hc|].
        replace (Z.to_nat (r - r0)) with (S (Z.to_nat (r - (r0 + 1)))) in Hget by lia.
        exact Hget.
Qed.

End Scan.

Lemma scan_char_pellets (c r : Z) (a : ascii) (s : MazeScan) (x : Cell) :
  x ∈ sc_pellets (scan_char c r a s)
  <-> x ∈ sc_pellets s \/ (x = (c, r) /\ a = "."%char).
Proof.
  unfold scan_char. destruct (Ascii.eqb a ".") eqn:H1.
  - apply Ascii.eqb_eq in H1. subst. cbn [sc_pellets].
    rewrite elem_of_union, elem_of_singleton. tauto.
  - apply Ascii.eqb_neq in H1.
    destruct (Ascii.eqb a "o"); [|destruct (_ && _); [|destruct (Ascii.eqb a "G")]];
      cbn [sc_pellets]; tauto.
Qed.

Lemma scan_char_power (c r : Z) (a : ascii) (s : MazeScan) (x : Cell) :
  x ∈ sc_power (scan_char c r a s)
  <-> x ∈ sc_power s \/ (x = (c, r) /\ a = "o"%char).
Proof.
  unfold scan_char. destruct (Ascii.eqb a ".") eqn:H1.
  - apply Ascii.eqb_eq in H1. subst. cbn [sc_power].
    split; [auto|]. intros [H | [_ H]]; [exact H | discriminate].
  - destruct (Ascii.eqb a "o") eqn:H2.
    + apply Ascii.eqb_eq in H2. subst. cbn [sc_power].
      rewrite elem_of_union, elem_of_singleton. tauto.
    + apply Ascii.eqb_neq in H2.
      destruct (_ && _); [|destruct (Ascii.eqb a "G")]; cbn [sc_power]; tauto.
Qed.

(** X13: whatever the layout, [Maze.__init__] puts into [pellets] exactly
    the cells marked '.', and into [power_pellets] exactly the cells marked
    'o'; so no cell is in both sets. *)
Theorem scan_collects (rows : list string) (c r : Z) :
  let s := scan_rows 0 rows (mkScan ∅ ∅ None []) in
  ((c, r) ∈ sc_pellets s <-> 0 <= c /\ 0 <= r /\ char_at rows c r = Some "."%char)
  /\ ((c, r) ∈ sc_power s <-> 0 <= c /\ 0 <= r /\ char_at rows c r = Some "o"%char)
  /\ ~ ((c, r) ∈ sc_pellets s /\ (c, r) ∈ sc_power s).
Proof.
  cbv zeta. unfold char_at.
  pose proof (scan_rows_field sc_pellets "."%char scan_char_pellets rows 0
                (mkScan ∅ ∅ None []) (c, r)) as Hp.
  pose proof (scan_rows_field sc_power "o"%char scan_char_power rows 0
                (mkScan ∅ ∅ None []) (c, r)) as Ho.
  cbn [fst snd sc_pellets sc_power] in Hp, Ho.
  replace (r - 0) with r in Hp, Ho by lia.
  assert (Hp' : (c, r) ∈ sc_pellets (scan_rows 0 rows (mkScan ∅ ∅ None []))
                <-> 0 <= c /\ 0 <= r
                    /\ String.get (Z.to_nat c) (nth (Z.to_nat r) rows EmptyString)
                       = Some "."%char).
  { rewrite Hp. split; [intros [H | H]; [|tauto] | tauto].
    exfalso. exact (not_elem_of_empty _ H). }
  assert (Ho' : (c, r) ∈ sc_power (scan_rows 0 rows (mkScan ∅ ∅ None []))
                <-> 0 <= c /\ 0 <= r
                    /\ String.get (Z.to_nat c) (nth (Z.to_nat r) rows EmptyString)
                       = Some "o"%char).
  { rewrite Ho. split; [intros [H | H]; [|tauto] | tauto].
    exfalso. exact (not_elem_of_empty _ H). }
  split; [exact Hp'|]. split; [exact Ho'|].
  rewrite Hp', Ho'. intros [(_ & _ & H1) (_ & _ & H2)]. congruence.
Qed.

(** ** The maze of a running game *)

Lemma Maze_init_cells_valid :
  Forall (fun x => valid_cell (fst x) (snd x) = true)
    (elements (pellets Maze_init) ++ elements (power_pellets Maze_init)).
Proof. apply (bool_decide_unpack _). vm_compute. exact I. Qed.

Section MazeShape.

Variable RNG : Type.
Variable shuffle : RNG -> list Dir -> list Dir * RNG.

(** X14: in every state that [Game.run] reaches, the maze is the layout's
    maze with some pellets eaten: both sets are within the initial ones, no
    cell is in both, every cell in them is a valid cell, and the starts are
    the layout's. *)
Theorem reachable_maze_shape (g : Game) :
  reachable RNG shuffle g ->
  pellets (maze g) ⊆ pellets Maze_init
  /\ power_pellets (maze g) ⊆ power_pellets Maze_init
  /\ pellets (maze g) ## power_pellets (maze g)
  /\ (forall x, x ∈ pellets (maze g) ∪ power_pellets (maze g) ->
        valid_cell (fst x) (snd x) = true)
  /\ player_start (maze g) = (12, 14)
  /\ ghost_starts (maze g) = [(13, 12); (14, 12)].
Proof.
  intros Hr. destruct (reachable_maze RNG shuffle g Hr) as (H1 & H2 & H3 & H4).
  split; [exact H1|]. split; [exact H2|].
  split; [apply (reachable_disjoint RNG shuffle g Hr)|].
  split; [|split; [rewrite H3 | rewrite H4]; reflexivity].
  intros x Hx. pose proof Maze_init_cells_valid as Hv.
  rewrite Forall_forall in Hv. apply Hv.
  apply elem_of_app. apply elem_of_union in Hx.
  destruct Hx as [Hx | Hx]; [left | right]; apply elem_of_elements; auto.
Qed.

End MazeShape.

(** ** Pixels *)

(** X15: the centre that [px_center_of_cell] returns lies strictly inside
    the tile of its cell, and floor division by the tile size gives the cell
    back, for negative cells as well. *)
Theorem px_center_in_tile (c r : Z) :
  let '(x, y) := grid_to_px c r in
  let '(cx, cy) := px_center_of_cell c r in
  x < cx < x + TILE_SIZE /\ y < cy < y + TILE_SIZE
  /\ cx / TILE_SIZE = c /\ cy / TILE_SIZE = r.
Proof.
  unfold px_center_of_cell, grid_to_px, TILE_SIZE.
  change (24 / 2) with 12.
  repeat split; try lia; symmetry; apply (Z.div_unique _ 24 _ 12); lia.
Qed.

(** X16: the sprite of an entity with non-negative coordinates is drawn on
    its logical (rounded) cell or on the cell just before it on an axis:
    truncation lags behind rounding by at most one cell. *)
Theorem draw_cell_lags (e : Entity) :
  (0 <= col e)%Q -> (0 <= row e)%Q ->
  fst (draw_cell e) <= fst (entity_cell e) <= fst (draw_cell e) + 1
  /\ snd (draw_cell e) <= snd (entity_cell e) <= snd (draw_cell e) + 1.
Proof.
  intros Hc Hr. unfold draw_cell, entity_cell. cbn [fst snd].
  rewrite !py_int_nonneg by assumption. unfold py_round.
  split; destruct (Qcompare _ _); try destruct (Z.even _); lia.
Qed.

Lemma draw_cell_lags_witness :
  let e := mkEntity (56 # 10) (52 # 10) (1, 0) (8 # 1) in
  draw_cell e = (5, 5) /\ entity_cell e = (6, 5)
  /\ fst (draw_cell e) <= fst (entity_cell e) <= fst (draw_cell e) + 1.
Proof.
  cbv zeta. split; [reflexivity|]. split; [reflexivity|].
  apply (draw_cell_lags (mkEntity (56 # 10) (52 # 10) (1, 0) (8 # 1))); vm_compute; discriminate.
Defined.

(** ** The main loop *)

Section Run.

Variable RNG : Type.
Variable shuffle : RNG -> list Dir -> list Dir * RNG.

Lemma process_events_cases (evs : list Event) :
  forall g,
    snd (process_events evs g) = g
    \/ (state g = STATE_GAMEOVER
        /\ Exists (fun ev => ev_type ev = KEYDOWN
                             /\ py_lower (ev_unicode ev) = "r"%string) evs
        /\ snd (process_events evs g) = reset_level true g).
Proof.
  induction evs as [|ev rest IH]; intros g; cbn [process_events]; [left; reflexivity|].
  destruct (ev_type ev) eqn:Ht.
  - left. reflexivity.
  - destruct (ev_key ev =? K_ESCAPE); [left; reflexivity|].
    unfold is_restart. destruct (state g) eqn:Hs.
    + destruct (IH g) as [H | (H1 & _)]; [left; exact H | congruence].
    + destruct (IH g) as [H | (H1 & _)]; [left; exact H | congruence].
    + destruct (String.eqb _ _) eqn:Hr.
      * apply String.eqb_eq in Hr. right. split; [reflexivity|]. split; [left; auto|].
        destruct (IH (reset_level true g)) as [H | (H & _)]; [exact H | discriminate].
      * destruct (IH g) as [H | (H1 & H2 & H3)]; [left; exact H | right].
        split; [reflexivity|]. split; [right; exact H2 | exact H3].
  - destruct (IH g) as [H | (H1 & H2 & H3)]; [left; exact H | right].
    split; [exact H1|]. split; [right; exact H2 | exact H3].
Qed.

(** X17: [process_events] changes the game in one way only: it restarts a
    game that is over, on a key whose character is 'r' or 'R'; a game that
    is not over comes back as it was. *)
Theorem process_events_restart_only (evs : list Event) (g : Game) :
  (state g ≠ STATE_GAMEOVER -> snd (process_events evs g) = g)
  /\ (Forall (fun ev => ev_type ev = KEYDOWN ->
                        py_lower (ev_unicode ev) ≠ "r"%string) evs ->
      snd (process_events evs g) = g)
  /\ (snd (process_events evs g) ≠ g ->
      snd (process_events evs g) = reset_level true g).
Proof.
  destruct (process_events_cases evs g) as [H | (Hs & Hex & H)].
  - repeat split; intros; congruence.
  - split; [intros; contradiction|]. split; [|intros _; exact H].
    intros Hall. exfalso. rewrite Exists_exists in Hex. rewrite Forall_forall in Hall.
    destruct Hex as (ev & Hin & Ht & Hr). exact (Hall ev Hin Ht Hr).
Qed.

(** X18: a game that is over stays as it is, whatever frames follow, as
    long as no key with the character 'r' or 'R' is pressed. *)
Theorem game_over_is_terminal (frames : list Frame) (g : Game) (r : RNG) :
  state g = STATE_GAMEOVER ->
  Forall (fun f => Forall (fun ev => ev_type ev = KEYDOWN ->
                                     py_lower (ev_unicode ev) ≠ "r"%string)
                     (events f)) frames ->
  run RNG shuffle frames g r = Some (g, r).
Proof.
  intros Hs. induction frames as [|f rest IH]; intros Hall; [reflexivity|].
  inversion Hall as [|? ? Hf Hrest]; subst. cbn [run].
  assert (Hkeep : snd (process_events (events f) g) = g).
  { destruct (process_events_cases (events f) g) as [H | (_ & Hex & _)]; [exact H|].
    exfalso. rewrite Exists_exists in Hex. rewrite Forall_forall in Hf.
    destruct Hex as (ev & Hin & Ht & Hr). exact (Hf ev Hin Ht Hr). }
  destruct (process_events (events f) g) as [go g1]. cbn [snd] in Hkeep. subst g1.
  destruct go; [|reflexivity].
  rewrite Hs. apply IH, Hrest.
Qed.

Lemma run_stays_reachable (frames : list Frame) :
  forall g r g' r',
    reachable RNG shuffle g ->
    run RNG shuffle frames g r = Some (g', r') ->
    reachable RNG shuffle g'.
Proof.
  induction frames as [|f rest IH]; intros g r g' r' Hr H; cbn [run] in H.
  - injection H as <- _. exact Hr.
  - assert (H1 : reachable RNG shuffle (snd (process_events (events f) g))).
    { destruct (process_events_cases (events f) g) as [-> | (Hs & _ & ->)];
        [exact Hr | apply reach_restart; assumption]. }
    destruct (process_events (events f) g) as [go g1]. cbn [snd] in H1.
    destruct go; [|injection H as <- _; exact H1].
    destruct (state g1) eqn:Hs.
    + destruct (update RNG shuffle (pressed_keys f) _ g1 r) as [[g2 r2]|] eqn:Hup;
        [|discriminate].
      cbn in H. eapply IH; [|exact H]. eapply reach_tick; try eassumption. congruence.
    + destruct (update RNG shuffle (pressed_keys f) _ g1 r) as [[g2 r2]|] eqn:Hup;
        [|discriminate].
      cbn in H. eapply IH; [|exact H]. eapply reach_tick; try eassumption. congruence.
    + eapply IH; eassumption.
Qed.

(** X19: the loop of [run] never raises on a reachable game and only
    visits reachable games. *)
Theorem run_reachable (frames : list Frame) :
  forall g r,
    reachable RNG shuffle g ->
    exists g' r', run RNG shuffle frames g r = Some (g', r') /\ reachable RNG shuffle g'.
Proof.
  induction frames as [|f rest IH]; intros g r Hr; cbn [run]; [eauto|].
  assert (H1 : reachable RNG shuffle (snd (process_events (events f) g))).
  { destruct (process_events_cases (events f) g) as [-> | (Hs & _ & ->)];
      [exact Hr | apply reach_restart; assumption]. }
  destruct (process_events (events f) g) as [go g1]. cbn [snd] in H1.
  destruct go; [|eauto].
  destruct (reachable_update_total RNG shuffle (pressed_keys f)
              (inject_Z (tick_ms f) / 1000)%Q g1 r H1) as [[g2 r2] Hup].
  destruct (state g1) eqn:Hs; [| |apply IH, H1];
    rewrite Hup; cbn; apply IH; eapply reach_tick; try eassumption; congruence.
Qed.

End Run.

(** ** [Ghost.choose_dir] *)

Section ChooseDir.

Variable RNG : Type.

(** [random.choice]: an element of a list that is not empty. *)
Variable choice : RNG -> list Dir -> Dir * RNG.
Hypothesis choice_in : forall r l, l ≠ [] -> fst (choice r l) ∈ l.

(** X20: [choose_dir] returns a direction into a walkable neighbour cell,
    and not the reverse of the current direction when there is more than
    one such neighbour; boxed in, it returns the reverse. *)
Theorem choose_dir_walkable (g : Ghost) (r : RNG) :
  let e := g_ent g in
  let d := fst (choose_dir RNG choice g r) in
  (available_dirs e ≠ [] ->
     d ∈ available_dirs e
     /\ valid_cell (py_round (col e + inject_Z (fst d)))
                   (py_round (row e + inject_Z (snd d))) = true
     /\ ((1 < List.length (available_dirs e))%nat ->
         d ≠ (- fst (dir e), - snd (dir e))))
  /\ (available_dirs e = [] -> d = (- fst (dir e), - snd (dir e))).
Proof.
  cbv zeta. unfold choose_dir.
  destruct (ghost_options_spec (g_ent g)) as (Hsub & Hnil & Hopp).
  destruct (ghost_options (g_ent g)) as [|o os] eqn:Hopt.
  - split; [|reflexivity]. intros Hne. exfalso. apply Hne, Hnil. reflexivity.
  - assert (Hd : fst (choice r (o :: os)) ∈ o :: os) by (apply choice_in; discriminate).
    split.
    + intros _. pose proof (Hsub _ Hd) as Hav.
      split; [exact Hav|]. split; [apply available_dirs_valid, Hav|].
      intros Hlen Heq. apply (Hopp Hlen). rewrite <- Heq. exact Hd.
    + intros H. apply Hnil in H. discriminate.
Qed.

End ChooseDir.

(** ** Directions stay on the axes *)

Lemma available_dirs_unit (e : Entity) (d : Dir) : d ∈ available_dirs e -> unit_dir d.
Proof.
  intros H. apply available_dirs_valid in H. destruct H as [H _].
  unfold unit_dir. set_unfold. tauto.
Qed.

Lemma handle_input_unit (pressed : Key -> bool) (p : Player) :
  unit_dir (next_dir p) -> unit_dir (next_dir (handle_input pressed p)).
Proof.
  intros H. unfold handle_input. cbn [next_dir].
  repeat (destruct (_ || _); [unfold unit_dir; set_unfold; tauto|]). exact H.
Qed.

Lemma Player_update_unit (p : Player) (m : Maze) (dt : Q) :
  unit_dir (dir (p_ent p)) -> unit_dir (next_dir p) ->
  unit_dir (dir (p_ent (fst (fst (Player_update p m dt)))))
  /\ next_dir (fst (fst (Player_update p m dt))) = next_dir p.
Proof.
  intros Hd Hn.
  assert (H1 : unit_dir (dir (p_ent (Player_try_turn p)))
               /\ next_dir (Player_try_turn p) = next_dir p).
  { unfold Player_try_turn. destruct (_ && _); [|auto]. cbn [p_ent next_dir].
    split; [|reflexivity]. unfold set_dir_if_valid. destruct (valid_cell _ _); assumption. }
  destruct H1 as [H1 H2]. unfold Player_update.
  destruct (bool_decide (_ ∈ pellets m)), (bool_decide (_ ∈ power_pellets m));
    cbn [fst snd p_ent next_dir];
    (split; [rewrite (proj1 (update_move_dir _ dt)); exact H1 | exact H2]).
Qed.

Section UnitDirs.

Variable RNG : Type.
Variable shuffle : RNG -> list Dir -> list Dir * RNG.
Hypothesis shuffle_perm : forall r l, fst (shuffle r l) ≡ₚ l.

Lemma Ghost_update_unit (dt : Q) (ppos : Cell) (gh : Ghost) (r : RNG) :
  unit_dir (dir (g_ent gh)) ->
  unit_dir (dir (g_ent (fst (Ghost_update RNG shuffle dt ppos gh r)))).
Proof.
  intros H. rewrite Ghost_update_dir.
  destruct (cell_centered (g_ent gh)); [|exact H].
  destruct (ghost_options_spec (g_ent gh)) as (Hsub & _ & _).
  destruct (ghost_options (g_ent gh)) as [|o os] eqn:Hopt; [exact H|].
  assert (Hin : forall key l, l ≡ₚ o :: os ->
                  hd (dir (g_ent gh)) (sort_by key l) ∈ o :: os).
  { intros key l Hl.
    assert (Hne : l ≠ []) by (intros ->; apply Permutation_nil in Hl; discriminate).
    destruct (sort_by_head key l (dir (g_ent gh)) Hne) as (Hd & _).
    rewrite <- Hl. exact Hd. }
  apply (available_dirs_unit (g_ent gh)), Hsub.
  destruct (eaten gh); [apply Hin; reflexivity|].
  destruct (frightened gh); apply Hin; [reflexivity | apply shuffle_perm].
Qed.

Lemma update_ghosts_unit (dt : Q) (ppos : Cell) (gs : list Ghost) :
  forall r,
    Forall (fun gh => unit_dir (dir (g_ent gh))) gs ->
    Forall (fun gh => unit_dir (dir (g_ent gh)))
      (fst (update_ghosts RNG shuffle dt ppos gs r)).
Proof.
  induction gs as [|gh rest IH]; intros r H; simpl; [constructor|].
  inversion H; subst.
  pose proof (Ghost_update_unit dt ppos gh r) as Hg.
  destruct (Ghost_update RNG shuffle dt ppos gh r) as [gh' r1].
  specialize (IH r1). destruct (update_ghosts RNG shuffle dt ppos rest r1) as [rest' r2].
  simpl in *. constructor; auto.
Qed.

Lemma update_unit (pressed : Key -> bool) (dt : Q) (g g' : Game) (r r' : RNG) :
  update RNG shuffle pressed dt g r = Some (g', r') ->
  all_unit_dirs g -> all_unit_dirs g'.
Proof.
  unfold update. rewrite ghost_phase_unfold. intros H (Hd & Hn & Hg).
  assert (H1 : all_unit_dirs (player_phase pressed dt g)).
  { unfold player_phase.
    pose proof (handle_input_unit pressed (player g) Hn) as Hn0.
    assert (Hd0 : unit_dir (dir (p_ent (handle_input pressed (player g))))) by exact Hd.
    pose proof (Player_update_unit (handle_input pressed (player g)) (maze g) dt Hd0 Hn0)
      as [Hd1 Hn1].
    destruct (Player_update _ _ _) as [[p1 m1] [|]]; cbn [fst] in Hd1, Hn1;
      unfold all_unit_dirs, set_power_mode; cbn [player ghosts];
      (split; [exact Hd1|]); (split; [rewrite Hn1; exact Hn0|]).
    - apply List.Forall_map.
      eapply Forall_impl; [exact Hg|]. intros gh Hgh.
      destruct (negb (eaten gh)); exact Hgh.
    - exact Hg. }
  destruct H1 as (Hd1 & Hn1 & Hg1).
  set (g1 := player_phase pressed dt g) in *.
  pose proof (update_ghosts_unit dt (entity_cell (p_ent (player g1))) (ghosts g1) r Hg1)
    as Hg2.
  destruct (handle_collisions _) as [g3|] eqn:Hc; [|discriminate].
  simpl in H. inversion H; subst g' r'. clear H.
  assert (Hzero : unit_dir (0, 0)) by (unfold unit_dir; set_unfold; tauto).
  assert (H3 : all_unit_dirs g3).
  { destruct (handle_collisions_cases _ _ Hc)
      as [(_ & Hpe & Hnd & Hcal) | (_ & _ & _ & _ & _ & _ & _ & Hdir & Hnd & Hres)];
      cbn [player ghosts maze] in *.
    - split; [rewrite Hpe; exact Hd1|]. split; [rewrite Hnd; exact Hn1|].
      eapply Forall2_Forall_r; [exact Hcal|].
      eapply Forall_impl; [exact Hg2|]. intros a Ha b (Hb & _). rewrite Hb. exact Ha.
    - split; [rewrite Hdir; exact Hzero|]. split; [rewrite Hnd; exact Hn1|].
      eapply Forall2_Forall_r; [exact Hres|]. apply Forall_true.
      intros a b (j & st & _ & ->). exact Hzero. }
  unfold end_phase.
  assert (H4 : all_unit_dirs (round_clear g3)).
  { unfold round_clear. destruct (_ && _); [|exact H3].
    split; [exact Hzero|]. split; [exact Hzero|]. cbn [ghosts].
    rewrite fresh_ghosts. repeat constructor; exact Hzero. }
  assert (H5 : all_unit_dirs (check_game_over (round_clear g3))).
  { unfold check_game_over. destruct (_ <=? _); exact H4. }
  set (g5 := check_game_over (round_clear g3)) in *.
  unfold update_power_timer. destruct (state g5); try exact H5.
  destruct (Qle_bool _ _); [|exact H5].
  destruct H5 as (H5d & H5n & H5g). split; [exact H5d|]. split; [exact H5n|].
  cbn [ghosts]. apply List.Forall_map. eapply Forall_impl; [exact H5g|].
  intros gh Hgh. exact Hgh.
Qed.

(** X21: in every state that [Game.run] reaches, the direction of the
    player, the direction it has asked for and the direction of every ghost
    are axis steps or (0, 0): nothing ever moves diagonally. *)
Theorem reachable_unit_dirs (g : Game) :
  reachable RNG shuffle g ->
  unit_dir (dir (p_ent (player g)))
  /\ unit_dir (next_dir (player g))
  /\ forall gh, gh ∈ ghosts g -> unit_dir (dir (g_ent gh)).
Proof.
  intros Hr.
  assert (Hzero : unit_dir (0, 0)) by (unfold unit_dir; set_unfold; tauto).
  assert (Hinv : all_unit_dirs g).
  { induction Hr as [|g pressed dt r g' r' _ IH _ Hup|g _ _ _].
    - split; [exact Hzero|]. split; [exact Hzero|]. unfold Game_init.
      rewrite fresh_ghosts. repeat constructor; exact Hzero.
    - eapply update_unit; eassumption.
    - split; [exact Hzero|]. split; [exact Hzero|].
      rewrite fresh_ghosts. repeat constructor; exact Hzero. }
  destruct Hinv as (H1 & H2 & H3). split; [exact H1|]. split; [exact H2|].
  intros gh Hin. rewrite Forall_forall in H3. apply H3, Hin.
Qed.

End UnitDirs.

(** ** The further properties on examples *)

Lemma rotate_shuffle_perm (r : nat) (l : list Dir) : fst (rotate_shuffle r l) ≡ₚ l.
Proof.
  unfold rotate_shuffle, rotate. cbn [fst].
  rewrite Permutation_app_comm, take_drop. reflexivity.
Qed.

Lemma pick_choice_in (r : nat) (l : list Dir) : l ≠ [] -> fst (pick_choice r l) ∈ l.
Proof.
  intros Hne. unfold pick_choice. cbn [fst]. apply list_elem_of_In, nth_In.
  apply Nat.mod_upper_bound. destruct l; [congruence | simpl; lia].
Qed.

Lemma ghost_turns_to_walkable_witness :
  let g := mkGhost (mkEntity 6 5 (1, 0) (6 # 1)) RED (6 # 1) false false (13, 12) in
  let d := dir (g_ent (fst (Ghost_update nat rotate_shuffle (1 # 60) (1, 1) g 0%nat))) in
  d ∈ available_dirs (g_ent g) /\ d ≠ (-1, 0).
Proof.
  cbv zeta.
  destruct (ghost_turns_to_walkable nat rotate_shuffle rotate_shuffle_perm (1 # 60) (1, 1)
              (mkGhost (mkEntity 6 5 (1, 0) (6 # 1)) RED (6 # 1) false false (13, 12))
              0%nat) as [Hturn _].
  cbv zeta in Hturn.
  destruct (Hturn ltac:(reflexivity) ltac:(vm_compute; discriminate)) as (Hin & _ & Hrev).
  split; [exact Hin|]. apply Hrev. vm_compute. lia.
Defined.

Lemma ghost_greedy_witness :
  let g := mkGhost (mkEntity 6 5 (1, 0) (6 # 1)) RED (6 # 1) false true (13, 12) in
  let d := dir (g_ent (fst (Ghost_update nat rotate_shuffle (1 # 60) (1, 1) g 0%nat))) in
  d = (1, 0)
  /\ forall x, x ∈ ghost_options (g_ent g) ->
       dist_sq_after_dir (g_ent g) (home g) d <= dist_sq_after_dir (g_ent g) (home g) x.
Proof.
  cbv zeta. split; [reflexivity|].
  destruct (ghost_greedy nat rotate_shuffle rotate_shuffle_perm (1 # 60) (1, 1)
              (mkGhost (mkEntity 6 5 (1, 0) (6 # 1)) RED (6 # 1) false true (13, 12))
              0%nat ltac:(reflexivity) ltac:(vm_compute; discriminate)) as (Hhome & _).
  destruct (Hhome eq_refl) as [Hmin _]. exact Hmin.
Defined.

Lemma tick_score_lives_witness :
  let g := mkGame Maze_init (mkPlayer (mkEntity 1 4 (0, -1) (8 # 1)) (0, -1) 3 0)
             (ghosts Game_init) STATE_PLAYING 0%Q in
  exists g' r',
    update nat rotate_shuffle no_keys (1 # 8) g 0%nat = Some (g', r')
    /\ score (player g) <= score (player g')
    /\ lives (player g) - 1 <= lives (player g') <= lives (player g).
Proof.
  cbv zeta.
  destruct (update nat rotate_shuffle no_keys (1 # 8) _ 0%nat) as [[g' r']|] eqn:Hup;
    [|vm_compute in Hup; discriminate].
  exists g', r'. split; [reflexivity|].
  exact (tick_score_lives nat rotate_shuffle no_keys (1 # 8) _ g' 0%nat r' Hup).
Defined.

Lemma tick_modes_witness :
  let g := mkGame Maze_init (mkPlayer (mkEntity 1 4 (0, -1) (8 # 1)) (0, -1) 3 0)
             (ghosts Game_init) STATE_PLAYING 0%Q in
  exists g' r',
    update nat rotate_shuffle no_keys (1 # 8) g 0%nat = Some (g', r')
    /\ (state g' = STATE_POWER -> (0 < power_timer g')%Q).
Proof.
  cbv zeta.
  destruct (update nat rotate_shuffle no_keys (1 # 8) _ 0%nat) as [[g' r']|] eqn:Hup;
    [|vm_compute in Hup; discriminate].
  exists g', r'. split; [reflexivity|].
  exact (proj2 (proj2 (tick_modes nat rotate_shuffle no_keys (1 # 8) _ g' 0%nat r' Hup))).
Defined.

Lemma game_over_is_terminal_witness :
  let g := mkGame Maze_init (mkPlayer (mkEntity 12 14 (0, 0) (8 # 1)) (1, 0) 0 420)
             (ghosts Game_init) STATE_GAMEOVER 0%Q in
  let frames := [mkFrame [mkEvent KEYDOWN 32 " "] no_keys 16;
                 mkFrame [mkEvent OTHER_EVENT 0 ""] no_keys 17] in
  run nat rotate_shuffle frames g 0%nat = Some (g, 0%nat).
Proof.
  cbv zeta. apply game_over_is_terminal; [reflexivity|].
  repeat constructor; intros _ H; vm_compute in H; discriminate.
Defined.

Lemma run_reachable_witness :
  let frames := [mkFrame [] no_keys 16; mkFrame [mkEvent KEYDOWN 114 "r"] no_keys 17] in
  exists g' r',
    run nat rotate_shuffle frames Game_init 0%nat = Some (g', r')
    /\ reachable nat rotate_shuffle g'.
Proof.
  cbv zeta. apply run_reachable. apply reach_init.
Defined.

Lemma choose_dir_walkable_witness :
  let g := mkGhost (mkEntity 6 5 (1, 0) (6 # 1)) RED (6 # 1) false false (13, 12) in
  fst (choose_dir nat pick_choice g 1%nat) ∈ available_dirs (g_ent g)
  /\ fst (choose_dir nat pick_choice g 1%nat) ≠ (-1, 0).
Proof.
  cbv zeta.
  destruct (choose_dir_walkable nat pick_choice pick_choice_in
              (mkGhost (mkEntity 6 5 (1, 0) (6 # 1)) RED (6 # 1) false false (13, 12))
              1%nat) as [Hturn _].
  cbv zeta in Hturn.
  destruct (Hturn ltac:(vm_compute; discriminate)) as (Hin & _ & Hrev).
  split; [exact Hin|]. apply Hrev. vm_compute. lia.
Defined.

(** ** Homes *)

Lemma Forall2_map_eq {A B : Type} (f : A -> B) (l k : list A) :
  Forall2 (fun a b => f b = f a) l k -> map f k = map f l.
Proof. induction 1; simpl; congruence. Qed.

Lemma revive_ghost_off_home (a : Ghost) :
  eaten (revive_ghost a) = true -> entity_cell (g_ent (revive_ghost a)) ≠ home (revive_ghost a).
Proof.
  unfold revive_ghost, entity_cell.
  destruct (eaten a) eqn:He; cbn [andb].
  - destruct (py_round (col (g_ent a)) =? fst (home a)) eqn:Hc; cbn [andb].
    + destruct (py_round (row (g_ent a)) =? snd (home a)) eqn:Hr; [discriminate|].
      intros _ Heq. apply Z.eqb_neq in Hr. apply Hr. rewrite <- Heq. reflexivity.
    + intros _ Heq. apply Z.eqb_neq in Hc. apply Hc. rewrite <- Heq. reflexivity.
  - congruence.
Qed.

Section Homes.

Variable RNG : Type.
Variable shuffle : RNG -> list Dir -> list Dir * RNG.

Lemma update_ghosts_homes (dt : Q) (ppos : Cell) (gs : list Ghost) :
  forall r, map home (fst (update_ghosts RNG shuffle dt ppos gs r)) = map home gs.
Proof.
  induction gs as [|gh rest IH]; intros r; simpl; [reflexivity|].
  assert (Hh : home (fst (Ghost_update RNG shuffle dt ppos gh r)) = home gh).
  { unfold Ghost_update.
    match goal with |- context [let '(e1, r1) := ?x in _] => destruct x as [e1 r1] end.
    reflexivity. }
  destruct (Ghost_update RNG shuffle dt ppos gh r) as [gh' r1].
  specialize (IH r1). destruct (update_ghosts RNG shuffle dt ppos rest r1) as [rest' r2].
  simpl in *. congruence.
Qed.

(** X22: when a tick is over, no ghost is retreating on its own home cell:
    the tick has made it normal again. *)
Theorem tick_revives_at_home (pressed : Key -> bool) (dt : Q) (g g' : Game) (r r' : RNG) :
  update RNG shuffle pressed dt g r = Some (g', r') ->
  forall gh, gh ∈ ghosts g' -> eaten gh = true -> entity_cell (g_ent gh) ≠ home gh.
Proof.
  unfold update. rewrite ghost_phase_unfold. intros H.
  destruct (handle_collisions _) as [g3|] eqn:Hc; [|discriminate].
  simpl in H. inversion H; subst g' r'. clear H.
  assert (H3 : Forall (fun gh => eaten gh = true -> entity_cell (g_ent gh) ≠ home gh)
                 (ghosts g3)).
  { unfold handle_collisions in Hc.
    destruct (collisions_loop _ _ _ _) as [g2|]; [|discriminate].
    simpl in Hc. inversion Hc; subst. cbn [ghosts].
    apply List.Forall_map, Forall_true. intros a. apply revive_ghost_off_home. }
  assert (H5 : Forall (fun gh => eaten gh = true -> entity_cell (g_ent gh) ≠ home gh)
                 (ghosts (check_game_over (round_clear g3)))).
  { unfold check_game_over, round_clear.
    destruct (_ && _); destruct (_ <=? _); cbn [ghosts]; try exact H3;
      rewrite fresh_ghosts; repeat constructor; discriminate. }
  rewrite <- Forall_forall. unfold end_phase.
  set (g5 := check_game_over (round_clear g3)) in *.
  unfold update_power_timer.
  destruct (state g5); try exact H5. destruct (Qle_bool _ _); [|exact H5].
  cbn [ghosts]. apply List.Forall_map, Forall_true. intros a. rewrite expire_ghost_clears.
  discriminate.
Qed.

Lemma update_homes (pressed : Key -> bool) (dt : Q) (g g' : Game) (r r' : RNG) :
  update RNG shuffle pressed dt g r = Some (g', r') ->
  (map home (ghosts g') = map home (ghosts g)
   /\ ghost_starts (maze g') = ghost_starts (maze g))
  \/ (ghosts g' = ghosts Game_init /\ maze g' = Maze_init).
Proof.
  unfold update. rewrite ghost_phase_unfold. intros H.
  assert (H1 : map home (ghosts (player_phase pressed dt g)) = map home (ghosts g)
               /\ ghost_starts (maze (player_phase pressed dt g)) = ghost_starts (maze g)).
  { destruct (player_phase_maze pressed dt g) as (_ & _ & _ & Hs2). split; [|exact Hs2].
    unfold player_phase. destruct (Player_update _ _ _) as [[p1 m1] [|]]; [|reflexivity].
    rewrite set_power_mode_ghosts. cbn [ghosts]. rewrite List.map_map.
    apply map_ext. intros a. unfold frighten. destruct (eaten a); reflexivity. }
  destruct H1 as [Hh1 Hs1].
  set (g1 := player_phase pressed dt g) in *.
  destruct (handle_collisions _) as [g3|] eqn:Hc; [|discriminate].
  simpl in H. inversion H; subst g' r'. clear H.
  assert (H3 : map home (ghosts g3) = map home (ghosts g)
               /\ ghost_starts (maze g3) = ghost_starts (maze g)).
  { pose proof (handle_collisions_maze _ _ Hc) as Hm. cbn [maze] in Hm.
    split; [|rewrite Hm; exact Hs1].
    rewrite <- Hh1,
      <- (update_ghosts_homes dt (entity_cell (p_ent (player g1))) (ghosts g1) r).
    destruct (handle_collisions_cases _ _ Hc)
      as [(_ & _ & _ & Hcal) | (_ & _ & _ & _ & _ & _ & _ & _ & _ & Hres)];
      cbn [ghosts] in *; apply Forall2_map_eq.
    - eapply Forall2_impl; [exact Hcal|]. intros a b (_ & Hb & _). exact Hb.
    - eapply Forall2_impl; [exact Hres|]. intros a b (j & st & _ & ->). reflexivity. }
  unfold end_phase.
  assert (H5 : (map home (ghosts (check_game_over (round_clear g3))) = map home (ghosts g)
                /\ ghost_starts (maze (check_game_over (round_clear g3)))
                   = ghost_starts (maze g))
               \/ (ghosts (check_game_over (round_clear g3)) = ghosts Game_init
                   /\ maze (check_game_over (round_clear g3)) = Maze_init)).
  { unfold check_game_over, round_clear.
    destruct (_ && _); destruct (_ <=? _); cbn [ghosts maze];
      [right | right | left | left]; try exact H3; split; reflexivity. }
  set (g5 := check_game_over (round_clear g3)) in *.
  unfold update_power_timer. destruct (state g5); try exact H5.
  destruct (Qle_bool _ _); [|exact H5]. cbn [ghosts maze].
  destruct H5 as [[H5 H5s] | [H5 H5m]].
  - left. split; [|exact H5s]. rewrite List.map_map. rewrite <- H5.
    apply map_ext. intros a. reflexivity.
  - right. split; [|exact H5m]. rewrite H5. reflexivity.
Qed.

(** X23: in every state that [Game.run] reaches, the homes of the ghosts
    are, in order, the first ghost starts of the maze (at most four): the
    cell a ghost is put back on when a life is lost is its home. *)
Theorem reachable_homes (g : Game) :
  reachable RNG shuffle g ->
  map home (ghosts g) = take 4 (ghost_starts (maze g)).
Proof.
  induction 1 as [|g pressed dt r g' r' _ IH _ Hup|g _ _ _].
  - reflexivity.
  - destruct (update_homes _ _ _ _ _ _ Hup) as [[-> ->] | [-> ->]];
      [exact IH | reflexivity].
  - reflexivity.
Qed.

End Homes.

Lemma tick_revives_at_home_witness :
  let gh := mkGhost (mkEntity 13 (121 # 10) (0, -1) (72 # 10)) RED (6 # 1) false true (13, 12) in
  let g := mkGame Maze_init (mkPlayer (mkEntity 1 1 (1, 0) (8 # 1)) (1, 0) 3 0)
             [gh] STATE_PLAYING 0%Q in
  exists g' r',
    update nat rotate_shuffle no_keys (1 # 60) g 0%nat = Some (g', r')
    /\ map eaten (ghosts g') = [false]
    /\ forall x, x ∈ ghosts g' -> eaten x = true -> entity_cell (g_ent x) ≠ home x.
Proof.
  cbv zeta.
  destruct (update nat rotate_shuffle no_keys (1 # 60) _ 0%nat) as [[g' r']|] eqn:Hup;
    [|vm_compute in Hup; discriminate].
  exists g', r'. split; [reflexivity|]. split.
  - vm_compute in Hup. injection Hup as <- _. reflexivity.
  - exact (tick_revives_at_home nat rotate_shuffle no_keys (1 # 60) _ g' 0%nat r' Hup).
Defined.

(** ** The snapshot of a tick *)

Lemma player_phase_unfold (pressed : Key -> bool) (dt : Q) (g : Game) :
  player (player_phase pressed dt g)
  = fst (fst (Player_update (handle_input pressed (player g)) (maze g) dt))
  /\ ghosts (player_phase pressed dt g)
     = (if snd (Player_update (handle_input pressed (player g)) (maze g) dt)
        then map frighten (ghosts g) else ghosts g).
Proof.
  unfold player_phase.
  destruct (Player_update _ _ _) as [[p1 m1] [|]]; cbn [fst snd].
  - rewrite set_power_mode_ghosts. split; reflexivity.
  - split; reflexivity.
Qed.

Lemma end_phase_no_reset (dt : Q) (g : Game) :
  maze (end_phase dt g) ≠ Maze_init ->
  p_ent (player (end_phase dt g)) = p_ent (player g)
  /\ map g_ent (ghosts (end_phase dt g)) = map g_ent (ghosts g).
Proof.
  intros Hm.
  assert (Hrc : round_clear g = g).
  { destruct (end_phase_maze dt g) as [_ | H]; [|contradiction].
    unfold round_clear. destruct (_ && _) eqn:Hb; [|reflexivity].
    exfalso. apply Hm. unfold end_phase, round_clear. rewrite Hb.
    unfold check_game_over. cbn [player lives].
    destruct (_ <=? _); reflexivity. }
  unfold end_phase. rewrite Hrc.
  assert (H3 : forall x, p_ent (player (update_power_timer dt x)) = p_ent (player x)
                         /\ map g_ent (ghosts (update_power_timer dt x))
                            = map g_ent (ghosts x)).
  { intros x. unfold update_power_timer. destruct (state x); [auto | | auto].
    destruct (Qle_bool _ _); cbn [player ghosts]; [|auto].
    split; [reflexivity|]. rewrite map_map. apply map_ext. reflexivity. }
  destruct (H3 (check_game_over g)) as [-> ->].
  unfold check_game_over. destruct (_ <=? _); split; reflexivity.
Qed.

Lemma Forall2_map_transfer {A B C : Type} (f : B -> C) (P : A -> B -> Prop)
    (l : list A) (mid : list B) :
  Forall2 P l mid ->
  forall out, map f out = map f mid ->
  Forall2 (fun a c => exists b, P a b /\ f c = f b) l out.
Proof.
  induction 1 as [|a b la lb Hab _ IH]; intros out Hmap.
  - destruct out; [constructor | discriminate].
  - destruct out as [|c out]; [discriminate|]. simpl in Hmap.
    injection Hmap as Hc Hrest. constructor; [|apply IH; exact Hrest].
    exists b. split; assumption.
Qed.

Section Snapshot.

Variable RNG : Type.
Variable shuffle : RNG -> list Dir -> list Dir * RNG.

(** A tick, seen from its two ends: the random source that comes out, and,
    when no life is lost and the level is not reset, the player and the
    ghosts that come out. *)
Lemma update_snapshot (pressed : Key -> bool) (dt : Q) (g g' : Game) (r r' : RNG) :
  update RNG shuffle pressed dt g r = Some (g', r') ->
  let moved := Player_update (handle_input pressed (player g)) (maze g) dt in
  let ppos := entity_cell (p_ent (fst (fst moved))) in
  let gs0 := if snd moved then map frighten (ghosts g) else ghosts g in
  r' = snd (update_ghosts RNG shuffle dt ppos gs0 r)
  /\ (lives (player g') = lives (player g) ->
      maze g' ≠ Maze_init ->
      p_ent (player g') = p_ent (fst (fst moved))
      /\ map g_ent (ghosts g')
         = map g_ent (fst (update_ghosts RNG shuffle dt ppos gs0 r))).
Proof.
  cbv zeta. unfold update. rewrite ghost_phase_unfold. intros H.
  destruct (player_phase_unfold pressed dt g) as [Hp1 Hg1].
  destruct (player_phase_facts pressed dt g) as (Hl1 & _).
  set (g1 := player_phase pressed dt g) in *.
  rewrite Hp1, Hg1 in H.
  set (moved := Player_update (handle_input pressed (player g)) (maze g) dt) in *.
  set (ppos := entity_cell (p_ent (fst (fst moved)))) in *.
  set (gs0 := if snd moved then map frighten (ghosts g) else ghosts g) in *.
  set (g2 := mkGame (maze g1) (fst (fst moved))
               (fst (update_ghosts RNG shuffle dt ppos gs0 r)) (state g1) (power_timer g1)) in *.
  destruct (handle_collisions g2) as [g3|] eqn:Hc; [|discriminate].
  simpl in H. inversion H; subst g' r'. clear H.
  split; [reflexivity|]. intros Hl Hm.
  destruct (end_phase_player dt g3) as [Hl4 _]. rewrite Hl4 in Hl.
  destruct (end_phase_no_reset dt g3 Hm) as [-> ->].
  destruct (handle_collisions_cases _ _ Hc)
    as [(_ & Hp & _ & Hgs) | (Hlost & _)].
  - split; [exact Hp|]. cbn [ghosts g2] in Hgs.
    apply Forall2_map_eq. eapply Forall2_impl; [exact Hgs|].
    intros a b (Hab & _). exact Hab.
  - exfalso. cbn [player g2] in Hlost. rewrite <- Hp1 in Hlost. lia.
Qed.

(** C9: what comes out of a tick of [Game.update] is computed from one
    cell of the player, the rounded cell on which [Player.update] has put it:
    the random source that comes out is the one left by updating every ghost,
    in order, with that cell; when the tick costs no life and does not reset
    the level, the player ends the tick on that cell and every ghost ends it
    where [Ghost.update] with that cell has put it.  So two ticks from games
    with the same ghosts and the same random source, whose players end their
    move on the same cell (and both or neither on a power pellet), leave the
    same random source and move the ghosts alike, wherever on the cell the
    players are and whatever else differs. *)
Theorem tick_reads_one_snapshot (pressed : Key -> bool) (dt : Q) (g g' : Game) (r r' : RNG) :
  update RNG shuffle pressed dt g r = Some (g', r') ->
  let moved := Player_update (handle_input pressed (player g)) (maze g) dt in
  let ppos := entity_cell (p_ent (fst (fst moved))) in
  let gs0 := if snd moved then map frighten (ghosts g) else ghosts g in
  r' = snd (update_ghosts RNG shuffle dt ppos gs0 r)
  /\ (lives (player g') = lives (player g) ->
      maze g' ≠ Maze_init ->
      entity_cell (p_ent (player g')) = ppos
      /\ map g_ent (ghosts g')
         = map g_ent (fst (update_ghosts RNG shuffle dt ppos gs0 r))
      /\ Forall2 (fun gh gh' =>
                    exists ri, g_ent gh'
                               = g_ent (fst (Ghost_update RNG shuffle dt
                                               (entity_cell (p_ent (player g'))) gh ri)))
           gs0 (ghosts g'))
  /\ (forall (pressed2 : Key -> bool) (h h' : Game) (rh' : RNG),
        update RNG shuffle pressed2 dt h r = Some (h', rh') ->
        let moved2 := Player_update (handle_input pressed2 (player h)) (maze h) dt in
        ghosts h = ghosts g ->
        snd moved2 = snd moved ->
        entity_cell (p_ent (fst (fst moved2))) = ppos ->
        rh' = r'
        /\ (lives (player g') = lives (player g) -> maze g' ≠ Maze_init ->
            lives (player h') = lives (player h) -> maze h' ≠ Maze_init ->
            map g_ent (ghosts h') = map g_ent (ghosts g'))).
Proof.
  cbv zeta. intros Hup.
  destruct (update_snapshot _ _ _ _ _ _ Hup) as [Hr Hsame]. cbv zeta in Hr, Hsame.
  split; [exact Hr|]. split.
  - intros Hl Hm. destruct (Hsame Hl Hm) as [Hp Hgs].
    split; [rewrite Hp; reflexivity|]. split; [exact Hgs|].
    rewrite Hp.
    eapply Forall2_impl;
      [exact (Forall2_map_transfer g_ent _ _ _ (update_ghosts_each RNG shuffle dt _ _ r) _ Hgs)|].
    intros a c (b & (ri & ->) & Hc). exists ri. exact Hc.
  - intros pressed2 h h' rh' Hup2 Hgs Htrig Hcell.
    destruct (update_snapshot _ _ _ _ _ _ Hup2) as [Hr2 Hsame2]. cbv zeta in Hr2, Hsame2.
    rewrite Hgs, Htrig, Hcell in Hr2, Hsame2.
    split; [congruence|].
    intros Hl Hm Hl2 Hm2.
    destruct (Hsame Hl Hm) as [_ ->]. destruct (Hsame2 Hl2 Hm2) as [_ ->]. reflexivity.
Qed.

End Snapshot.

(** A tick in which the player crosses from cell (4, 8) to cell (2, 8): the
    ghost at the junction (6, 5) turns left, as the cell after the move
    asks for; the cell before the move would have sent it down. *)
Lemma tick_reads_one_snapshot_witness :
  let gh := mkGhost (mkEntity 6 5 (0, 0) (6 # 1)) RED (6 # 1) false false (13, 12) in
  let g := mkGame Maze_init (mkPlayer (mkEntity 4 8 (-1, 0) (8 # 1)) (-1, 0) 3 0)
             [gh] STATE_PLAYING 0%Q in
  exists g' r',
    update nat rotate_shuffle no_keys (1 # 4) g 0%nat = Some (g', r')
    /\ entity_cell (p_ent (player g)) = (4, 8)
    /\ entity_cell (p_ent (player g')) = (2, 8)
    /\ map (fun x => dir (g_ent x)) (ghosts g') = [(-1, 0)]
    /\ dir (g_ent (fst (Ghost_update nat rotate_shuffle (1 # 4) (2, 8) gh 0%nat))) = (-1, 0)
    /\ dir (g_ent (fst (Ghost_update nat rotate_shuffle (1 # 4) (4, 8) gh 0%nat))) = (0, 1).
Proof.
  intros gh g.
  assert (Hfacts : option_map (fun x => (lives (player (fst x)),
                                         bool_decide ((2, 8) ∈ pellets (maze (fst x)))))
                     (update nat rotate_shuffle no_keys (1 # 4) g 0%nat)
                   = Some (3, false)) by (vm_compute; reflexivity).
  destruct (update nat rotate_shuffle no_keys (1 # 4) g 0%nat) as [[g' r']|] eqn:Hup;
    [|discriminate].
  injection Hfacts as Hl Hpel.
  destruct (tick_reads_one_snapshot nat rotate_shuffle no_keys (1 # 4) g g' 0%nat r' Hup)
    as (_ & Hsame & _).
  cbv zeta in Hsame.
  assert (Hm : maze g' ≠ Maze_init).
  { intros Heq. rewrite Heq in Hpel. vm_compute in Hpel. discriminate. }
  destruct (Hsame Hl Hm) as (Hcell & Hgs & _).
  exists g', r'. split; [reflexivity|]. split; [vm_compute; reflexivity|].
  split; [rewrite Hcell; vm_compute; reflexivity|]. split.
  - rewrite <- (map_map g_ent dir), Hgs. vm_compute. reflexivity.
  - split; vm_compute; reflexivity.
Defined.

(** ** The properties of reachable states on games played from the start *)

Lemma game_after_reachable (frames : list Frame) :
  reachable nat rotate_shuffle (game_after frames).
Proof.
  unfold game_after.
  destruct (run nat rotate_shuffle frames Game_init 0%nat) as [[g r]|] eqn:H;
    [|apply reach_init].
  eapply run_stays_reachable; [apply reach_init | exact H].
Qed.

Lemma played_game_summary :
  game_summary played_game
  = (STATE_POWER, 2, 410, (13, 12), (0, 1),
     [((16, 13), (0, -1), true, false, (13, 12));
      ((13, 12), (-1, 0), false, true, (14, 12))],
     210%nat, 3%nat).
Proof. vm_compute. reflexivity. Qed.

Lemma lost_game_summary :
  game_summary lost_game
  = (STATE_GAMEOVER, 0, 0, (12, 14), (0, 0),
     [((13, 12), (0, 0), false, false, (13, 12));
      ((14, 12), (0, 0), false, false, (14, 12))],
     226%nat, 4%nat).
Proof. vm_compute. reflexivity. Qed.

Lemma played_game_state : state played_game = STATE_POWER.
Proof. pose proof played_game_summary as H. unfold game_summary in H. congruence. Qed.

Lemma lost_game_state : state lost_game = STATE_GAMEOVER.
Proof. pose proof lost_game_summary as H. unfold game_summary in H. congruence. Qed.

Lemma frightened_eaten_exclusive_witness :
  reachable nat rotate_shuffle played_game
  /\ game_summary played_game
     = (STATE_POWER, 2, 410, (13, 12), (0, 1),
        [((16, 13), (0, -1), true, false, (13, 12));
         ((13, 12), (-1, 0), false, true, (14, 12))],
        210%nat, 3%nat)
  /\ forall gh, gh ∈ ghosts played_game -> ~ (frightened gh = true /\ eaten gh = true).
Proof.
  split; [apply game_after_reachable|]. split; [exact played_game_summary|].
  exact (frightened_eaten_exclusive nat rotate_shuffle played_game
           (game_after_reachable played_frames)).
Defined.

Lemma reachable_round_state_witness :
  reachable nat rotate_shuffle played_game
  /\ reachable nat rotate_shuffle lost_game
  /\ state played_game = STATE_POWER
  /\ state lost_game = STATE_GAMEOVER
  /\ 0 <= lives (player played_game) <= 3
  /\ lives (player lost_game) = 0
  /\ (0 < power_timer played_game)%Q
  /\ (forall gh, gh ∈ ghosts played_game -> frightened gh = true ->
        state played_game = STATE_POWER).
Proof.
  destruct (reachable_round_state nat rotate_shuffle played_game
              (game_after_reachable played_frames)) as (Hl & _ & _ & Hpow & Hfri).
  destruct (reachable_round_state nat rotate_shuffle lost_game
              (game_after_reachable lost_frames)) as (_ & _ & Hiff & _).
  split; [apply game_after_reachable|]. split; [apply game_after_reachable|].
  split; [exact played_game_state|]. split; [exact lost_game_state|]. split; [exact Hl|].
  split; [apply Hiff, lost_game_state|]. split; [apply Hpow, played_game_state | exact Hfri].
Defined.

Lemma reachable_on_free_cells_witness :
  reachable nat rotate_shuffle played_game
  /\ game_summary played_game
     = (STATE_POWER, 2, 410, (13, 12), (0, 1),
        [((16, 13), (0, -1), true, false, (13, 12));
         ((13, 12), (-1, 0), false, true, (14, 12))],
        210%nat, 3%nat)
  /\ is_wall (py_round (col (p_ent (player played_game))))
             (py_round (row (p_ent (player played_game)))) = false
  /\ forall gh, gh ∈ ghosts played_game ->
       is_wall (py_round (col (g_ent gh))) (py_round (row (g_ent gh))) = false.
Proof.
  split; [apply game_after_reachable|]. split; [exact played_game_summary|].
  exact (reachable_on_free_cells nat rotate_shuffle played_game
           (game_after_reachable played_frames)).
Defined.

Lemma reachable_maze_shape_witness :
  reachable nat rotate_shuffle played_game
  /\ game_summary played_game
     = (STATE_POWER, 2, 410, (13, 12), (0, 1),
        [((16, 13), (0, -1), true, false, (13, 12));
         ((13, 12), (-1, 0), false, true, (14, 12))],
        210%nat, 3%nat)
  /\ size (pellets Maze_init) = 226%nat
  /\ size (power_pellets Maze_init) = 4%nat
  /\ pellets (maze played_game) ⊆ pellets Maze_init
  /\ power_pellets (maze played_game) ⊆ power_pellets Maze_init
  /\ pellets (maze played_game) ## power_pellets (maze played_game)
  /\ ghost_starts (maze played_game) = [(13, 12); (14, 12)].
Proof.
  destruct (reachable_maze_shape nat rotate_shuffle played_game
              (game_after_reachable played_frames)) as (H1 & H2 & H3 & _ & _ & H6).
  split; [apply game_after_reachable|]. split; [exact played_game_summary|].
  split; [vm_compute; reflexivity|]. split; [vm_compute; reflexivity|].
  repeat split; assumption.
Defined.

Lemma reachable_unit_dirs_witness :
  reachable nat rotate_shuffle played_game
  /\ game_summary played_game
     = (STATE_POWER, 2, 410, (13, 12), (0, 1),
        [((16, 13), (0, -1), true, false, (13, 12));
         ((13, 12), (-1, 0), false, true, (14, 12))],
        210%nat, 3%nat)
  /\ unit_dir (dir (p_ent (player played_game)))
  /\ unit_dir (next_dir (player played_game))
  /\ forall gh, gh ∈ ghosts played_game -> unit_dir (dir (g_ent gh)).
Proof.
  split; [apply game_after_reachable|]. split; [exact played_game_summary|].
  exact (reachable_unit_dirs nat rotate_shuffle rotate_shuffle_perm played_game
           (game_after_reachable played_frames)).
Defined.

Lemma reachable_homes_witness :
  reachable nat rotate_shuffle played_game
  /\ game_summary played_game
     = (STATE_POWER, 2, 410, (13, 12), (0, 1),
        [((16, 13), (0, -1), true, false, (13, 12));
         ((13, 12), (-1, 0), false, true, (14, 12))],
        210%nat, 3%nat)
  /\ map home (ghosts played_game) = take 4 (ghost_starts (maze played_game)).
Proof.
  split; [apply game_after_reachable|]. split; [exact played_game_summary|].
  exact (reachable_homes nat rotate_shuffle played_game
           (game_after_reachable played_frames)).
Defined.
